(** * Attachment / gallery extension of the rich-text editor

    A shallow embedding of the attachment extension (gallery
    reconciliation plugin, figure rendering and parsing, the
    [setAttachment] command and the image [onload] write-back) together
    with the part of the document model of the editor library that the
    extension calls into.  Documents are trees, positions are integer
    offsets into the flattened tree, and code that mutates a transaction
    is written in a state-and-exception monad. *)

From Stdlib Require Import ZArith Lia Bool Ascii String List.
From stdpp Require Import base option list strings pretty countable gmap.

Local Open Scope Z_scope.

#[local] Set Warnings "-register-all".

(** ** JavaScript values *)

Module JS.

(** The primitive values an attribute may hold.  [undefined] is the
    absence of a value ([None] of [option value]; a missing key of an
    object).  The numbers are the integers that JavaScript holds
    exactly and writes out digit by digit (sizes, dimensions and
    positions are such); fractions and the numbers written with an
    exponent, from [1e21] on, are not covered. *)
Inductive value : Type :=
| VNull
| VBool (b : bool)
| VNum (n : Z)
| VStr (s : string).

#[export] Instance value_eq_dec : EqDecision value.
Proof. solve_decision. Defined.

(** An object used as a string-keyed map. *)
Abbreviation object := (gmap string value).

(** Errors that the embedded code can raise. *)
Inductive error : Type :=
| TypeError       (* property access on undefined, call of a non-function *)
| RangeError      (* position out of range, unknown node type, ... *)
| SyntaxError     (* JSON.parse on text that is not JSON *)
| PlainError      (* an [Error] of no more specific class *)
| TransformError  (* a replacement that the document fitter has to
                     resolve with content joining across branches,
                     which this development does not cover *).

Inductive result (A : Type) : Type :=
| Ok (a : A)
| Throw (e : error).
Arguments Ok {A} a.
Arguments Throw {A} e.

Definition truthy (v : option value) : bool :=
  match v with
  | None | Some VNull => false
  | Some (VBool b) => b
  | Some (VNum n) => negb (n =? 0)
  | Some (VStr s) => negb (bool_decide (s = ""))
  end.

(** A string, [null] or [undefined]. *)
Definition stringish (v : option value) : bool :=
  match v with
  | None | Some VNull | Some (VStr _) => true
  | Some (VBool _) | Some (VNum _) => false
  end.

(** [a || b] *)
Definition or_else (a b : option value) : option value :=
  if truthy a then a else b.

(** [a !== b] on primitives. *)
Definition strict_ne (a b : option value) : bool :=
  negb (bool_decide (a = b)).

(** ["..." + x] where [x] is a string or undefined. *)
Definition concat_maybe (s : string) (x : option string) : string :=
  s +:+ match x with Some t => t | None => "undefined" end.

Definition lower_ascii (c : ascii) : ascii :=
  let n := nat_of_ascii c in
  if ((65 <=? n) && (n <=? 90))%nat then ascii_of_nat (n + 32) else c.

(** [String.prototype.toLowerCase] on the ASCII range. *)
Fixpoint toLowerCase (s : string) : string :=
  match s with
  | EmptyString => EmptyString
  | String c r => String (lower_ascii c) (toLowerCase r)
  end.

(** The class [\w] of regular expressions. *)
Definition is_word (c : ascii) : bool :=
  let n := nat_of_ascii c in
  (((48 <=? n) && (n <=? 57)) || ((65 <=? n) && (n <=? 90))
   || ((97 <=? n) && (n <=? 122)) || (n =? 95))%nat.

Fixpoint all_word (s : string) : bool :=
  match s with
  | EmptyString => true
  | String c r => is_word c && all_word r
  end.

End JS.
Export JS.

(** ** State-and-exception monad

    Code that mutates a captured object (a transaction, a flag) and may
    raise is a function from the state to a result and a new state. *)

Definition M (S A : Type) : Type := S -> result (A * S).

Definition ret {S A} (a : A) : M S A := fun s => Ok (a, s).

Definition bind {S A B} (m : M S A) (k : A -> M S B) : M S B :=
  fun s => match m s with
           | Ok (a, s') => k a s'
           | Throw e => Throw e
           end.

Definition throw {S A} (e : error) : M S A := fun _ => Throw e.

Definition get {S} : M S S := fun s => Ok (s, s).
Definition put {S} (s : S) : M S unit := fun _ => Ok (tt, s).

Notation "'let*' x ':=' m 'in' k" := (bind m (fun x => k))
  (at level 10, x pattern, m at level 100, k at level 200).
Notation "m ';;' k" := (bind m (fun _ => k))
  (at level 100, k at level 200, right associativity).

(** [result] alone, for code without state. *)
Definition rbind {A B} (r : result A) (k : A -> result B) : result B :=
  match r with Ok a => k a | Throw e => Throw e end.

Notation "'let?' x ':=' m 'in' k" := (rbind m (fun x => k))
  (at level 10, x pattern, m at level 100, k at level 200).

(** Code that was handed an object by its caller: what it did to the
    object before it raised stays done, so the object is returned
    with the error as well. *)
Definition K (S A : Type) : Type := S -> result A * S.

Definition kbind {S A B} (m : K S A) (k : A -> K S B) : K S B :=
  fun s => match m s with
           | (Ok a, s') => k a s'
           | (Throw e, s') => (Throw e, s')
           end.

(** A computation that does not touch the object. *)
Definition pure {S A} (r : result A) : K S A := fun s => (r, s).

(** A call of a method of the object, which changes the object when
    it returns and has not changed it when it raises. *)
Definition call {S A} (m : M S A) : K S A :=
  fun s => match m s with
           | Ok (a, s') => (Ok a, s')
           | Throw e => (Throw e, s)
           end.

Notation "'let+' x ':=' m 'in' k" := (kbind m (fun x => k))
  (at level 10, x pattern, m at level 100, k at level 200).

(** ** Document model of the editor library

    The node types, nodes, fragments and positions of the document
    model, as far as the extension uses them.  Marks are left out: no
    code of the extension reads or writes them. *)

Module PM.

(** A content expression.  The node types of the extension and the
    paragraph and document types around them all have the form
    [group*], [group+] or no content. *)
Inductive ContentExpr : Type :=
| CEmpty
| CStar (g : string)
| CPlus (g : string).

Record NodeType : Type := mkNodeType {
  name : string;
  content : ContentExpr;
  group : list string;
  atom : bool;
  selectable : bool;
  (** declared attributes, each with its default if it has one *)
  attrSpecs : gmap string (option value)
}.

#[export] Instance ContentExpr_eq_dec : EqDecision ContentExpr.
Proof. solve_decision. Defined.

#[export] Instance NodeType_eq_dec : EqDecision NodeType.
Proof. solve_decision. Defined.

Inductive Node : Type :=
| Text (text : string)
| Elem (type : NodeType) (attrs : object) (children : list Node).

Definition typeName (n : Node) : string :=
  match n with
  | Text _ => "text"
  | Elem t _ _ => name t
  end.

Definition nodeGroups (n : Node) : list string :=
  match n with
  | Text _ => ["inline"]
  | Elem t _ _ => group t
  end.

Definition nodeAttrs (n : Node) : object :=
  match n with
  | Text _ => ∅
  | Elem _ a _ => a
  end.

Definition nodeContent (n : Node) : list Node :=
  match n with
  | Text _ => []
  | Elem _ _ cs => cs
  end.

Definition isText (n : Node) : bool :=
  match n with Text _ => true | Elem _ _ _ => false end.

(** [NodeType.isLeaf]: the content expression matches nothing. *)
Definition isLeafType (t : NodeType) : bool :=
  match content t with CEmpty => true | _ => false end.

Definition isLeaf (n : Node) : bool :=
  match n with Text _ => true | Elem t _ _ => isLeafType t end.

(** [NodeType.inlineContent] *)
Definition inlineContentType (t : NodeType) : bool :=
  match content t with
  | CStar g | CPlus g => bool_decide (g = "inline") || bool_decide (g = "text")
  | CEmpty => false
  end.

Definition isAtom (n : Node) : bool :=
  match n with Text _ => true | Elem t _ _ => isLeafType t || atom t end.

(** [Node.nodeSize] and [Fragment.size] *)
Fixpoint nodeSize (n : Node) : Z :=
  match n with
  | Text s => Z.of_nat (String.length s)
  | Elem t _ cs =>
      if isLeafType t then 1
      else 2 + (fix size (l : list Node) : Z :=
                  match l with
                  | [] => 0
                  | c :: r => nodeSize c + size r
                  end) cs
  end.

Fixpoint fragmentSize (l : list Node) : Z :=
  match l with
  | [] => 0
  | c :: r => nodeSize c + fragmentSize r
  end.

(** [node.content.size] *)
Definition contentSize (n : Node) : Z := fragmentSize (nodeContent n).

(** Whether the content expression of [t] lets [c] in as a child. *)
Definition accepts (t : NodeType) (c : Node) : bool :=
  match content t with
  | CEmpty => false
  | CStar g | CPlus g =>
      bool_decide (g = typeName c) || bool_decide (g ∈ nodeGroups c)
  end.

(** [NodeType.validContent] *)
Definition validContent (t : NodeType) (cs : list Node) : bool :=
  match content t with
  | CEmpty => bool_decide (cs = [])
  | CStar _ => forallb (accepts t) cs
  | CPlus _ => negb (bool_decide (cs = [])) && forallb (accepts t) cs
  end.

(** [computeAttrs]: the declared attributes, each with the given value
    or else its default; a declared attribute with neither raises. *)
Definition computeAttrs (specs : gmap string (option value)) (values : object)
  : result object :=
  if bool_decide (map_Forall (λ k d, is_Some d ∨ is_Some (values !! k)) specs)
  then Ok (merge (λ spec given,
                    match spec with
                    | None => None
                    | Some d => match given with Some v => Some v | None => d end
                    end) specs values)
  else Throw RangeError.

(** [NodeType.create(attrs, content)] *)
Definition create (t : NodeType) (values : object) (cs : list Node) : result Node :=
  let? a := computeAttrs (attrSpecs t) values in
  Ok (Elem t a cs).

(** [NodeType.createChecked(attrs, content)] *)
Definition createChecked (t : NodeType) (values : object) (cs : list Node)
  : result Node :=
  let? a := computeAttrs (attrSpecs t) values in
  if validContent t cs then Ok (Elem t a cs) else Throw RangeError.

Record Schema : Type := mkSchema {
  nodes : gmap string NodeType
}.

(** [schema.node(name, attrs, content)] *)
Definition schema_node (s : Schema) (nm : string) (values : object)
  (cs : list Node) : result Node :=
  match nodes s !! nm with
  | None => Throw RangeError
  | Some t => createChecked t values cs
  end.

(** [schema.text(s)]: an empty text node is refused. *)
Definition schema_text (s : string) : result Node :=
  if bool_decide (s = "") then Throw RangeError else Ok (Text s).

End PM.
Export PM.

(** ** Rendered markup

    The output specifications that [renderHTML] returns and the element
    trees that the serializer builds from them. *)

Module DOM.

(** A [DOMOutputSpec]: [[tag, attrs, ...children]] or the content hole [0]. *)
Inductive Spec : Type :=
| SElem (tag : string) (attrs : object) (children : list Spec)
| SHole.

(** An element tree.  [DContent markup] is the serialized inline
    content that fills a content hole. *)
Inductive Dom : Type :=
| DElem (tag : string) (attrs : gmap string string) (children : list Dom)
| DContent (markup : string).

(** [String(v)] for an attribute value; the serializer skips [null]. *)
Definition attrString (v : value) : option string :=
  match v with
  | VNull => None
  | VBool b => Some (if b then "true" else "false")
  | VNum n => Some (pretty n)
  | VStr s => Some s
  end.

(** [DOMSerializer.renderSpec], the hole filled with the markup of the
    node's content. *)
Fixpoint renderSpec (inner : string) (s : Spec) : Dom :=
  match s with
  | SHole => DContent inner
  | SElem t a cs => DElem t (omap attrString a) (map (renderSpec inner) cs)
  end.

Definition tagOf (d : Dom) : option string :=
  match d with DElem t _ _ => Some t | DContent _ => None end.

Definition getAttribute (d : Dom) (k : string) : option string :=
  match d with DElem _ a _ => a !! k | DContent _ => None end.

Definition childrenOf (d : Dom) : list Dom :=
  match d with DElem _ _ cs => cs | DContent _ => [] end.

(** [querySelector(tag)]: the first descendant element with that tag,
    in document order. *)
Fixpoint querySelector (tg : string) (d : Dom) : option Dom :=
  match d with
  | DContent _ => None
  | DElem _ _ cs =>
      (fix first (l : list Dom) : option Dom :=
         match l with
         | [] => None
         | c :: r =>
             if bool_decide (tagOf c = Some tg) then Some c
             else match querySelector tg c with
                  | Some e => Some e
                  | None => first r
                  end
         end) cs
  end.

(** [mergeAttributes(a, b)]: later values win, class names are joined.
    (The joining of [style] is left out: no caller passes one.) *)
Definition valueString (v : value) : string :=
  match attrString v with Some s => s | None => "null" end.

Definition mergeAttributes (a b : object) : object :=
  match a !! "class", b !! "class" with
  | Some x, Some y =>
      if truthy (Some x)
      then <["class" := VStr (valueString x +:+ " " +:+ valueString y)]> (b ∪ a)
      else b ∪ a
  | _, _ => b ∪ a
  end.

(** An element together with its ancestors, nearest first. *)
Record Element : Type := mkElement {
  self : Dom;
  ancestors : list Dom
}.

(** [element.closest(selector)] *)
Definition closest (sel : Dom -> bool) (e : Element) : option Dom :=
  List.find sel (self e :: ancestors e).

Definition hasTag (tg : string) (d : Dom) : bool :=
  bool_decide (tagOf d = Some tg).

Definition hasTagWithAttr (tg k : string) (d : Dom) : bool :=
  hasTag tg d && bool_decide (is_Some (getAttribute d k)).

End DOM.
Export DOM.

(** ** Positions, cuts and transactions of the document model *)

Module Transform.

(** [String.prototype.slice(from, to)] for [0 <= from] *)
Definition sliceString (s : string) (from to : Z) : string :=
  String.substring (Z.to_nat from) (Z.to_nat (to - from)) s.

(** The functions below walk the children of a node with a running
    position; each walk is written once, over the function that
    handles the child the position falls into. *)

(** [Node.nodeAt(pos)]: the node that starts at [pos], or the text
    node that [pos] points into; [null] where no node starts.  A
    position outside the content raises. *)
Definition nodeAtIn (rec : Node -> Z -> result (option Node)) (pos : Z)
  : list Node -> Z -> result (option Node) :=
  fix scan (l : list Node) (curPos : Z) : result (option Node) :=
    match l with
    | [] => Ok None
    | c :: r =>
        if curPos =? pos then Ok (Some c)
        else
          let e := curPos + nodeSize c in
          if pos <? e
          then (if isText c then Ok (Some c) else rec c (pos - curPos - 1))
          else scan r e
    end.

Fixpoint nodeAt (n : Node) (pos : Z) : result (option Node) :=
  if (pos <? 0) || (contentSize n <? pos) then Throw RangeError
  else
    match n with
    | Text _ => Ok None
    | Elem _ _ cs => nodeAtIn nodeAt pos cs 0
    end.

(** A resolved position: the ancestors of the position from the
    document down, each with the index into it and the absolute
    position of the child at that index. *)
Record ResolvedPos : Type := mkResolved {
  rpos : Z;
  path : list (Node * nat * Z);
  parentOffset : Z
}.

Definition resolveIn (rec : Node -> Z -> Z -> list (Node * nat * Z) * Z)
  (n : Node) (offset start : Z) : list Node -> nat -> Z -> list (Node * nat * Z) * Z :=
  fix scan (l : list Node) (i : nat) (curPos : Z) : list (Node * nat * Z) * Z :=
    match l with
    | [] => ([(n, i, start + curPos)], offset)
    | c :: r =>
        if curPos =? offset then ([(n, i, start + curPos)], offset)
        else
          let e := curPos + nodeSize c in
          if offset <? e
          then
            if isText c then ([(n, i, start + curPos)], offset)
            else
              let '(p, po) := rec c (offset - curPos - 1) (start + curPos + 1) in
              ((n, i, start + curPos) :: p, po)
          else scan r (S i) e
    end.

Fixpoint resolvePath (n : Node) (offset start : Z) : list (Node * nat * Z) * Z :=
  match n with
  | Text _ => ([(n, 0%nat, start)], offset)
  | Elem _ _ cs => resolveIn resolvePath n offset start cs 0%nat 0
  end.

(** [doc.resolve(pos)] *)
Definition resolve (doc : Node) (pos : Z) : result ResolvedPos :=
  if (0 <=? pos) && (pos <=? contentSize doc)
  then let '(p, po) := resolvePath doc pos 0 in
       Ok {| rpos := pos; path := p; parentOffset := po |}
  else Throw RangeError.

Definition depth (r : ResolvedPos) : nat := Nat.pred (length (path r)).

(** [$pos.node(d)] *)
Definition node (r : ResolvedPos) (d : nat) : option Node :=
  (λ e, e.1.1) <$> path r !! d.

(** [$pos.index(d)] *)
Definition index (r : ResolvedPos) (d : nat) : option nat :=
  (λ e, e.1.2) <$> path r !! d.

(** [$pos.start(d)] *)
Definition start (r : ResolvedPos) (d : nat) : option Z :=
  match d with
  | O => Some 0
  | S d' => (λ e, e.2 + 1) <$> path r !! d'
  end.

(** [$pos.end()], the end of the parent's content *)
Definition end_ (r : ResolvedPos) : option Z :=
  s ← start r (depth r);
  n ← node r (depth r);
  Some (s + contentSize n).

(** [$pos.parent] *)
Definition parent (r : ResolvedPos) : option Node := node r (depth r).

(** [Fragment.cut(from, to)], the positions relative to the start of
    the content, and [Node.cut(from, to)]. *)
Definition cutIn (rec : Node -> Z -> Z -> Node) (from to : Z)
  : list Node -> Z -> list Node :=
  fix scan (l : list Node) (pos : Z) : list Node :=
    match l with
    | [] => []
    | child :: r =>
        if pos <? to
        then
          let e := pos + nodeSize child in
          (if from <? e
           then
             [ if (pos <? from) || (to <? e)
               then
                 if isText child
                 then rec child (Z.max 0 (from - pos))
                        (Z.min (nodeSize child) (to - pos))
                 else rec child (Z.max 0 (from - pos - 1))
                        (Z.min (contentSize child) (to - pos - 1))
               else child ]
           else [])
            ++ scan r e
        else []
    end.

Fixpoint cutNode (n : Node) (from to : Z) : Node :=
  match n with
  | Text s => Text (sliceString s from to)
  | Elem t a cs => Elem t a (if from <? to then cutIn cutNode from to cs 0 else [])
  end.

Definition cut (cs : list Node) (from to : Z) : list Node :=
  if from <? to then cutIn cutNode from to cs 0 else [].

(** *** Slices and steps *)

(** A slice: a fragment whose first [openStart] and last [openEnd]
    levels of nodes are open, to be joined with what surrounds the
    place it is put in. *)
Record Slice : Type := mkSlice {
  sliceContent : list Node;
  openStart : Z;
  openEnd : Z
}.

(** [Slice.size] *)
Definition sliceSize (s : Slice) : Z :=
  fragmentSize (sliceContent s) - openStart s - openEnd s.

Inductive Step : Type :=
(** the range from [from] to [to] replaced by a slice *)
| ReplaceStep (from to : Z) (slice : Slice)
(** the markup around the content of the node at [pos] replaced *)
| ReplaceAroundStep (pos : Z) (type : NodeType) (attrs : object).

(** *** Replacing a range by a closed slice

    [Transform.replaceWith(from, to, nodes)] computes a step with the
    document fitter and applies it.  For a closed slice and content
    expressions of the form [group*] or [group+] the outcome is: the
    nodes are placed in the deepest ancestor of [from] that admits the
    first of them; the ancestors of [from] below it are closed where
    [from] cuts them, those of [to] are reopened after the nodes, or
    dropped when [to] is at their very end.  The step that the fitter
    records starts at [from]; it ends at [to], or behind the ancestor
    of [to] that is dropped; its slice holds the nodes between empty
    copies of the ancestors closed on the left and reopened on the
    right, which are its open levels.  Cases that the fitter resolves
    by generating filler nodes or by joining the content of different
    branches are not covered and raise [TransformError]. *)

(** The child that offset [p] falls strictly into, with its start;
    what [inside] says about it, else [outside]. *)
Definition childAt {R} (p : Z) (outside : R) (inside : Node -> list Node -> Z -> R)
  : list Node -> Z -> R :=
  fix scan (l : list Node) (curPos : Z) : R :=
    match l with
    | [] => outside
    | c :: r =>
        if curPos =? p then outside
        else
          let e := curPos + nodeSize c in
          if p <? e then inside c r curPos else scan r e
    end.

(** The number of non-text nodes below [n] that strictly contain
    offset [p] of its content. *)
Fixpoint depthBelow (n : Node) (p : Z) : Z :=
  match n with
  | Text _ => 0
  | Elem _ _ cs =>
      childAt p 0
        (λ c _ curPos, if isText c then 0 else 1 + depthBelow c (p - curPos - 1))
        cs 0
  end.

(** Only closing tokens lie between offset [p] and the end of [n]. *)
Fixpoint atEnd (n : Node) (p : Z) : bool :=
  (p =? contentSize n)
  || match n with
     | Text _ => false
     | Elem _ _ cs =>
         childAt p false
           (λ c r curPos,
              negb (isText c) && bool_decide (r = []) && atEnd c (p - curPos - 1))
           cs 0
     end.

(** The nodes that [p] cuts keep at least one child on the left
    (resp. right) where their content expression demands one. *)
Definition needsChild (n : Node) : bool :=
  match n with
  | Elem t _ _ => match content t with CPlus _ => true | _ => false end
  | Text _ => false
  end.

Fixpoint leftOk (n : Node) (p : Z) : bool :=
  match n with
  | Text _ => true
  | Elem _ _ cs =>
      childAt p true
        (λ c _ curPos,
           isText c
           || ((negb (needsChild c) || (0 <? p - curPos - 1))
               && leftOk c (p - curPos - 1)))
        cs 0
  end.

Fixpoint rightOk (n : Node) (p : Z) : bool :=
  match n with
  | Text _ => true
  | Elem _ _ cs =>
      childAt p true
        (λ c _ curPos,
           isText c
           || ((negb (needsChild c) || (p - curPos - 1 <? contentSize c))
               && rightOk c (p - curPos - 1)))
        cs 0
  end.

(** The end of the child of [cs] that [p] lies in, when only closing
    tokens separate [p] from it. *)
Definition dropsAt (cs : list Node) (p : Z) : option Z :=
  childAt p None
    (λ c _ curPos,
       if negb (isText c) && atEnd c (p - curPos - 1)
       then Some (curPos + nodeSize c) else None)
    cs 0.

(** The nodes below [n] that strictly contain offset [p], emptied and
    nested in one another: what the fitter starts from on the left of
    the slice ([node.copy] of each ancestor of [from]). *)
Fixpoint closedCopies (n : Node) (p : Z) : list Node :=
  match n with
  | Text _ => []
  | Elem _ _ cs =>
      childAt p []
        (λ c _ curPos,
           match c with
           | Text _ => []
           | Elem t a _ => [Elem t a (closedCopies c (p - curPos - 1))]
           end)
        cs 0
  end.

(** The same on the right of the slice, where the fitter opens each
    ancestor of [to] again with [type.create(attrs, ...)]. *)
Fixpoint reopenedCopies (n : Node) (p : Z) : result (list Node) :=
  match n with
  | Text _ => Ok []
  | Elem _ _ cs =>
      childAt p (Ok [])
        (λ c _ curPos,
           match c with
           | Text _ => Ok []
           | Elem t a _ =>
               let? inner := reopenedCopies c (p - curPos - 1) in
               let? copy := create t a inner in
               Ok [copy]
           end)
        cs 0
  end.

(** Placing [slice] in the content of [n] itself: the node that
    results and the step recorded. *)
Definition placeHere (n : Node) (base from to : Z) (slice : list Node)
  : result (option (Node * Step)) :=
  match n, slice with
  | Elem t a cs, first :: _ =>
      if accepts t first
      then
        if negb (forallb (accepts t) slice) || (contentSize n <? to)
           || negb (leftOk n from)
        then Throw TransformError
        else
          let left := cut cs 0 from in
          let closed := closedCopies n from in
          match dropsAt cs to with
          | Some e =>
              Ok (Some (Elem t a (left ++ slice ++ cut cs e (fragmentSize cs)),
                        ReplaceStep (base + from) (base + e)
                          {| sliceContent := closed ++ slice;
                             openStart := depthBelow n from;
                             openEnd := 0 |}))
          | None =>
              if rightOk n to
              then
                let? reopened := reopenedCopies n to in
                Ok (Some (Elem t a (left ++ slice ++ cut cs to (fragmentSize cs)),
                          ReplaceStep (base + from) (base + to)
                            {| sliceContent := closed ++ slice ++ reopened;
                               openStart := depthBelow n from;
                               openEnd := depthBelow n to |}))
              else Throw TransformError
          end
      else Ok None
  | _, _ => Ok None
  end.

(** The children with the one that [from] falls into replaced, when
    the slice was placed inside it. *)
Definition replaceChild
  (rec : Node -> Z -> Z -> Z -> result (option (Node * Step))) (base from to : Z)
  : list Node -> Z -> result (option (list Node * Step)) :=
  fix scan (l : list Node) (curPos : Z) : result (option (list Node * Step)) :=
    match l with
    | [] => Ok None
    | c :: r =>
        if curPos =? from then Ok None
        else
          let e := curPos + nodeSize c in
          if from <? e
          then
            if isText c then Ok None
            else
              let? inner :=
                rec c (base + curPos + 1) (from - curPos - 1) (to - curPos - 1) in
              Ok ((λ x, (x.1 :: r, x.2)) <$> inner)
          else
            let? rest := scan r e in
            Ok ((λ x, (c :: x.1, x.2)) <$> rest)
    end.

(** The replaced node and the step; [None] when no ancestor of
    [from] from [n] down admits the slice.  [base] is the position at
    which the content of [n] starts, [from] and [to] are relative to
    it. *)
Fixpoint replaceIn (slice : list Node) (n : Node) (base from to : Z)
  : result (option (Node * Step)) :=
  match n with
  | Text _ => Ok None
  | Elem t a cs =>
      let? deeper := replaceChild (replaceIn slice) base from to cs 0 in
      match deeper with
      | Some (cs', step) => Ok (Some (Elem t a cs', step))
      | None => placeHere n base from to slice
      end
  end.

(** *** Selections *)

Inductive Selection : Type :=
| TextSelection (anchor head : Z)
| NodeSelection (pos size : Z)
| AllSelection (size : Z).

Definition anchor (s : Selection) : Z :=
  match s with
  | TextSelection a _ => a
  | NodeSelection p _ => p
  | AllSelection _ => 0
  end.

Definition head (s : Selection) : Z :=
  match s with
  | TextSelection _ h => h
  | NodeSelection p n => p + n
  | AllSelection n => n
  end.

Definition from (s : Selection) : Z := Z.min (anchor s) (head s).
Definition to (s : Selection) : Z := Z.max (anchor s) (head s).

(** *** Transactions *)

Record Transaction : Type := mkTransaction {
  doc : Node;
  steps : list Step;
  (** the selection, once [setSelection] has been called *)
  selectionSet : option Selection
}.

Definition lift {S A} (r : result A) : M S A :=
  fun s => match r with Ok a => Ok (a, s) | Throw e => Throw e end.

(** [tr.replaceWith(from, to, nodes)] *)
Definition replaceWith (from to : Z) (slice : list Node) : M Transaction unit :=
  fun tr =>
    if (from =? to) && bool_decide (slice = []) then Ok (tt, tr)
    else
      let? _ := resolve (doc tr) from in
      let? _ := resolve (doc tr) to in
      if (to <? from) || bool_decide (slice = []) then Throw TransformError
      else
        let? r := replaceIn slice (doc tr) 0 from to in
        match r with
        | None => Throw TransformError
        | Some (d, step) =>
            Ok (tt, {| doc := d;
                       steps := steps tr ++ [step];
                       selectionSet := selectionSet tr |})
        end.

(** [tr.insert(pos, nodes)] *)
Definition insert (pos : Z) (slice : list Node) : M Transaction unit :=
  replaceWith pos pos slice.

(** The document with the attributes of the node that starts at
    [pos] replaced. *)
Definition withAttrs (a' : object) (n : Node) : Node :=
  match n with
  | Elem t _ cs => Elem t a' cs
  | Text _ => n
  end.

Definition setAttrsIn (rec : Node -> Z -> Node) (pos : Z) (a' : object)
  : list Node -> Z -> list Node :=
  fix scan (l : list Node) (curPos : Z) : list Node :=
    match l with
    | [] => []
    | c :: r =>
        if curPos =? pos then withAttrs a' c :: r
        else
          let e := curPos + nodeSize c in
          if pos <? e then rec c (pos - curPos - 1) :: r
          else c :: scan r e
    end.

Fixpoint setAttrsAt (a' : object) (n : Node) (pos : Z) : Node :=
  match n with
  | Text _ => n
  | Elem t a cs => Elem t a (setAttrsIn (setAttrsAt a') pos a' cs 0)
  end.

(** [tr.setNodeMarkup(pos, undefined, attrs)]: the node at [pos]
    keeps its type and content and gets the attributes computed from
    [attrs]. *)
Definition setNodeMarkup (pos : Z) (values : object) : M Transaction unit :=
  fun tr =>
    let? found := nodeAt (doc tr) pos in
    match found with
    | None => Throw RangeError
    | Some (Text _) => Throw PlainError   (* [create] of the text type *)
    | Some (Elem t a cs) =>
        let? newNode := create t values [] in
        if isLeafType t
        then replaceWith pos (pos + nodeSize (Elem t a cs)) [newNode] tr
        else if negb (validContent t cs) then Throw RangeError
        else
          Ok (tt, {| doc := setAttrsAt (nodeAttrs newNode) (doc tr) pos;
                     steps := steps tr ++ [ReplaceAroundStep pos t (nodeAttrs newNode)];
                     selectionSet := selectionSet tr |})
    end.

(** [tr.setSelection(selection)] *)
Definition setSelection (s : Selection) : M Transaction unit :=
  fun tr => Ok (tt, {| doc := doc tr; steps := steps tr; selectionSet := Some s |}).

Record EditorState : Type := mkState {
  state_doc : Node;
  selection : Selection;
  schema : Schema
}.

(** [state.tr] *)
Definition state_tr (st : EditorState) : Transaction :=
  {| doc := state_doc st; steps := []; selectionSet := None |}.

(** *** Traversal *)

(** [Node.nodesBetween(from, to, f, nodeStart)]: [f] is called on
    every descendant that overlaps the range, parents before
    children; the children of a node are visited unless [f] returned
    [false]. *)
Definition nodesBetweenIn {S} (rec : Node -> Z -> Z -> Z -> M S unit)
  (from to : Z) (f : Node -> Z -> M S bool) (nodeStart : Z)
  : list Node -> Z -> M S unit :=
  fix scan (l : list Node) (pos : Z) : M S unit :=
    match l with
    | [] => ret tt
    | child :: r =>
        if pos <? to
        then
          let e := pos + nodeSize child in
          (if from <? e
           then
             let* descend := f child (nodeStart + pos) in
             if descend && (0 <? contentSize child)
             then
               let start := pos + 1 in
               rec child (Z.max 0 (from - start))
                 (Z.min (contentSize child) (to - start)) (nodeStart + start)
             else ret tt
           else ret tt) ;;
          scan r e
        else ret tt
    end.

Fixpoint nodesBetween {S} (f : Node -> Z -> M S bool) (n : Node)
  (from to nodeStart : Z) : M S unit :=
  match n with
  | Text _ => ret tt
  | Elem _ _ cs => nodesBetweenIn (nodesBetween f) from to f nodeStart cs 0
  end.

(** [Node.descendants(f)] *)
Definition descendants {S} (n : Node) (f : Node -> Z -> M S bool) : M S unit :=
  nodesBetween f n 0 (contentSize n) 0.

(** *** Finding a selection near a position *)

(** [NodeSelection.isSelectable] *)
Definition isSelectable (n : Node) : bool :=
  match n with Text _ => false | Elem t _ _ => selectable t end.

Definition inlineContent (n : Node) : bool :=
  match n with Text _ => false | Elem t _ _ => inlineContentType t end.

(** [findSelectionIn(doc, node, pos, index, dir)] for [dir < 0]: the
    children of [node] before [index] are searched from the last to
    the first; [pos] is the position at [index]. *)
Fixpoint findSelectionBefore (n : Node) (pos : Z) (idx : nat) : option Selection :=
  match n with
  | Text _ => None
  | Elem t _ cs =>
      if inlineContentType t then Some (TextSelection pos pos)
      else
        (fix scan (l : list Node) (i : nat) (cur : Z) (found : option Selection)
           : option Selection :=
           match l with
           | [] => found
           | c :: r =>
               if (i <? idx)%nat
               then
                 let here :=
                   if negb (isAtom c)
                   then findSelectionBefore c (cur + nodeSize c - 1)
                          (length (nodeContent c))
                   else if isSelectable c
                        then Some (NodeSelection cur (nodeSize c))
                        else None in
                 scan r (S i) (cur + nodeSize c)
                   (match here with Some _ => here | None => found end)
               else found
           end) cs 0%nat (pos - fragmentSize (take idx cs)) None
  end.

(** The same for [dir > 0]: the children from [index] on, first to
    last. *)
Fixpoint findSelectionAfter (n : Node) (pos : Z) (idx : nat) : option Selection :=
  match n with
  | Text _ => None
  | Elem t _ cs =>
      if inlineContentType t then Some (TextSelection pos pos)
      else
        (fix scan (l : list Node) (i : nat) (cur : Z) : option Selection :=
           match l with
           | [] => None
           | c :: r =>
               if (i <? idx)%nat then scan r (S i) (cur + nodeSize c)
               else
                 let here :=
                   if negb (isAtom c)
                   then findSelectionAfter c (cur + 1) 0%nat
                   else if isSelectable c
                        then Some (NodeSelection cur (nodeSize c))
                        else None in
                 match here with
                 | Some _ => here
                 | None => scan r (S i) (cur + nodeSize c)
                 end
           end) cs 0%nat (pos - fragmentSize (take idx cs))
  end.

(** [Selection.findFrom($pos, dir)]: in the parent of the position
    first, then in each ancestor, before (resp. after) the node that
    contains the position. *)
Definition findFrom (r : ResolvedPos) (backward : bool) : option Selection :=
  let search (inner : bool) (e : Node * nat * Z) (child : option Node) :=
    let '(n, i, off) := e in
    if inner
    then (if inlineContent n then Some (TextSelection (rpos r) (rpos r))
          else if backward then findSelectionBefore n (rpos r) i
               else findSelectionAfter n (rpos r) i)
    else if backward then findSelectionBefore n off i
         else findSelectionAfter n (off + from_option nodeSize 0 child) (S i) in
  (fix up (rev_path : list (Node * nat * Z)) (inner : bool) (child : option Node)
     : option Selection :=
     match rev_path with
     | [] => None
     | e :: rest =>
         match search inner e child with
         | Some s => Some s
         | None => up rest false (Some e.1.1)
         end
     end) (rev (path r)) true None.

(** [Selection.near($pos, bias)] *)
Definition near (doc : Node) (r : ResolvedPos) (bias : Z) : Selection :=
  match findFrom r (bias <? 0) with
  | Some s => s
  | None =>
      match findFrom r (negb (bias <? 0)) with
      | Some s => s
      | None => AllSelection (contentSize doc)
      end
  end.

(** [selectionToInsertionEnd(tr, startLen, bias)] *)
Definition selectionToInsertionEnd (startLen bias : Z) : M Transaction unit :=
  fun tr =>
    let last := Z.of_nat (length (steps tr)) - 1 in
    if last <? startLen then Ok (tt, tr)
    else
      match List.last (Some <$> steps tr) None with
      | None => Ok (tt, tr)
      | Some step =>
          (* the end of the first range of the step's position map *)
          let e := match step with
                   | ReplaceStep from _ slice => from + sliceSize slice
                   | ReplaceAroundStep pos _ _ => pos + 1
                   end in
          (let* r := lift (resolve (doc tr) e) in
           setSelection (near (doc tr) r bias)) tr
      end.

End Transform.
Export Transform.

(** ** The attachment extension *)

Module Attachment.

(** *** Node types declared by the extension *)

Definition AttachmentImage : NodeType :=
  {| name := "attachment-image";
     content := CEmpty;
     group := ["block"];
     atom := false;
     selectable := false;
     attrSpecs := {[ "src" := Some (VStr "");
                     "height" := Some (VStr "");
                     "width" := Some (VStr "");
                     "attachmentId" := Some VNull ]} |}.

Definition AttachmentGallery : NodeType :=
  {| name := "attachment-gallery";
     content := CStar "block";
     group := ["block"];
     atom := false;
     selectable := false;
     attrSpecs := ∅ |}.

Definition AttachmentFigure : NodeType :=
  {| name := "attachment-figure";
     content := CStar "inline";
     group := ["block"; "attachmentFigure"];
     atom := false;
     selectable := true;
     attrSpecs := {[ "attachmentId" := Some VNull;
                     "caption" := Some (VStr "");
                     "progress" := Some (VNum 100);
                     "sgid" := Some (VStr "");
                     "src" := Some (VStr "");
                     "height" := Some (VStr "");
                     "width" := Some (VStr "");
                     "contentType" := Some (VStr "");
                     "fileName" := Some (VStr "");
                     "fileSize" := Some (VStr "");
                     "content" := Some (VStr "");
                     "url" := Some (VStr "");
                     "previewable" := Some (VBool false) ]} |}.

Definition AttachmentFigcaption : NodeType :=
  {| name := "attachment-figcaption";
     content := CStar "inline";
     group := ["block"; "figcaption"];
     atom := false;
     selectable := false;
     attrSpecs := ∅ |}.

(** *** Style classes *)

Fixpoint dropPrefix (p s : string) : option string :=
  match p, s with
  | EmptyString, _ => Some s
  | String a p', String b s' => if Ascii.eqb a b then dropPrefix p' s' else None
  | String _ _, EmptyString => None
  end.

(** [isPreviewable = /^image(\/(gif|png|jpe?g)|$)/], as a test. *)
Definition isPreviewable (s : string) : bool :=
  match dropPrefix "image" s with
  | None => false
  | Some r =>
      bool_decide (r = "")
      || bool_decide (is_Some (dropPrefix "/gif" r))
      || bool_decide (is_Some (dropPrefix "/png" r))
      || bool_decide (is_Some (dropPrefix "/jpg" r))
      || bool_decide (is_Some (dropPrefix "/jpeg" r))
  end.

(** [canPreview(previewable, contentType)], as the condition it is
    used for.  [contentType?.match] is undefined on a number or a
    boolean, and calling it raises. *)
Definition canPreview (previewable contentType : option value) : result bool :=
  if truthy previewable then Ok true
  else match contentType with
       | None | Some VNull => Ok false
       | Some (VStr s) => Ok (isPreviewable s)
       | Some (VBool _) | Some (VNum _) => Throw TypeError
       end.

(** [fileName.match(/\.(\w+)$/)?.[1]]: the capture of the leftmost
    match, undefined when nothing matches. *)
Fixpoint matchExtension (s : string) : option string :=
  match s with
  | EmptyString => None
  | String c r =>
      if Ascii.eqb c "."%char && negb (bool_decide (r = "")) && all_word r
      then Some r
      else matchExtension r
  end.

(** [toExtension(fileName)].  The optional chain
    [match(...)?.[1].toLowerCase()] is undefined as a whole when
    nothing matches, and is then appended to the prefix as it is. *)
Definition toExtension (fileName : option value) : result string :=
  if negb (truthy fileName) then Ok ""
  else match fileName with
       | Some (VStr s) =>
           Ok (concat_maybe "attachment--" (toLowerCase <$> matchExtension s))
       | _ => Throw TypeError
       end.

(** [toType(content, previewable)] *)
Definition toType (content : option value) (previewable : bool) : string :=
  if truthy content then "attachment--content"
  else if previewable then "attachment--preview"
  else "attachment--file".

(** [class.split(" ")], empty pieces dropped: the class list. *)
Fixpoint splitSpaces (acc : string) (s : string) : list string :=
  match s with
  | EmptyString => if bool_decide (acc = "") then [] else [acc]
  | String c r =>
      if Ascii.eqb c " "%char
      then (if bool_decide (acc = "") then [] else [acc]) ++ splitSpaces "" r
      else splitSpaces (acc +:+ String c EmptyString) r
  end.

Definition classList (cls : string) : list string := splitSpaces "" cls.

(** The class that [renderHTML] and the node view give the figure:
    [options.HTMLAttributes.class + " " + toType(...) + " " + toExtension(fileName)] *)
Definition figureClass (optionsClass : string) (a : object) : result string :=
  let? preview := canPreview (a !! "previewable") (a !! "contentType") in
  let? ext := toExtension (a !! "fileName") in
  Ok (optionsClass +:+ " " +:+ toType (a !! "content") preview +:+ " " +:+ ext).

(** An object literal: a field whose value is undefined is left out,
    as [JSON.stringify] and the serializer both skip it. *)
Definition objectOf (l : list (string * option value)) : object :=
  list_to_map (omap (λ kv, (λ v, (kv.1, v)) <$> kv.2) l).

Section Serializer.

(** [JSON.stringify] and [JSON.parse] on flat objects of primitive
    values.  [JSON.parse] gives [None] for the text of [null]; a
    value that is neither [null] nor an object has none of the
    properties that are read here, and counts as the empty object. *)
Variable JSON_stringify : object -> string.
Variable JSON_parse : string -> result (option object).

(** What was parsed, as the object whose properties are read; reading
    a property of [null] raises. *)
Definition parsedObject (text : string) : result object :=
  let? parsed := JSON_parse text in
  match parsed with
  | Some o => Ok o
  | None => Throw TypeError
  end.

(** The markup that the schema's serializer produces for the inline
    content of a node, and the markup of an element. *)
Variable serializeFragment : list Node -> string.
Variable outerHTML : Dom -> string.

(** The helper that reads an attribute without a [parseHTML] of its
    own from the like-named HTML attribute. *)
Variable fromString : string -> value.

(** [element.innerHTML] *)
Definition innerHTML (d : Dom) : string :=
  foldr (λ c acc, match c with
                  | DContent m => m
                  | DElem _ _ _ => outerHTML c
                  end +:+ acc) "" (childrenOf d).

(** [addOptions]: the default [HTMLAttributes] of the figure. *)
Definition optionsClass : string := "attachment".

Definition optionsHTMLAttributes : object :=
  {[ "class" := VStr optionsClass;
     "data-trix-attributes" :=
       VStr (JSON_stringify {[ "presentation" := VStr "gallery" ]}) ]}.

(** The payload [attachmentAttrs] that [renderHTML] stringifies. *)
Definition attachmentAttrs (a : object) : object :=
  objectOf [ ("caption", a !! "caption");
             ("contentType", a !! "contentType");
             ("content", a !! "content");
             ("filename", a !! "fileName");
             ("filesize", a !! "fileSize");
             ("height", a !! "height");
             ("width", a !! "width");
             ("sgid", a !! "sgid");
             ("url", a !! "url");
             ("src", a !! "src") ].

(** [Attachment.renderHTML({ node })] *)
Definition renderHTML (node : Node) : result Spec :=
  let a := nodeAttrs node in
  let? cls := figureClass optionsClass a in
  let figureAttrs :=
    mergeAttributes optionsHTMLAttributes
      (objectOf
         [ ("class", Some (VStr cls));
           ("data-trix-content-type", a !! "contentType");
           ("data-trix-attachment", Some (VStr (JSON_stringify (attachmentAttrs a))));
           ("data-trix-attributes",
             Some (VStr (JSON_stringify
                           (objectOf [ ("caption", a !! "caption");
                                       ("presentation", Some (VStr "gallery")) ])))) ]) in
  let figcaption :=
    SElem "figcaption"
      (mergeAttributes ∅
         {[ "class" := VStr "attachment__caption attachment__caption--edited" ]})
      [SHole] in
  let image :=
    SElem "img"
      (mergeAttributes ∅
         (objectOf [ ("src", or_else (a !! "url") (a !! "src"));
                     ("contenteditable", Some (VBool false));
                     ("width", a !! "width");
                     ("height", a !! "height") ]))
      [] in
  if negb (truthy (a !! "content"))
  then Ok (SElem "figure" figureAttrs [image; figcaption])
  else Ok (SElem "figure" figureAttrs [figcaption]).

(** [DOMSerializer.fromSchema(schema).serializeNode(node)] for a
    figure: its [renderHTML], the hole filled with the node's
    serialized content. *)
Definition serializeNode (node : Node) : result Dom :=
  let? spec := renderHTML node in
  Ok (renderSpec (serializeFragment (nodeContent node)) spec).

(** [findAttribute(element, attribute)]; [null] is [Some VNull],
    [undefined] is [None]. *)
Definition findAttribute (element : Element) (attribute : string)
  : result (option value) :=
  let attr :=
    closest (hasTag "action-text-attachment") element
      ≫= (λ d, getAttribute d attribute) in
  if truthy (VStr <$> attr) then Ok (VStr <$> attr)
  else
    let attrs :=
      closest (hasTagWithAttr "figure" "data-trix-attachment") element
        ≫= (λ d, getAttribute d "data-trix-attachment") in
    if negb (truthy (VStr <$> attrs)) then Ok (Some VNull)
    else
      let? o := parsedObject (default "" attrs) in
      Ok (o !! attribute).

(** The [parseHTML] functions of [addAttributes]. *)
Definition parse_caption (element : Element) : result (option value) :=
  let inner := (λ d, VStr (innerHTML d)) <$> querySelector "figcaption" (self element) in
  if truthy inner then Ok inner else findAttribute element "caption".

Definition parse_contentType (element : Element) : result (option value) :=
  let? a := findAttribute element "content-type" in
  if truthy a then Ok a
  else
    let text := or_else (VStr <$> getAttribute (self element) "data-trix-attachment")
                        (Some (VStr "")) in
    let? o := parsedObject (match text with Some (VStr t) => t | _ => "" end) in
    Ok (or_else (o !! "contentType") (Some (VStr "application/octet-stream"))).

Definition parse_content (element : Element) : result (option value) :=
  let? a := findAttribute element "content" in
  Ok (or_else
        (or_else a ((λ d, VStr (innerHTML d))
                      <$> closest (hasTag "action-text-attachment") element))
        (Some (VStr ""))).

Definition parse_previewable (element : Element) : result (option value) :=
  let text := getAttribute (self element) "data-trix-attachment" in
  let? o := (if truthy (VStr <$> text) then parsedObject (default "" text) else Ok ∅) in
  Ok (o !! "previewable").

(** An attribute without [parseHTML] is read from the HTML attribute
    of the same name. *)
Definition parse_default (nm : string) (element : Element) : result (option value) :=
  Ok (fromString <$> getAttribute (self element) nm).

(** The attributes of [addAttributes], in the order declared, each
    with its parser. *)
Definition attributeParsers : list (string * (Element -> result (option value))) :=
  [ ("attachmentId", parse_default "attachmentId");
    ("caption", parse_caption);
    ("progress", parse_default "progress");
    ("sgid", λ e, findAttribute e "sgid");
    ("src", λ e, findAttribute e "src");
    ("height", λ e, findAttribute e "height");
    ("width", λ e, findAttribute e "width");
    ("contentType", parse_contentType);
    ("fileName", λ e, findAttribute e "filename");
    ("fileSize", λ e, findAttribute e "filesize");
    ("content", parse_content);
    ("url", λ e, findAttribute e "url");
    ("previewable", parse_previewable) ].

(** The framework's [getAttrs]: run every parser; a result of [null]
    or [undefined] leaves the attribute out. *)
Fixpoint getAttrs (ps : list (string * (Element -> result (option value))))
  (element : Element) (items : object) : result object :=
  match ps with
  | [] => Ok items
  | (nm, parse) :: rest =>
      let? v := parse element in
      match v with
      | None | Some VNull => getAttrs rest element items
      | Some x => getAttrs rest element (<[nm := x]> items)
      end
  end.

(** Parsing a [figure] element: the parsed values completed with the
    declared defaults. *)
Definition parseFigure (element : Element) : result object :=
  let? values := getAttrs attributeParsers element ∅ in
  computeAttrs (attrSpecs AttachmentFigure) values.

(** The attributes of [AttachmentImage.addAttributes], in the order
    declared, each with its parser: [src] is read from the [url] of
    the attachment. *)
Definition imageParsers : list (string * (Element -> result (option value))) :=
  [ ("src", λ e, findAttribute e "url");
    ("height", λ e, findAttribute e "height");
    ("width", λ e, findAttribute e "width");
    ("attachmentId", parse_default "attachmentId") ].

(** Parsing an [img] element into an image node. *)
Definition parseImage (element : Element) : result object :=
  let? values := getAttrs imageParsers element ∅ in
  computeAttrs (attrSpecs AttachmentImage) values.

(** The rules of [parseHTML] for a figure, as tests on an element:
    [figure[data-trix-attachment]] and [figure.attachment]. *)
Definition figureRules : list (Dom -> bool) :=
  [ hasTagWithAttr "figure" "data-trix-attachment";
    λ d, hasTag "figure" d
         && bool_decide ("attachment" ∈ classList (default "" (getAttribute d "class"))) ].

(** *** The reconciliation plugin *)

(** [handleGallery(node, tr, newState, pos)] *)
Definition handleGallery (node : Node) (newState : EditorState) (pos : Z)
  : M Transaction bool :=
  if negb (bool_decide (typeName node = "attachment-gallery")) then ret false
  else if nodeSize node =? 2
  then
    let* paragraph := lift (schema_node (schema newState) "paragraph" ∅ []) in
    replaceWith pos (pos + nodeSize node) [paragraph] ;;
    ret true
  else ret false.

(** [handleCaptions(node, tr, newState, pos)] *)
Definition handleCaptions (node : Node) (newState : EditorState) (pos : Z)
  : M Transaction bool :=
  if negb (bool_decide (typeName node = "attachment-figure")) then ret false
  else
    let* rendered := lift (serializeNode node) in
    let scratch := DElem "div" ∅ [rendered] in
    match querySelector "figcaption" scratch with
    | None => ret false
    | Some figcaption =>
        let caption := VStr (innerHTML figcaption) in
        if strict_ne (nodeAttrs node !! "caption") (Some caption)
        then
          setNodeMarkup pos (<["caption" := caption]> (nodeAttrs node)) ;;
          ret true
        else ret false
    end.

(** The callback that [appendTransaction] passes to [descendants];
    the state is the transaction and the flag [modified]. *)
Definition onTransaction {A} (m : M Transaction A) : M (Transaction * bool) A :=
  fun s => match m s.1 with
           | Ok (a, tr) => Ok (a, (tr, s.2))
           | Throw e => Throw e
           end.

Definition visit (newState : EditorState) (node : Node) (pos : Z)
  : M (Transaction * bool) bool :=
  let* m1 := onTransaction (handleGallery node newState pos) in
  let* m2 := onTransaction (handleCaptions node newState pos) in
  let shouldModify := existsb (λ b, Bool.eqb b true) [m1; m2] in
  (if shouldModify then (fun s => Ok (tt, (s.1, true))) else ret tt) ;;
  ret true.

(** [appendTransaction(_transactions, _oldState, newState)]: the
    transaction to append, or [undefined]. *)
Definition appendTransaction (newState : EditorState) : result (option Transaction) :=
  let tr := state_tr newState in
  match descendants (state_doc newState) (visit newState) (tr, false) with
  | Ok (_, (tr', modified)) => if modified then Ok (Some tr') else Ok None
  | Throw e => Throw e
  end.

(** *** The node view: the payload of the figure it builds

    The object that [addNodeView] stringifies into the
    [data-trix-attachment] attribute of its figure. *)
Definition nodeViewAttachmentAttrs (a : object) : object :=
  objectOf [ ("contentType", a !! "contentType");
             ("content", a !! "content");
             ("filename", a !! "fileName");
             ("filesize", a !! "fileSize");
             ("height", a !! "height");
             ("width", a !! "width");
             ("sgid", a !! "sgid");
             ("url", a !! "url");
             ("caption", a !! "caption") ].

(** *** The node view: write-back of the detected dimensions *)




(** *** The insertion command *)

(** [schema.nodes[name]], on which [create] is called at once. *)
Definition nodeTypeOf (s : Schema) (nm : string) : result NodeType :=
  match nodes s !! nm with
  | Some t => Ok t
  | None => Throw TypeError
  end.

(** Modelled from the spec: the descriptor class [AttachmentManager]
    of [src/models/attachment-manager], which is not among the
    sources.  A descriptor is an object whose [caption], if it has
    one, is a markup string. *)
Record AttachmentManager : Type := mkAttachmentManager {
  properties : object;
  caption_typed : stringish (properties !! "caption") = true
}.

(** One element of [attachments.map(...)]. *)
Definition attachmentNode (s : Schema) (attachment : AttachmentManager) : result Node :=
  let? figure := nodeTypeOf s "attachment-figure" in
  let? content :=
    (if truthy (properties attachment !! "caption")
     then match properties attachment !! "caption" with
          | Some (VStr c) => let? t := schema_text c in Ok [t]
          | _ => Ok []   (* no other caption of a descriptor is truthy *)
          end
     else Ok []) in
  create figure (properties attachment) content.

Fixpoint mapResult {A B} (f : A -> result B) (l : list A) : result (list B) :=
  match l with
  | [] => Ok []
  | x :: r => let? y := f x in let? ys := mapResult f r in Ok (y :: ys)
  end.

(** The first lines of the command: the resolved anchor, and whether
    it, or the position two before it, lies in a gallery
    ([isInGalleryCurrent], [isInGalleryAfter]). *)
Definition galleryContext (state : EditorState) : result (ResolvedPos * bool * bool) :=
  let? currentSelection := resolve (state_doc state) (anchor (selection state)) in
  let before :=
    if anchor (selection state) - 2 <? 0 then 0 else anchor (selection state) - 2 in
  let? nodeBefore := resolve (state_doc state) before in
  let? isInGalleryCurrent :=
    match node currentSelection 1 with
    | Some n => Ok (bool_decide (typeName n = "attachment-gallery"))
    | None => Throw TypeError
    end in
  let isInGalleryAfter :=
    match node nodeBefore 1 with
    | Some n => bool_decide (typeName n = "attachment-gallery")
    | None => false
    end in
  Ok (currentSelection, isInGalleryCurrent, isInGalleryAfter).

(** The body of [setAttachment(options)({ state, tr, dispatch })]
    up to the dispatch; [tr] is the object that the caller handed
    over. *)
Definition setAttachmentBody (attachments : list AttachmentManager) (state : EditorState)
  : K Transaction unit :=
  let+ context := pure (galleryContext state) in
  let currentSelection := context.1.1 in
  let isInGalleryCurrent := context.1.2 in
  let isInGalleryAfter := context.2 in
  let isInGallery := isInGalleryCurrent || isInGalleryAfter in
  let+ attachmentNodes := pure (mapResult (attachmentNode (schema state)) attachments) in
  if isInGallery
  then
    let+ e := pure (from_option Ok (Throw TypeError) (end_ currentSelection)) in
    let backtrack := if isInGalleryCurrent then 0 else 2 in
    call (insert (e - backtrack) attachmentNodes)
  else
    let+ galleryType := pure (nodeTypeOf (schema state) "attachment-gallery") in
    let+ gallery := pure (create galleryType ∅ attachmentNodes) in
    let currSelection := selection state in
    let+ paragraphType := pure (nodeTypeOf (schema state) "paragraph") in
    let+ p1 := pure (create paragraphType ∅ []) in
    let+ p2 := pure (create paragraphType ∅ []) in
    let+ _ := call (replaceWith (from currSelection - 1) (to currSelection)
                      [p1; gallery; p2]) in
    fun tr => call (selectionToInsertionEnd (Z.of_nat (length (steps tr)) - 1) (-1)) tr.

(** What a run of the command leaves behind: the value returned or
    the error raised, the transaction as the run left it, and the
    transaction handed to [dispatch] if any. *)
Record Outcome : Type := mkOutcome {
  returned : result bool;
  transaction : Transaction;
  dispatched : option Transaction
}.

(** [setAttachment(options)({ state, tr, dispatch })]; [dispatch]
    tells whether a dispatch function was passed. *)
Definition setAttachment (attachments : list AttachmentManager) (state : EditorState)
  (tr : Transaction) (dispatch : bool) : Outcome :=
  match setAttachmentBody attachments state tr with
  | (Ok _, tr') =>
      {| returned := Ok true;
         transaction := tr';
         dispatched := if dispatch then Some tr' else None |}
  | (Throw e, tr') =>
      {| returned := Throw e; transaction := tr'; dispatched := None |}
  end.

End Serializer.

(** *** The caret workaround

    [FirefoxCaretFixPlugin] keeps a flag [focusing] in its closure.
    Its handler of the focus event clears the flag when it is set;
    otherwise it sets it and schedules a timeout that blurs and
    focuses the editor again.  The state is the flag and the number
    of timeouts scheduled and not yet run. *)
Record CaretFix : Type := mkCaretFix {
  focusing : bool;
  pending : nat
}.

(** The handler of [focus]: the new state and the value returned. *)
Definition onFocus (s : CaretFix) : CaretFix * bool :=
  if focusing s
  then ({| focusing := false; pending := pending s |}, false)
  else ({| focusing := true; pending := S (pending s) |}, false).

(** A scheduled timeout runs: [view.dom.blur(); view.dom.focus()],
    and the focus event that this raises reaches the handler. *)
Definition runTimeout (s : CaretFix) : option CaretFix :=
  match pending s with
  | O => None
  | S n => Some (onFocus {| focusing := focusing s; pending := n |}).1
  end.

(** The timeouts run one after the other until none is pending. *)
Fixpoint drain (fuel : nat) (s : CaretFix) : option CaretFix :=
  match pending s with
  | O => Some s
  | S _ =>
      match fuel with
      | O => None
      | S fuel' => runTimeout s ≫= drain fuel'
      end
  end.

End Attachment.

(** ** Well-formed documents and the reconciled form of a document *)

Module Spec.
Import Attachment.

(** *** Conformance to a schema *)

(** What [canPreview] and [toExtension] can take: a string or nothing. *)
Definition typedFigure (a : object) : bool :=
  stringish (a !! "fileName") && stringish (a !! "contentType").

Definition isGallery (n : Node) : bool :=
  bool_decide (typeName n = "attachment-gallery").

Definition isFigure (n : Node) : bool :=
  bool_decide (typeName n = "attachment-figure").

(** No gallery and no figure in [n]. *)
Fixpoint noAttachments (n : Node) : bool :=
  match n with
  | Text _ => true
  | Elem _ _ cs => negb (isGallery n) && negb (isFigure n) && forallb noAttachments cs
  end.

(** A document as the editor holds it: text nodes are not empty, every
    node has its type from the schema, content that its type admits,
    and a value for each declared attribute and no other; a figure has
    inline content, without galleries or figures inside, and a file
    name and content type that are strings. *)
Fixpoint wfNode (s : Schema) (n : Node) : bool :=
  match n with
  | Text t => negb (bool_decide (t = ""))
  | Elem t a cs =>
      bool_decide (nodes s !! name t = Some t)
      && validContent t cs
      && bool_decide (dom a = dom (attrSpecs t))
      && (if isFigure n then typedFigure a && forallb noAttachments cs else true)
      && forallb (wfNode s) cs
  end.

(** The root of a document: a well-formed node with content, neither
    a gallery nor a figure itself. *)
Definition wfDoc (s : Schema) (d : Node) : bool :=
  wfNode s d && negb (isLeaf d) && negb (isGallery d) && negb (isFigure d).

(** A schema with the extension installed: every type is registered
    under its name, galleries are admitted as blocks only, and the
    paragraph is a block with inline content whose attributes all
    have defaults. *)
Definition wfSchema (s : Schema) : bool :=
  bool_decide (map_Forall (λ nm t, name t = nm
                                   ∧ content t ≠ CStar "attachment-gallery"
                                   ∧ content t ≠ CPlus "attachment-gallery") (nodes s))
  && bool_decide (nodes s !! "attachment-figure" = Some AttachmentFigure)
  && bool_decide (nodes s !! "attachment-gallery" = Some AttachmentGallery)
  && match nodes s !! "paragraph" with
     | Some pt =>
         bool_decide (content pt = CStar "inline")
         && bool_decide ("block" ∈ group pt)
         && bool_decide (map_Forall (λ _ d, is_Some d) (attrSpecs pt))
     | None => false
     end.

(** *** Contexts: a node inside a document *)

Record Frame : Type := mkFrame {
  ftype : NodeType;
  fattrs : object;
  fpre : list Node;
  fpost : list Node
}.

(** The document around a node: the frames from the root down. *)
Fixpoint plug (fs : list Frame) (x : Node) : Node :=
  match fs with
  | [] => x
  | f :: r => Elem (ftype f) (fattrs f) (fpre f ++ plug r x :: fpost f)
  end.

(** The position at which the content of the plugged node starts. *)
Fixpoint plugStart (fs : list Frame) : Z :=
  match fs with
  | [] => 0
  | f :: r => fragmentSize (fpre f) + 1 + plugStart r
  end.

Definition allPositive (l : list Node) : Prop := Forall (λ c, 0 < nodeSize c) l.

Definition nonLeaf (x : Node) : Prop :=
  match x with
  | Elem t _ _ => isLeafType t = false
  | Text _ => False
  end.

Definition framesOk (fs : list Frame) : Prop :=
  Forall (λ f, isLeafType (ftype f) = false ∧ allPositive (fpre f)) fs.

(** *** The reconciled document *)

Section Reconciled.

Variable serializeFragment : list Node -> string.

(** the empty paragraph of the schema *)
Variable paragraph : Node.

Definition emptyGallery (n : Node) : bool :=
  isGallery n && (nodeSize n =? 2).

Definition captionOf (n : Node) : value :=
  VStr (serializeFragment (nodeContent n)).

Definition staleCaption (n : Node) : bool :=
  isFigure n && strict_ne (nodeAttrs n !! "caption") (Some (captionOf n)).

(** What the pass does to a node itself. *)
Definition localFix (n : Node) : Node :=
  if emptyGallery n then paragraph
  else if staleCaption n
       then withAttrs (<["caption" := captionOf n]> (nodeAttrs n)) n
       else n.

(** Every empty gallery replaced by the paragraph, every figure with
    its caption attribute set to the markup of its content. *)
Fixpoint reconcile (n : Node) : Node :=
  match n with
  | Text _ => n
  | Elem t a cs =>
      if emptyGallery n then paragraph
      else Elem t (if staleCaption n then <["caption" := captionOf n]> a else a)
             (map reconcile cs)
  end.

(** Some node of [n] is an empty gallery or a figure with a stale
    caption. *)
Fixpoint dirty (n : Node) : bool :=
  emptyGallery n || staleCaption n
  || match n with
     | Text _ => false
     | Elem _ _ cs => existsb dirty cs
     end.

(** The steps of the pass for a node at [pos], and for nodes [cs]
    that start at [start]. *)
Definition stepsIn (rec : Node -> Z -> list Step) : list Node -> Z -> list Step :=
  fix scan (l : list Node) (cur : Z) : list Step :=
    match l with
    | [] => []
    | c :: r => rec c cur ++ scan r (cur + nodeSize c)
    end.

Definition ownSteps (n : Node) (pos : Z) : list Step :=
  (if emptyGallery n then [ReplaceStep pos (pos + 2) (mkSlice [paragraph] 0 0)] else [])
  ++ (if staleCaption n
      then match n with
           | Elem t a _ => [ReplaceAroundStep pos t (<["caption" := captionOf n]> a)]
           | Text _ => []
           end
      else []).

Fixpoint stepsOfNode (n : Node) (pos : Z) : list Step :=
  ownSteps n pos
  ++ match n with
     | Text _ => []
     | Elem _ _ cs => stepsIn stepsOfNode cs (pos + 1)
     end.

Definition stepsOf (cs : list Node) (start : Z) : list Step :=
  stepsIn stepsOfNode cs start.

Fixpoint noEmptyGallery (n : Node) : bool :=
  negb (isGallery n && bool_decide (nodeContent n = []))
  && match n with
     | Text _ => true
     | Elem _ _ cs => forallb noEmptyGallery cs
     end.

End Reconciled.

(** [schema.node("paragraph", null, [])] *)
Definition paragraphOf (s : Schema) : Node :=
  match schema_node s "paragraph" ∅ [] with
  | Ok p => p
  | Throw _ => Text ""
  end.

(** *** Reading object literals and parsed attributes *)

(** The value that an object literal gives a key. *)
Fixpoint lookupEntries (k : string) (l : list (string * option value)) : option value :=
  match l with
  | [] => None
  | (k0, o) :: r =>
      if String.eqb k k0
      then match o with Some v => Some v | None => lookupEntries k r end
      else lookupEntries k r
  end.

(** The values that [getAttrs] collects, given what each parser
    returns. *)
Definition collect (items : object) (rs : list (string * option value)) : object :=
  fold_left (λ m r, match r.2 with
                    | None | Some VNull => m
                    | Some x => <[r.1 := x]> m
                    end) rs items.

(** The entry of key [k], if any. *)
Fixpoint entry (k : string) (rs : list (string * option value)) : option (option value) :=
  match rs with
  | [] => None
  | (k0, v) :: r => if String.eqb k0 k then Some v else entry k r
  end.

(** What the parsers of [addAttributes] return on the rendering of a
    figure with attributes [a] and content [cs]. *)
Definition parsedFrom (serializeFragment : list Node -> string) (a : object)
  (cs : list Node) : list (string * option value) :=
  [ ("attachmentId", None);
    ("caption", or_else (Some (VStr (serializeFragment cs))) (a !! "caption"));
    ("progress", None);
    ("sgid", a !! "sgid");
    ("src", a !! "src");
    ("height", a !! "height");
    ("width", a !! "width");
    ("contentType", or_else (a !! "contentType") (Some (VStr "application/octet-stream")));
    ("fileName", a !! "fileName");
    ("fileSize", a !! "fileSize");
    ("content", or_else (or_else (a !! "content") None) (Some (VStr "")));
    ("url", a !! "url");
    ("previewable", None) ].

(** A value that is neither [null] nor [undefined]. *)
Definition present (v : option value) : option value :=
  match v with
  | None | Some VNull => None
  | Some x => Some x
  end.

(** The fields of a descriptor that the serialized form is meant to
    carry back, but for the content type. *)
Definition carriedFields : list string :=
  ["caption"; "fileName"; "fileSize"; "width"; "height"; "url"; "src"; "sgid"].

Definition stepPos (st : Step) : Z :=
  match st with
  | ReplaceStep f _ _ => f
  | ReplaceAroundStep p _ _ => p
  end.

(** What the parsers of [addAttributes] return on a [figure] element
    [self] whose payload attribute holds the object [o], with no
    [action-text-attachment] element around it. *)
Definition parsedLegacy (outerHTML : Dom -> string) (fromString : string -> value)
  (o : object) (self : Dom) : list (string * option value) :=
  [ ("attachmentId", fromString <$> getAttribute self "attachmentId");
    ("caption",
      or_else ((λ d, VStr (innerHTML outerHTML d)) <$> querySelector "figcaption" self)
        (o !! "caption"));
    ("progress", fromString <$> getAttribute self "progress");
    ("sgid", o !! "sgid");
    ("src", o !! "src");
    ("height", o !! "height");
    ("width", o !! "width");
    ("contentType",
      or_else (o !! "content-type")
        (or_else (o !! "contentType") (Some (VStr "application/octet-stream"))));
    ("fileName", o !! "filename");
    ("fileSize", o !! "filesize");
    ("content", or_else (or_else (o !! "content") None) (Some (VStr "")));
    ("url", o !! "url");
    ("previewable", o !! "previewable") ].

(** A [figure] element with a payload, outside any
    [action-text-attachment] element. *)
Definition isLegacy (e : Element) (p : string) : Prop :=
  tagOf (self e) = Some "figure"
  ∧ getAttribute (self e) "data-trix-attachment" = Some p
  ∧ p ≠ ""
  ∧ Forall (λ d, hasTag "action-text-attachment" d = false) (ancestors e).


(** What [findSelectionIn], searching backwards, finds in the child
    [c] that starts at [q]. *)
Definition foundIn (c : Node) (q : Z) : option Selection :=
  if negb (isAtom c)
  then findSelectionBefore c (q + nodeSize c - 1) (length (nodeContent c))
  else if isSelectable c then Some (NodeSelection q (nodeSize c)) else None.

End Spec.

(** ** A schema, documents and a codec to run the code on *)

Module Samples.
Import Attachment.

Definition docType : NodeType :=
  {| name := "doc";
     content := CPlus "block";
     group := [];
     atom := false;
     selectable := false;
     attrSpecs := ∅ |}.

Definition paragraphType : NodeType :=
  {| name := "paragraph";
     content := CStar "inline";
     group := ["block"];
     atom := false;
     selectable := true;
     attrSpecs := ∅ |}.

(** The schema of an editor with the extension installed. *)
Definition editorSchema : Schema :=
  {| nodes := {[ "doc" := docType;
                 "paragraph" := paragraphType;
                 "attachment-gallery" := AttachmentGallery;
                 "attachment-figure" := AttachmentFigure;
                 "attachment-image" := AttachmentImage;
                 "attachment-figcaption" := AttachmentFigcaption ]} |}.


Definition textOf (s : string) : list Node :=
  if bool_decide (s = "") then [] else [Text s].

Definition paragraph (s : string) : Node := Elem paragraphType ∅ (textOf s).

(** The attributes of a figure: the declared defaults, with the given
    caption and file name. *)
Definition figureAttrs (caption fileName : string) : object :=
  <["caption" := VStr caption]>
    (<["fileName" := VStr fileName]>
       (omap id (attrSpecs AttachmentFigure))).

(** A figure with the given caption attribute, file name and text. *)
Definition figure (caption fileName text : string) : Node :=
  Elem AttachmentFigure (figureAttrs caption fileName) (textOf text).

Definition gallery (cs : list Node) : Node := Elem AttachmentGallery ∅ cs.

Definition document (cs : list Node) : Node := Elem docType ∅ cs.

Definition stateOf (d : Node) (sel : Selection) : EditorState :=
  {| state_doc := d; selection := sel; schema := editorSchema |}.

(** The serializer of a schema whose inline content is plain text. *)
Definition textMarkup (cs : list Node) : string :=
  foldr (λ c acc, match c with Text s => s | Elem _ _ _ => "" end +:+ acc) "" cs.

Definition noMarkup (d : Dom) : string := "".

(** A codec for flat objects.  Nothing below depends on the text it
    produces, only on parsing being the inverse of writing; this one
    writes the code of the object in binary after an opening brace,
    and reads [null] as such. *)
#[export] Instance value_countable : Countable value.
Proof.
  refine (inj_countable'
            (λ v, match v with
                  | VNull => inl ()
                  | VBool b => inr (inl b)
                  | VNum n => inr (inr (inl n))
                  | VStr s => inr (inr (inr s))
                  end)
            (λ x, match x with
                  | inl _ => VNull
                  | inr (inl b) => VBool b
                  | inr (inr (inl n)) => VNum n
                  | inr (inr (inr s)) => VStr s
                  end) _).
  now intros [].
Defined.

Fixpoint bits (p : positive) : string :=
  match p with
  | xH => ""
  | xO q => String "0" (bits q)
  | xI q => String "1" (bits q)
  end.

Fixpoint unbits (s : string) : option positive :=
  match s with
  | EmptyString => Some xH
  | String c r =>
      q ← unbits r;
      if Ascii.eqb c "0" then Some (xO q)
      else if Ascii.eqb c "1" then Some (xI q) else None
  end.

Definition stringify (o : object) : string := String "{" (bits (encode o)).

Definition parse (s : string) : result (option object) :=
  if bool_decide (s = "null") then Ok None
  else
    match s with
    | String "{" r =>
        match unbits r ≫= decode with
        | Some o => Ok (Some o)
        | None => Throw SyntaxError
        end
    | _ => Throw SyntaxError
    end.

(** Sample documents *)

(** an empty gallery, a paragraph, and a gallery whose figure has a
    caption attribute that lags behind its text *)
Definition untidy : Node :=
  document [gallery []; paragraph "x"; gallery [figure "" "a.png" "cap"]].

(** a gallery of two figures, and a gallery followed by a paragraph *)
Definition twoFigures : Node :=
  document [gallery [figure "a" "a.png" "a"; figure "b" "b.png" "b"]].

Definition galleryThen (s : string) : Node :=
  document [gallery [figure "a" "a.png" "a"]; paragraph s].

(** a descriptor as the command receives it *)
Definition descriptor (caption fileName : string) : AttachmentManager :=
  {| properties := {[ "caption" := VStr caption; "fileName" := VStr fileName ]};
     caption_typed := eq_refl |}.


(** What the pass returns on a document, with the codec and the
    serializer of the samples. *)
Definition reconciled (d : Node) : option Transaction :=
  match appendTransaction stringify textMarkup noMarkup (stateOf d (TextSelection 0 0)) with
  | Ok r => r
  | Throw _ => None
  end.

(** The element that the serializer of the samples makes of a figure. *)
Definition rendering (n : Node) : Dom :=
  match serializeNode stringify textMarkup n with
  | Ok d => d
  | Throw _ => DContent ""
  end.

(** The nodes of a document by name, a figure with its file name, to
    read the outcome of a run. *)
Fixpoint outline (n : Node) : string :=
  match n with
  | Text s => s
  | Elem t a cs =>
      name t
      +:+ match a !! "fileName" with
          | Some (VStr f) => "[" +:+ f +:+ "]"
          | _ => ""
          end
      +:+ "("
      +:+ (fix join (l : list Node) : string :=
             match l with
             | [] => ""
             | c :: r => outline c +:+ (if r is [] then "" else " ") +:+ join r
             end) cs
      +:+ ")"
  end.

End Samples.

(** * Properties *)

Import Attachment Spec.

(** ** Induction on documents and sizes *)

Lemma Node_ind2 (P : Node -> Prop) :
  (∀ s, P (Text s)) ->
  (∀ t a cs, Forall P cs -> P (Elem t a cs)) ->
  ∀ n, P n.
Proof.
  intros HT HE.
  fix IH 1. intros [s | t a cs].
  - apply HT.
  - apply HE. induction cs as [| c r IHr]; constructor; [apply IH | exact IHr].
Qed.

Lemma nodeSize_Elem t a cs :
  nodeSize (Elem t a cs) = if isLeafType t then 1 else 2 + fragmentSize cs.
Proof.
  cbn [nodeSize]. destruct (isLeafType t); reflexivity.
Qed.

Lemma fragmentSize_app l1 l2 :
  fragmentSize (l1 ++ l2) = fragmentSize l1 + fragmentSize l2.
Proof. induction l1 as [| c r IH]; simpl; lia. Qed.

Lemma nodeSize_nonneg n : 0 <= nodeSize n.
Proof.
  induction n as [s | t a cs IH] using Node_ind2.
  - simpl. lia.
  - rewrite nodeSize_Elem. destruct (isLeafType t); [lia |].
    assert (0 <= fragmentSize cs); [| lia].
    induction IH as [| c r Hc _ IHr]; simpl; lia.
Qed.

Lemma fragmentSize_nonneg l : 0 <= fragmentSize l.
Proof.
  induction l as [| c r IH]; simpl; [lia |].
  pose proof (nodeSize_nonneg c). lia.
Qed.

Lemma contentSize_Elem t a cs : contentSize (Elem t a cs) = fragmentSize cs.
Proof. reflexivity. Qed.

(** The parts of [wfNode]. *)
Lemma wfNode_Elem s t a cs :
  wfNode s (Elem t a cs) = true ->
  nodes s !! name t = Some t
  ∧ validContent t cs = true
  ∧ dom a = dom (attrSpecs t)
  ∧ (isFigure (Elem t a cs) = true ->
     typedFigure a = true ∧ forallb noAttachments cs = true)
  ∧ Forall (λ c, wfNode s c = true) cs.
Proof.
  cbn [wfNode]. intros H.
  apply andb_prop in H as [H H5].
  apply andb_prop in H as [H H4].
  apply andb_prop in H as [H H3].
  apply andb_prop in H as [H1 H2].
  split; [now apply bool_decide_eq_true_1 in H1 |].
  split; [assumption |].
  split; [now apply bool_decide_eq_true_1 in H3 |].
  split.
  - intros Hf. rewrite Hf in H4. now apply andb_prop in H4.
  - apply Forall_forall. intros c Hc.
    rewrite forallb_forall in H5. apply H5. now apply list_elem_of_In.
Qed.

(** ** Walking past a prefix of the children *)


Ltac zb :=
  repeat match goal with
         | |- context [?a =? ?b] => destruct (Z.eqb_spec a b); try lia
         | |- context [?a <? ?b] => destruct (Z.ltb_spec a b); try lia
         end.

Lemma allPositive_cons c l : allPositive (c :: l) <-> 0 < nodeSize c ∧ allPositive l.
Proof. unfold allPositive. rewrite Forall_cons. reflexivity. Qed.

Lemma allPositive_app l1 l2 : allPositive (l1 ++ l2) <-> allPositive l1 ∧ allPositive l2.
Proof. unfold allPositive. rewrite Forall_app. reflexivity. Qed.

Lemma nodeAtIn_skip rec pos l1 l2 cur :
  allPositive l1 -> cur + fragmentSize l1 <= pos ->
  nodeAtIn rec pos (l1 ++ l2) cur = nodeAtIn rec pos l2 (cur + fragmentSize l1).
Proof.
  revert cur. induction l1 as [| c r IH]; intros cur Hp Hle.
  - simpl. f_equal. lia.
  - apply allPositive_cons in Hp as [Hc Hr].
    pose proof (fragmentSize_nonneg r).
    cbn [app nodeAtIn fragmentSize] in *. zb.
    rewrite IH by (assumption || lia). f_equal. lia.
Qed.

Lemma setAttrsIn_skip rec pos a' l1 l2 cur :
  allPositive l1 -> cur + fragmentSize l1 <= pos ->
  setAttrsIn rec pos a' (l1 ++ l2) cur
  = l1 ++ setAttrsIn rec pos a' l2 (cur + fragmentSize l1).
Proof.
  revert cur. induction l1 as [| c r IH]; intros cur Hp Hle.
  - simpl. do 2 f_equal. lia.
  - apply allPositive_cons in Hp as [Hc Hr].
    pose proof (fragmentSize_nonneg r).
    cbn [app setAttrsIn fragmentSize] in *. zb.
    rewrite IH by (assumption || lia). do 3 f_equal. lia.
Qed.

Lemma childAt_skip {R} p (out : R) ins l1 l2 cur :
  allPositive l1 -> cur + fragmentSize l1 <= p ->
  childAt p out ins (l1 ++ l2) cur = childAt p out ins l2 (cur + fragmentSize l1).
Proof.
  revert cur. induction l1 as [| c r IH]; intros cur Hp Hle.
  - simpl. f_equal. lia.
  - apply allPositive_cons in Hp as [Hc Hr].
    pose proof (fragmentSize_nonneg r).
    cbn [app childAt fragmentSize] in *. zb.
    rewrite IH by (assumption || lia). f_equal. lia.
Qed.

Lemma childAt_boundary {R} p (out : R) ins l1 l2 :
  allPositive l1 -> p = fragmentSize l1 ->
  childAt p out ins (l1 ++ l2) 0 = out.
Proof.
  intros Hp ->. rewrite childAt_skip by (assumption || lia).
  destruct l2 as [| c r]; [reflexivity |]. cbn [childAt]. zb. reflexivity.
Qed.

Lemma replaceChild_skip rec base from to l1 l2 cur :
  allPositive l1 -> cur + fragmentSize l1 <= from ->
  replaceChild rec base from to (l1 ++ l2) cur
  = let? rest := replaceChild rec base from to l2 (cur + fragmentSize l1) in
    Ok ((λ x, (l1 ++ x.1, x.2)) <$> rest).
Proof.
  revert cur. induction l1 as [| c r IH]; intros cur Hp Hle.
  - simpl. replace (cur + 0) with cur by lia.
    destruct (replaceChild rec base from to l2 cur) as [[[? ?] |] |]; reflexivity.
  - apply allPositive_cons in Hp as [Hc Hr].
    pose proof (fragmentSize_nonneg r).
    cbn [app replaceChild fragmentSize] in *. zb.
    rewrite IH by (assumption || lia).
    replace (cur + nodeSize c + fragmentSize r) with (cur + (nodeSize c + fragmentSize r)) by lia.
    destruct (replaceChild rec base from to l2 _) as [[[? ?] |] |]; reflexivity.
Qed.

Lemma cutIn_all rec from to l l2 pos :
  allPositive l -> from <= pos -> to = pos + fragmentSize l ->
  cutIn rec from to (l ++ l2) pos = l.
Proof.
  revert pos. induction l as [| c r IH]; intros pos Hp Hf Ht.
  - simpl in *. destruct l2 as [| c r]; [reflexivity |]. cbn [cutIn]. zb. reflexivity.
  - apply allPositive_cons in Hp as [Hc Hr].
    cbn [app cutIn fragmentSize] in *.
    pose proof (fragmentSize_nonneg r). zb. simpl. f_equal.
    apply IH; [assumption | lia | lia].
Qed.

Lemma cutIn_drop rec from to l1 l2 pos :
  allPositive l1 -> from = pos + fragmentSize l1 ->
  cutIn rec from to (l1 ++ l2) pos = cutIn rec from to l2 from.
Proof.
  revert pos. induction l1 as [| c r IH]; intros pos Hp Hf.
  - simpl in *. f_equal. lia.
  - apply allPositive_cons in Hp as [Hc Hr].
    cbn [app cutIn fragmentSize] in *.
    pose proof (fragmentSize_nonneg r).
    destruct (Z.ltb_spec pos to).
    + zb. simpl. apply IH; [assumption | lia].
    + clear IH. destruct l2 as [| c2 r2]; [destruct r; reflexivity |].
      cbn [cutIn]. zb. reflexivity.
Qed.

Lemma cut_prefix l1 l2 :
  allPositive l1 -> cut (l1 ++ l2) 0 (fragmentSize l1) = l1.
Proof.
  intros Hp. unfold cut. destruct (Z.ltb_spec 0 (fragmentSize l1)).
  - apply cutIn_all; [assumption | lia | lia].
  - destruct l1 as [| c r]; [reflexivity |].
    apply allPositive_cons in Hp as [Hc Hr]. pose proof (fragmentSize_nonneg r).
    cbn [fragmentSize] in *. lia.
Qed.

Lemma cut_suffix l1 l2 :
  allPositive l1 -> allPositive l2 ->
  cut (l1 ++ l2) (fragmentSize l1) (fragmentSize (l1 ++ l2)) = l2.
Proof.
  intros Hp1 Hp2. unfold cut. rewrite fragmentSize_app.
  destruct (Z.ltb_spec (fragmentSize l1) (fragmentSize l1 + fragmentSize l2)).
  - rewrite cutIn_drop with (pos := 0) by (assumption || lia).
    pose proof (cutIn_all cutNode (fragmentSize l1) (fragmentSize l1 + fragmentSize l2)
                  l2 [] (fragmentSize l1) Hp2) as Hc.
    rewrite app_nil_r in Hc. apply Hc; lia.
  - destruct l2 as [| c r]; [reflexivity |].
    apply allPositive_cons in Hp2 as [Hc Hr]. pose proof (fragmentSize_nonneg r).
    cbn [fragmentSize] in *. lia.
Qed.

(** ** A node inside a document *)

Lemma nodeSize_nonLeaf x : nonLeaf x -> nodeSize x = 2 + contentSize x.
Proof.
  destruct x as [s | t a cs]; [intros [] |]. simpl nonLeaf. intros H.
  rewrite nodeSize_Elem, H. reflexivity.
Qed.

Lemma nonLeaf_isText x : nonLeaf x -> isText x = false.
Proof. destruct x; [intros [] | reflexivity]. Qed.

Lemma plug_nonLeaf fs x : framesOk fs -> nonLeaf x -> nonLeaf (plug fs x).
Proof.
  intros Hfs Hx. destruct fs as [| f r]; [exact Hx |].
  apply Forall_cons in Hfs as [[Hf _] _]. exact Hf.
Qed.

Lemma plug_app fs f x :
  plug (fs ++ [f]) x = plug fs (Elem (ftype f) (fattrs f) (fpre f ++ x :: fpost f)).
Proof. induction fs as [| g r IH]; simpl; [reflexivity | now rewrite IH]. Qed.

Lemma plugStart_app fs f :
  plugStart (fs ++ [f]) = plugStart fs + fragmentSize (fpre f) + 1.
Proof. induction fs as [| g r IH]; simpl; lia. Qed.

Lemma framesOk_app fs f :
  framesOk fs -> isLeafType (ftype f) = false -> allPositive (fpre f) ->
  framesOk (fs ++ [f]).
Proof.
  intros H1 H2 H3. apply Forall_app. split; [assumption |].
  constructor; [split; assumption | constructor].
Qed.

Lemma plugStart_nonneg fs : 0 <= plugStart fs.
Proof.
  induction fs as [| f r IH]; simpl; [lia |].
  pose proof (fragmentSize_nonneg (fpre f)). lia.
Qed.

Lemma plug_range fs x :
  framesOk fs -> nonLeaf x ->
  plugStart fs + contentSize x <= contentSize (plug fs x).
Proof.
  intros Hfs Hx. induction fs as [| f r IH]; [simpl; lia |].
  apply Forall_cons in Hfs as [[Hf Hp] Hr].
  specialize (IH Hr).
  pose proof (nodeSize_nonLeaf _ (plug_nonLeaf r x Hr Hx)) as Hs.
  cbn [plug plugStart]. rewrite contentSize_Elem, fragmentSize_app.
  cbn [fragmentSize]. pose proof (fragmentSize_nonneg (fpost f)). lia.
Qed.

Lemma plug_size fs x x' :
  nodeSize x = nodeSize x' -> nodeSize (plug fs x) = nodeSize (plug fs x').
Proof.
  intros H. induction fs as [| f r IH]; [exact H |].
  cbn [plug]. rewrite !nodeSize_Elem, !fragmentSize_app. cbn [fragmentSize].
  now rewrite IH.
Qed.

Lemma nodeAt_Elem t a cs pos :
  nodeAt (Elem t a cs) pos
  = if (pos <? 0) || (fragmentSize cs <? pos) then Throw RangeError
    else nodeAtIn nodeAt pos cs 0.
Proof. reflexivity. Qed.

Lemma nodeAt_plug fs x p :
  framesOk fs -> nonLeaf x -> 0 <= p <= contentSize x ->
  nodeAt (plug fs x) (plugStart fs + p) = nodeAt x p.
Proof.
  intros Hfs Hx Hp. revert Hfs. induction fs as [| f r IH]; intros Hfs.
  - simpl. reflexivity.
  - apply Forall_cons in Hfs as [[Hf Hpre] Hr].
    pose proof (plug_range r x Hr Hx).
    pose proof (plugStart_nonneg r).
    pose proof (nodeSize_nonLeaf _ (plug_nonLeaf r x Hr Hx)) as Hs.
    pose proof (fragmentSize_nonneg (fpre f)).
    pose proof (fragmentSize_nonneg (fpost f)).
    pose proof (plug_nonLeaf r x Hr Hx) as Hnl.
    cbn [plug plugStart]. rewrite nodeAt_Elem, fragmentSize_app. cbn [fragmentSize].
    zb. cbn [orb].
    rewrite nodeAtIn_skip. 2: assumption. 2: lia.
    cbn [nodeAtIn]. zb.
    rewrite (nonLeaf_isText _ Hnl), <- IH by assumption. f_equal. lia.
Qed.

Lemma setAttrsAt_plug a' fs x p :
  framesOk fs -> nonLeaf x -> 0 <= p <= contentSize x ->
  setAttrsAt a' (plug fs x) (plugStart fs + p) = plug fs (setAttrsAt a' x p).
Proof.
  intros Hfs Hx Hp. revert Hfs. induction fs as [| f r IH]; intros Hfs.
  - simpl. reflexivity.
  - apply Forall_cons in Hfs as [[Hf Hpre] Hr].
    pose proof (plug_range r x Hr Hx).
    pose proof (plugStart_nonneg r).
    pose proof (nodeSize_nonLeaf _ (plug_nonLeaf r x Hr Hx)) as Hs.
    pose proof (fragmentSize_nonneg (fpre f)).
    cbn [plug plugStart setAttrsAt].
    rewrite setAttrsIn_skip by (assumption || lia).
    cbn [setAttrsIn]. zb.
    rewrite <- IH by assumption. do 4 f_equal. lia.
Qed.

Lemma replaceIn_Elem slice t a cs base from to :
  replaceIn slice (Elem t a cs) base from to
  = let? deeper := replaceChild (replaceIn slice) base from to cs 0 in
    match deeper with
    | Some (cs', step) => Ok (Some (Elem t a cs', step))
    | None => placeHere (Elem t a cs) base from to slice
    end.
Proof. reflexivity. Qed.

Lemma replaceIn_plug slice fs x base f t x' step :
  framesOk fs -> nonLeaf x -> 0 <= f <= contentSize x ->
  replaceIn slice x (base + plugStart fs) f t = Ok (Some (x', step)) ->
  replaceIn slice (plug fs x) base (plugStart fs + f) (plugStart fs + t)
  = Ok (Some (plug fs x', step)).
Proof.
  intros Hfs Hx Hp. revert base Hfs. induction fs as [| fr r IH]; intros base Hfs Hrep.
  - simpl in *. now replace (base + 0) with base in Hrep by lia.
  - apply Forall_cons in Hfs as [[Hf Hpre] Hr].
    pose proof (plug_range r x Hr Hx).
    pose proof (plugStart_nonneg r).
    pose proof (nodeSize_nonLeaf _ (plug_nonLeaf r x Hr Hx)) as Hs.
    pose proof (fragmentSize_nonneg (fpre fr)).
    pose proof (plug_nonLeaf r x Hr Hx) as Hnl.
    cbn [plug plugStart]. rewrite replaceIn_Elem.
    rewrite replaceChild_skip by (assumption || lia).
    cbn [replaceChild]. zb.
    rewrite (nonLeaf_isText _ Hnl).
    replace (fragmentSize (fpre fr) + 1 + plugStart r + f - (0 + fragmentSize (fpre fr)) - 1)
      with (plugStart r + f) by lia.
    replace (fragmentSize (fpre fr) + 1 + plugStart r + t - (0 + fragmentSize (fpre fr)) - 1)
      with (plugStart r + t) by lia.
    rewrite (IH (base + (0 + fragmentSize (fpre fr)) + 1)); [reflexivity | assumption |].
    rewrite <- Hrep. f_equal. cbn [plugStart]. lia.
Qed.

(** ** Schemas and well-formed nodes *)

Lemma wfSchema_types s nm t :
  wfSchema s = true -> nodes s !! nm = Some t ->
  name t = nm ∧ content t ≠ CStar "attachment-gallery"
  ∧ content t ≠ CPlus "attachment-gallery".
Proof.
  unfold wfSchema. intros H Hl.
  repeat (apply andb_prop in H as [H _]).
  apply bool_decide_eq_true_1 in H. exact (H nm t Hl).
Qed.

Lemma wfSchema_figure s :
  wfSchema s = true -> nodes s !! "attachment-figure" = Some AttachmentFigure.
Proof.
  unfold wfSchema. intros H.
  apply andb_prop in H as [H _]. apply andb_prop in H as [H _].
  apply andb_prop in H as [_ H]. now apply bool_decide_eq_true_1 in H.
Qed.

Lemma wfSchema_gallery s :
  wfSchema s = true -> nodes s !! "attachment-gallery" = Some AttachmentGallery.
Proof.
  unfold wfSchema. intros H.
  apply andb_prop in H as [H _]. apply andb_prop in H as [_ H].
  now apply bool_decide_eq_true_1 in H.
Qed.

Lemma computeAttrs_conform specs (a : object) :
  dom a = dom specs -> computeAttrs specs a = Ok a.
Proof.
  intros Hd. unfold computeAttrs.
  rewrite bool_decide_eq_true_2.
  - f_equal. apply map_eq. intros k. rewrite lookup_merge.
    destruct (specs !! k) as [d |] eqn:Es, (a !! k) as [v |] eqn:Ea; simpl; try reflexivity.
    + apply not_elem_of_dom in Ea. rewrite Hd in Ea. apply not_elem_of_dom in Ea. congruence.
    + apply not_elem_of_dom in Es. rewrite <- Hd in Es. apply not_elem_of_dom in Es. congruence.
  - intros k d Hk. right. apply elem_of_dom. rewrite Hd. apply elem_of_dom. eauto.
Qed.

Lemma computeAttrs_defaults specs :
  map_Forall (λ _ d, is_Some d) specs ->
  ∃ a : object, computeAttrs specs ∅ = Ok a ∧ dom a = dom specs.
Proof.
  intros Hall. unfold computeAttrs.
  rewrite bool_decide_eq_true_2.
  - eexists. split; [reflexivity |].
    apply set_eq. intros k. rewrite !elem_of_dom, lookup_merge, lookup_empty.
    destruct (specs !! k) as [d |] eqn:Es; simpl.
    + destruct (Hall k d Es) as [v ->]. split; eauto.
    + split; intros [? ?]; discriminate.
  - intros k d Hk. left. exact (Hall k d Hk).
Qed.

Lemma paragraphOf_spec s :
  wfSchema s = true ->
  ∃ pt pa,
    schema_node s "paragraph" ∅ [] = Ok (Elem pt pa [])
    ∧ paragraphOf s = Elem pt pa []
    ∧ nodes s !! "paragraph" = Some pt
    ∧ name pt = "paragraph"
    ∧ content pt = CStar "inline"
    ∧ "block" ∈ group pt
    ∧ dom pa = dom (attrSpecs pt).
Proof.
  intros Hs. pose proof Hs as H. unfold wfSchema in H.
  apply andb_prop in H as [_ H].
  destruct (nodes s !! "paragraph") as [pt |] eqn:Ep; [| discriminate].
  apply andb_prop in H as [H H3]. apply andb_prop in H as [H1 H2].
  apply bool_decide_eq_true_1 in H1, H2, H3.
  destruct (computeAttrs_defaults _ H3) as (pa & Hc & Hd).
  assert (Hn : schema_node s "paragraph" ∅ [] = Ok (Elem pt pa [])).
  { unfold schema_node, createChecked. rewrite Ep, Hc. simpl.
    unfold validContent. rewrite H1. reflexivity. }
  exists pt, pa. unfold paragraphOf. rewrite Hn.
  destruct (wfSchema_types s _ _ Hs Ep) as (Hnm & _).
  repeat split; auto.
Qed.

Lemma wf_positive s n : wfNode s n = true -> 0 < nodeSize n.
Proof.
  destruct n as [t | t a cs].
  - simpl. intros H. apply negb_true_iff, bool_decide_eq_false_1 in H.
    destruct t; [congruence | simpl; lia].
  - intros _. rewrite nodeSize_Elem. pose proof (fragmentSize_nonneg cs).
    destruct (isLeafType t); lia.
Qed.

Lemma wf_children_allPositive s cs :
  Forall (λ c, wfNode s c = true) cs -> allPositive cs.
Proof. intros H. eapply Forall_impl; [exact H |]. intros c. apply wf_positive. Qed.

Lemma allPositive_size_0 cs : allPositive cs -> fragmentSize cs <= 0 -> cs = [].
Proof.
  destruct cs as [| c r]; [reflexivity |].
  intros Hp%allPositive_cons. destruct Hp as [Hc _].
  pose proof (fragmentSize_nonneg r). simpl. lia.
Qed.

Lemma wf_figure_type s t a cs :
  wfSchema s = true -> wfNode s (Elem t a cs) = true ->
  isFigure (Elem t a cs) = true -> t = AttachmentFigure.
Proof.
  intros Hs Hw Hf. apply wfNode_Elem in Hw as (Ht & _).
  apply bool_decide_eq_true_1 in Hf. simpl in Hf. rewrite Hf in Ht.
  pose proof (wfSchema_figure s Hs). congruence.
Qed.

Lemma wf_gallery_type s t a cs :
  wfSchema s = true -> wfNode s (Elem t a cs) = true ->
  isGallery (Elem t a cs) = true -> t = AttachmentGallery.
Proof.
  intros Hs Hw Hf. apply wfNode_Elem in Hw as (Ht & _).
  apply bool_decide_eq_true_1 in Hf. simpl in Hf. rewrite Hf in Ht.
  pose proof (wfSchema_gallery s Hs). congruence.
Qed.

(** Where a gallery is admitted, the paragraph is. *)
Lemma gallery_parent_accepts s t c :
  wfSchema s = true -> nodes s !! name t = Some t ->
  wfNode s c = true -> isGallery c = true -> accepts t c = true ->
  accepts t (paragraphOf s) = true.
Proof.
  intros Hs Ht Hw Hg Hacc.
  destruct (paragraphOf_spec s Hs) as (pt & pa & _ & -> & _ & _ & _ & Hb & _).
  destruct (wfSchema_types s _ _ Hs Ht) as (_ & Hn1 & Hn2).
  destruct c as [x | tc ac csc]; [discriminate |].
  pose proof (wf_gallery_type s _ _ _ Hs Hw Hg) as ->.
  unfold accepts in *. simpl in *.
  destruct (content t) as [| g | g]; try discriminate;
    apply orb_prop in Hacc as [H | H]; apply bool_decide_eq_true_1 in H;
    try (subst g; congruence);
    apply list_elem_of_singleton in H; subst g;
    apply orb_true_iff; right; now apply bool_decide_eq_true_2.
Qed.

(** ** Steps at a child of a node *)

Lemma nodeAt_child t a l1 c l2 :
  allPositive l1 ->
  nodeAt (Elem t a (l1 ++ c :: l2)) (fragmentSize l1) = Ok (Some c).
Proof.
  intros Hp. rewrite nodeAt_Elem, fragmentSize_app.
  pose proof (fragmentSize_nonneg l1). pose proof (fragmentSize_nonneg (c :: l2)).
  zb. cbn [orb]. rewrite nodeAtIn_skip by (assumption || lia).
  cbn [nodeAtIn]. zb. reflexivity.
Qed.

Lemma setAttrsAt_child a' t a l1 c l2 :
  allPositive l1 ->
  setAttrsAt a' (Elem t a (l1 ++ c :: l2)) (fragmentSize l1)
  = Elem t a (l1 ++ withAttrs a' c :: l2).
Proof.
  intros Hp. cbn [setAttrsAt]. rewrite setAttrsIn_skip by (assumption || lia).
  cbn [setAttrsIn]. zb. reflexivity.
Qed.

Lemma replaceIn_child p t a l1 c l2 base :
  allPositive (l1 ++ c :: l2) -> accepts t p = true ->
  replaceIn [p] (Elem t a (l1 ++ c :: l2)) base (fragmentSize l1)
    (fragmentSize l1 + nodeSize c)
  = Ok (Some (Elem t a (l1 ++ p :: l2),
              ReplaceStep (base + fragmentSize l1) (base + (fragmentSize l1 + nodeSize c))
                (mkSlice [p] 0 0))).
Proof.
  intros Hp Hacc.
  apply allPositive_app in Hp as [Hp1 Hp2]. apply allPositive_cons in Hp2 as [Hc Hp2].
  pose proof (fragmentSize_nonneg l1). pose proof (fragmentSize_nonneg l2).
  assert (Hp1c : allPositive (l1 ++ [c])).
  { apply allPositive_app. split; [assumption |]. apply allPositive_cons. split; [assumption | constructor]. }
  assert (Hsz : fragmentSize (l1 ++ [c]) = fragmentSize l1 + nodeSize c).
  { rewrite fragmentSize_app. simpl. lia. }
  rewrite replaceIn_Elem.
  rewrite replaceChild_skip by (assumption || lia).
  cbn [replaceChild]. zb. cbn [rbind fmap option_fmap option_map].
  unfold placeHere. rewrite Hacc. cbn [forallb]. rewrite Hacc. cbn [andb negb orb].
  rewrite contentSize_Elem, fragmentSize_app. cbn [fragmentSize]. zb. cbn [orb].
  assert (Hl : leftOk (Elem t a (l1 ++ c :: l2)) (fragmentSize l1) = true).
  { cbn [leftOk]. apply childAt_boundary; [assumption | reflexivity]. }
  rewrite Hl. cbn [negb].
  assert (Hcl : closedCopies (Elem t a (l1 ++ c :: l2)) (fragmentSize l1) = []).
  { cbn [closedCopies]. apply childAt_boundary; [assumption | reflexivity]. }
  assert (Hdl : depthBelow (Elem t a (l1 ++ c :: l2)) (fragmentSize l1) = 0).
  { cbn [depthBelow]. apply childAt_boundary; [assumption | reflexivity]. }
  rewrite Hcl, Hdl.
  assert (Hd : dropsAt (l1 ++ c :: l2) (fragmentSize l1 + nodeSize c) = None).
  { unfold dropsAt. replace (l1 ++ c :: l2) with ((l1 ++ [c]) ++ l2) by now rewrite <- app_assoc.
    apply childAt_boundary; [assumption | now rewrite Hsz]. }
  rewrite Hd.
  assert (Hr : rightOk (Elem t a (l1 ++ c :: l2)) (fragmentSize l1 + nodeSize c) = true).
  { cbn [rightOk]. replace (l1 ++ c :: l2) with ((l1 ++ [c]) ++ l2) by now rewrite <- app_assoc.
    apply childAt_boundary; [assumption | now rewrite Hsz]. }
  rewrite Hr.
  assert (Hro : reopenedCopies (Elem t a (l1 ++ c :: l2)) (fragmentSize l1 + nodeSize c) = Ok []).
  { cbn [reopenedCopies]. replace (l1 ++ c :: l2) with ((l1 ++ [c]) ++ l2) by now rewrite <- app_assoc.
    apply childAt_boundary; [assumption | now rewrite Hsz]. }
  rewrite Hro. cbn [rbind].
  assert (Hb : depthBelow (Elem t a (l1 ++ c :: l2)) (fragmentSize l1 + nodeSize c) = 0).
  { cbn [depthBelow]. replace (l1 ++ c :: l2) with ((l1 ++ [c]) ++ l2) by now rewrite <- app_assoc.
    apply childAt_boundary; [assumption | now rewrite Hsz]. }
  rewrite Hb, cut_prefix by assumption.
  replace (cut (l1 ++ c :: l2) (fragmentSize l1 + nodeSize c)
             (fragmentSize l1 + (nodeSize c + fragmentSize l2))) with l2.
  - reflexivity.
  - replace (l1 ++ c :: l2) with ((l1 ++ [c]) ++ l2) by now rewrite <- app_assoc.
    rewrite <- Hsz.
    replace (fragmentSize l1 + (nodeSize c + fragmentSize l2))
      with (fragmentSize ((l1 ++ [c]) ++ l2)) by (rewrite fragmentSize_app; lia).
    symmetry. apply cut_suffix; assumption.
Qed.

Lemma resolve_ok doc pos :
  0 <= pos <= contentSize doc -> ∃ r, resolve doc pos = Ok r.
Proof.
  intros H. unfold resolve.
  destruct (Z.leb_spec 0 pos); [| lia].
  destruct (Z.leb_spec pos (contentSize doc)); [| lia].
  cbn [andb]. destruct (resolvePath doc pos 0). eauto.
Qed.

(** [replaceWith] on the range of a child: the child is exchanged. *)
Lemma replaceWith_child p fs t a l1 c l2 tr :
  framesOk fs -> isLeafType t = false ->
  allPositive (l1 ++ c :: l2) -> accepts t p = true ->
  doc tr = plug fs (Elem t a (l1 ++ c :: l2)) ->
  replaceWith (plugStart fs + fragmentSize l1)
    (plugStart fs + fragmentSize l1 + nodeSize c) [p] tr
  = Ok (tt, {| doc := plug fs (Elem t a (l1 ++ p :: l2));
               steps := steps tr
                        ++ [ReplaceStep (plugStart fs + fragmentSize l1)
                              (plugStart fs + fragmentSize l1 + nodeSize c)
                              (mkSlice [p] 0 0)];
               selectionSet := selectionSet tr |}).
Proof.
  intros Hfs Ht Hp Hacc Hdoc.
  pose proof Hp as Hp'.
  apply allPositive_app in Hp' as [Hp1 Hp2]. apply allPositive_cons in Hp2 as [Hc Hp2].
  pose proof (fragmentSize_nonneg l1). pose proof (fragmentSize_nonneg l2).
  pose proof (plugStart_nonneg fs).
  pose proof (plug_range fs (Elem t a (l1 ++ c :: l2)) Hfs Ht) as Hrange.
  rewrite contentSize_Elem, fragmentSize_app in Hrange. cbn [fragmentSize] in Hrange.
  assert (Hrep : replaceIn [p] (doc tr) 0 (plugStart fs + fragmentSize l1)
                   (plugStart fs + fragmentSize l1 + nodeSize c)
                 = Ok (Some (plug fs (Elem t a (l1 ++ p :: l2)),
                             ReplaceStep (plugStart fs + fragmentSize l1)
                               (plugStart fs + fragmentSize l1 + nodeSize c)
                               (mkSlice [p] 0 0)))).
  { rewrite Hdoc.
    replace (plugStart fs + fragmentSize l1 + nodeSize c)
      with (plugStart fs + (fragmentSize l1 + nodeSize c)) by lia.
    apply replaceIn_plug; [assumption | exact Ht | |].
    - rewrite contentSize_Elem, fragmentSize_app. cbn [fragmentSize]. lia.
    - rewrite replaceIn_child by assumption. cbn [Z.add]. repeat f_equal; lia. }
  unfold replaceWith. zb. cbn [andb].
  destruct (resolve_ok (doc tr) (plugStart fs + fragmentSize l1)) as [r1 ->];
    [rewrite Hdoc; lia |].
  destruct (resolve_ok (doc tr) (plugStart fs + fragmentSize l1 + nodeSize c)) as [r2 ->];
    [rewrite Hdoc; lia |].
  cbn [rbind]. rewrite bool_decide_eq_false_2 by discriminate. cbn [orb].
  rewrite Hrep. reflexivity.
Qed.

(** ** The two checks of the pass *)

Lemma append_empty_r (s : string) : s +:+ "" = s.
Proof.
  induction s as [| c r IH]; [reflexivity |].
  change (String c (r +:+ "") = String c r). now rewrite IH.
Qed.

Lemma bind_Ok {S A B} (m : M S A) (k : A -> M S B) s a s' :
  m s = Ok (a, s') -> bind m k s = k a s'.
Proof. unfold bind. now intros ->. Qed.

Lemma nodesBetween_Elem {S} (f : Node -> Z -> M S bool) t a cs from to ns :
  nodesBetween f (Elem t a cs) from to ns
  = nodesBetweenIn (nodesBetween f) from to f ns cs 0.
Proof. reflexivity. Qed.

Section Checks.

Variable JSON_stringify : object -> string.
Variable serializeFragment : list Node -> string.
Variable outerHTML : Dom -> string.

Lemma figureClass_typed a :
  typedFigure a = true -> ∃ cls, figureClass optionsClass a = Ok cls.
Proof.
  unfold typedFigure, figureClass, canPreview, toExtension, stringish.
  intros H. apply andb_prop in H as [H1 H2].
  destruct (truthy (a !! "previewable")).
  - destruct (a !! "fileName") as [[| | |] |]; try discriminate; cbn;
      try (destruct (negb _)); eauto.
  - destruct (a !! "contentType") as [[| | |] |]; try discriminate;
      destruct (a !! "fileName") as [[| | |] |]; try discriminate; cbn;
        try (destruct (negb _)); eauto.
Qed.

(** The caption element of a rendered figure holds the markup of the
    figure's content. *)
Lemma serializeNode_figcaption t a cs :
  typedFigure a = true ->
  ∃ dom fc,
    serializeNode JSON_stringify serializeFragment (Elem t a cs) = Ok dom
    ∧ querySelector "figcaption" (DElem "div" ∅ [dom]) = Some fc
    ∧ innerHTML outerHTML fc = serializeFragment cs.
Proof.
  intros Ht. destruct (figureClass_typed a Ht) as [cls Hc].
  unfold serializeNode, renderHTML. cbn [nodeAttrs nodeContent]. rewrite Hc. cbn [rbind].
  destruct (negb (truthy (a !! "content"))); cbn [rbind renderSpec map];
    eexists; eexists; (split; [reflexivity |]); split;
      try reflexivity; cbn; apply append_empty_r.
Qed.

Variable st : EditorState.
Hypothesis Hs : wfSchema (schema st) = true.

Lemma handleGallery_skip c pos tr :
  emptyGallery c = false -> handleGallery c st pos tr = Ok (false, tr).
Proof.
  unfold emptyGallery, handleGallery, isGallery. intros H.
  destruct (bool_decide (typeName c = "attachment-gallery")); [| reflexivity].
  cbn [andb negb] in *. rewrite H. reflexivity.
Qed.

Lemma handleGallery_empty c pos tr :
  emptyGallery c = true ->
  handleGallery c st pos tr
  = (replaceWith pos (pos + nodeSize c) [paragraphOf (schema st)] ;; ret true) tr.
Proof.
  unfold emptyGallery, handleGallery, isGallery. intros H.
  apply andb_prop in H as [H1 H2]. rewrite H1, H2. cbn [negb].
  destruct (paragraphOf_spec _ Hs) as (pt & pa & Hn & -> & _).
  unfold bind at 1, lift. rewrite Hn. reflexivity.
Qed.

Lemma handleCaptions_skip c pos tr :
  isFigure c = false ->
  handleCaptions JSON_stringify serializeFragment outerHTML c st pos tr = Ok (false, tr).
Proof.
  unfold handleCaptions, isFigure. intros ->. reflexivity.
Qed.

Lemma handleCaptions_figure t a cs pos tr :
  isFigure (Elem t a cs) = true -> typedFigure a = true ->
  handleCaptions JSON_stringify serializeFragment outerHTML (Elem t a cs) st pos tr
  = if staleCaption serializeFragment (Elem t a cs)
    then (setNodeMarkup pos (<["caption" := VStr (serializeFragment cs)]> a) ;; ret true) tr
    else Ok (false, tr).
Proof.
  intros Hf Ht. unfold handleCaptions, staleCaption, captionOf. fold (isFigure (Elem t a cs)).
  rewrite Hf. cbn [negb andb nodeAttrs nodeContent].
  destruct (serializeNode_figcaption t a cs Ht) as (dom & fc & Hd & Hq & Hi).
  unfold bind at 1, lift. rewrite Hd, Hq, Hi.
  destruct (strict_ne _ _); reflexivity.
Qed.

(** [setNodeMarkup] on a child that is not a leaf and keeps a value
    for every attribute. *)
Lemma setNodeMarkup_child fs t a l1 tc ac csc l2 vals tr :
  framesOk fs -> isLeafType t = false -> allPositive l1 ->
  isLeafType tc = false -> validContent tc csc = true ->
  dom vals = dom (attrSpecs tc) ->
  doc tr = plug fs (Elem t a (l1 ++ Elem tc ac csc :: l2)) ->
  setNodeMarkup (plugStart fs + fragmentSize l1) vals tr
  = Ok (tt, {| doc := plug fs (Elem t a (l1 ++ Elem tc vals csc :: l2));
               steps := steps tr
                        ++ [ReplaceAroundStep (plugStart fs + fragmentSize l1) tc vals];
               selectionSet := selectionSet tr |}).
Proof.
  intros Hfs Ht Hp Htc Hv Hd Hdoc.
  pose proof (fragmentSize_nonneg l1). pose proof (fragmentSize_nonneg (Elem tc ac csc :: l2)).
  assert (Hr : 0 <= fragmentSize l1 <= contentSize (Elem t a (l1 ++ Elem tc ac csc :: l2))).
  { rewrite contentSize_Elem, fragmentSize_app. lia. }
  unfold setNodeMarkup. rewrite Hdoc.
  rewrite nodeAt_plug by (assumption || exact Ht).
  rewrite nodeAt_child by assumption. cbn [rbind].
  unfold create. rewrite computeAttrs_conform by assumption. cbn [rbind].
  rewrite Htc, Hv. cbn [negb nodeAttrs].
  rewrite setAttrsAt_plug by (assumption || exact Ht).
  rewrite setAttrsAt_child by assumption. reflexivity.
Qed.


Let P : Node := paragraphOf (schema st).
Let V := visit JSON_stringify serializeFragment outerHTML st.

Lemma paragraph_size : nodeSize P = 2.
Proof.
  destruct (paragraphOf_spec _ Hs) as (pt & pa & _ & HP & _ & _ & Hc & _).
  subst P. rewrite HP, nodeSize_Elem. unfold isLeafType. rewrite Hc. reflexivity.
Qed.

Lemma emptyGallery_not_figure c : emptyGallery c = true -> isFigure c = false.
Proof.
  unfold emptyGallery, isGallery, isFigure. intros H. apply andb_prop in H as [H _].
  apply bool_decide_eq_true_1 in H. apply bool_decide_eq_false_2. rewrite H. discriminate.
Qed.

Lemma visit_child fs t a' l1 c l2 tr m :
  framesOk fs -> isLeafType t = false ->
  allPositive l1 -> allPositive l2 ->
  wfNode (schema st) c = true ->
  nodes (schema st) !! name t = Some t -> accepts t c = true ->
  doc tr = plug fs (Elem t a' (l1 ++ c :: l2)) ->
  ∃ tr',
    V c (plugStart fs + fragmentSize l1) (tr, m)
    = Ok (true, (tr', m || (emptyGallery c || staleCaption serializeFragment c)))
    ∧ doc tr' = plug fs (Elem t a' (l1 ++ localFix serializeFragment P c :: l2))
    ∧ steps tr' = steps tr ++ ownSteps serializeFragment P c (plugStart fs + fragmentSize l1)
    ∧ selectionSet tr' = selectionSet tr.
Proof.
  intros Hfs Ht Hp1 Hp2 Hw Hreg Hacc Hdoc.
  pose proof (wf_positive _ _ Hw) as Hc.
  assert (Hpos : allPositive (l1 ++ c :: l2)).
  { apply allPositive_app. split; [assumption |]. apply allPositive_cons. now split. }
  unfold V, visit, localFix, ownSteps.
  destruct (emptyGallery c) eqn:Eg.
  - (* an empty gallery *)
    pose proof (emptyGallery_not_figure c Eg) as Hnf.
    assert (Hst : staleCaption serializeFragment c = false)
      by (unfold staleCaption; now rewrite Hnf).
    rewrite Hst.
    assert (Hg : isGallery c = true) by (unfold emptyGallery in Eg; now apply andb_prop in Eg).
    assert (H2 : nodeSize c = 2).
    { unfold emptyGallery in Eg. apply andb_prop in Eg as [_ E]. now apply Z.eqb_eq in E. }
    pose proof (gallery_parent_accepts _ t c Hs Hreg Hw Hg Hacc) as HaccP.
    pose proof (replaceWith_child (paragraphOf (schema st)) fs t a' l1 c l2 tr
                  Hfs Ht Hpos HaccP Hdoc) as Hrep.
    unfold bind at 1, onTransaction. cbn [fst snd].
    rewrite handleGallery_empty by assumption.
    unfold bind at 1.
    replace (plugStart fs + fragmentSize l1 + nodeSize c)
      with (plugStart fs + fragmentSize l1 + nodeSize c) in Hrep by reflexivity.
    rewrite Hrep. cbn [ret].
    unfold bind at 1. cbn [fst snd]. rewrite handleCaptions_skip by assumption.
    cbn. eexists. split; [rewrite orb_true_r; reflexivity |].
    cbn [doc steps selectionSet]. fold P. rewrite H2.
    repeat split.
  - (* not an empty gallery *)
    unfold bind at 1, onTransaction. cbn [fst snd].
    rewrite handleGallery_skip by assumption.
    destruct (isFigure c) eqn:Ef.
    + destruct c as [x | tc ac csc]; [discriminate |].
      pose proof (wf_figure_type _ _ _ _ Hs Hw Ef) as ->.
      pose proof (wfNode_Elem _ _ _ _ Hw) as (_ & Hv & Hd & Hfig & _).
      destruct (Hfig Ef) as [Hty _].
      unfold bind at 1. cbn [fst snd].
      rewrite handleCaptions_figure by assumption.
      destruct (staleCaption serializeFragment (Elem AttachmentFigure ac csc)) eqn:Est.
      * assert (Hdom : dom (<["caption" := VStr (serializeFragment csc)]> ac)
                       = dom (attrSpecs AttachmentFigure)).
        { rewrite dom_insert_L, Hd.
          assert ("caption" ∈ dom (attrSpecs AttachmentFigure))
            by (apply elem_of_dom; eexists; reflexivity).
          set_solver. }
        unfold bind at 1.
        rewrite (setNodeMarkup_child fs t a' l1 AttachmentFigure ac csc l2
                   (<["caption" := VStr (serializeFragment csc)]> ac) tr
                   Hfs Ht Hp1 eq_refl Hv Hdom Hdoc).
        cbn. eexists. split; [rewrite orb_true_r; reflexivity |].
        cbn [doc steps selectionSet]. repeat split.
      * cbn. exists tr. rewrite app_nil_r, orb_false_r. repeat split. assumption.
    + unfold bind at 1. cbn [fst snd].
      rewrite handleCaptions_skip by assumption.
      assert (Hst : staleCaption serializeFragment c = false)
        by (unfold staleCaption; now rewrite Ef).
      rewrite Hst.
      cbn. exists tr. rewrite app_nil_r, orb_false_r. repeat split. assumption.
Qed.


Let R := reconcile serializeFragment P.

Lemma reconcile_size n : nodeSize (R n) = nodeSize n.
Proof.
  induction n as [x | t a cs IH] using Node_ind2; [reflexivity |].
  subst R. cbn [reconcile]. destruct (emptyGallery (Elem t a cs)) eqn:Eg.
  - unfold emptyGallery in Eg. apply andb_prop in Eg as [_ E]. apply Z.eqb_eq in E.
    fold P. now rewrite paragraph_size, E.
  - assert (Hf : fragmentSize (map (reconcile serializeFragment P) cs) = fragmentSize cs).
    { clear Eg. induction IH as [| c r Hc _ IHr]; [reflexivity |].
      cbn [map fragmentSize]. rewrite Hc, IHr. reflexivity. }
    rewrite !nodeSize_Elem, Hf. reflexivity.
Qed.

Lemma reconcile_fragmentSize cs : fragmentSize (map R cs) = fragmentSize cs.
Proof.
  induction cs as [| c r IH]; [reflexivity |].
  cbn [map fragmentSize]. now rewrite reconcile_size, IH.
Qed.

Lemma reconcile_not_empty t a cs :
  emptyGallery (Elem t a cs) = false ->
  R (Elem t a cs)
  = Elem t (nodeAttrs (localFix serializeFragment P (Elem t a cs))) (map R cs).
Proof.
  intros Eg. subst R. cbn [reconcile]. unfold localFix. rewrite Eg.
  destruct (staleCaption serializeFragment (Elem t a cs)); reflexivity.
Qed.

Lemma localFix_not_empty t a cs :
  emptyGallery (Elem t a cs) = false ->
  localFix serializeFragment P (Elem t a cs)
  = Elem t (nodeAttrs (localFix serializeFragment P (Elem t a cs))) cs.
Proof.
  intros Eg. unfold localFix. rewrite Eg.
  destruct (staleCaption serializeFragment (Elem t a cs)); reflexivity.
Qed.

Lemma reconcile_childless n :
  nodeContent n = [] -> R n = localFix serializeFragment P n.
Proof.
  destruct n as [x | t a cs]; [reflexivity |]. cbn [nodeContent]. intros ->.
  subst R. cbn [reconcile]. unfold localFix.
  destruct (emptyGallery _); [reflexivity |].
  destruct (staleCaption _ _); reflexivity.
Qed.

Lemma wf_leaf_childless t a cs :
  wfNode (schema st) (Elem t a cs) = true -> isLeafType t = true -> cs = [].
Proof.
  intros Hw Hl. apply wfNode_Elem in Hw as (_ & Hv & _).
  unfold validContent, isLeafType in *. destruct (content t); try discriminate.
  now apply bool_decide_eq_true_1 in Hv.
Qed.

Lemma wf_children_accepted t a cs :
  wfNode (schema st) (Elem t a cs) = true -> isLeafType t = false ->
  Forall (λ c, accepts t c = true) cs.
Proof.
  intros Hw Hl. apply wfNode_Elem in Hw as (_ & Hv & _).
  unfold validContent, isLeafType in *.
  destruct (content t) eqn:E; try discriminate.
  - apply Forall_forall. intros c Hc. rewrite forallb_forall in Hv.
    apply Hv. now apply list_elem_of_In.
  - apply andb_prop in Hv as [_ Hv].
    apply Forall_forall. intros c Hc. rewrite forallb_forall in Hv.
    apply Hv. now apply list_elem_of_In.
Qed.

(** The pass over the content of a node: every child is brought to
    its reconciled form, in place. *)
Lemma walk_node n :
  ∀ fs a' tr m t a cs,
    n = Elem t a cs ->
    wfNode (schema st) n = true -> framesOk fs -> isLeafType t = false ->
    doc tr = plug fs (Elem t a' cs) ->
    ∃ tr',
      nodesBetween V n 0 (contentSize n) (plugStart fs) (tr, m)
      = Ok (tt, (tr', m || existsb (dirty serializeFragment) cs))
      ∧ doc tr' = plug fs (Elem t a' (map R cs))
      ∧ steps tr' = steps tr ++ stepsOf serializeFragment P cs (plugStart fs)
      ∧ selectionSet tr' = selectionSet tr.
Proof.
  induction n as [x | t0 a0 cs0 IH] using Node_ind2; [discriminate |].
  intros fs a' tr m t a cs [= -> -> ->] Hw Hfs Hleaf Hdoc.
  pose proof (wfNode_Elem _ _ _ _ Hw) as (Hreg & _ & _ & _ & Hwc).
  pose proof (wf_children_accepted _ _ _ Hw Hleaf) as Hacc.
  rewrite nodesBetween_Elem, contentSize_Elem.
  assert (Hscan :
    ∀ rest done tr m,
      Forall (λ n, ∀ fs a' tr m t a cs,
                n = Elem t a cs ->
                wfNode (schema st) n = true -> framesOk fs -> isLeafType t = false ->
                doc tr = plug fs (Elem t a' cs) ->
                ∃ tr',
                  nodesBetween V n 0 (contentSize n) (plugStart fs) (tr, m)
                  = Ok (tt, (tr', m || existsb (dirty serializeFragment) cs))
                  ∧ doc tr' = plug fs (Elem t a' (map R cs))
                  ∧ steps tr' = steps tr ++ stepsOf serializeFragment P cs (plugStart fs)
                  ∧ selectionSet tr' = selectionSet tr) rest ->
      Forall (λ c, wfNode (schema st) c = true) rest ->
      Forall (λ c, accepts t c = true) rest ->
      allPositive done ->
      doc tr = plug fs (Elem t a' (done ++ rest)) ->
      ∃ tr',
        nodesBetweenIn (nodesBetween V) 0 (fragmentSize done + fragmentSize rest) V
          (plugStart fs) rest (fragmentSize done) (tr, m)
        = Ok (tt, (tr', m || existsb (dirty serializeFragment) rest))
        ∧ doc tr' = plug fs (Elem t a' (done ++ map R rest))
        ∧ steps tr' = steps tr
                      ++ stepsOf serializeFragment P rest (plugStart fs + fragmentSize done)
        ∧ selectionSet tr' = selectionSet tr).
  { clear IH Hw Hwc Hacc Hdoc tr m cs.
    induction rest as [| c rest IHrest]; intros done tr m IH Hwc Hacc Hdone Hdoc.
    - exists tr. cbn. rewrite orb_false_r, !app_nil_r. rewrite app_nil_r in Hdoc.
      repeat split. assumption.
    - apply Forall_cons in IH as [IHc IH].
      apply Forall_cons in Hwc as [Hwcc Hwc].
      apply Forall_cons in Hacc as [Haccc Hacc].
      pose proof (wf_positive _ _ Hwcc) as Hcpos.
      pose proof (wf_children_allPositive _ _ Hwc) as Hrestpos.
      pose proof (fragmentSize_nonneg done). pose proof (fragmentSize_nonneg rest).
      destruct (visit_child fs t a' done c rest tr m Hfs Hleaf Hdone Hrestpos Hwcc Hreg
                  Haccc Hdoc) as (tr1 & Hv1 & Hd1 & Hs1 & Hsel1).
      cbn [nodesBetweenIn fragmentSize].
      replace (fragmentSize done <? fragmentSize done + (nodeSize c + fragmentSize rest))
        with true by (symmetry; apply Z.ltb_lt; lia).
      replace (0 <? fragmentSize done + nodeSize c)
        with true by (symmetry; apply Z.ltb_lt; lia).
      (* the children of [c] *)
      assert (Hchild :
        ∃ tr2,
          (let* descend := V c (plugStart fs + fragmentSize done) in
           if descend && (0 <? contentSize c)
           then nodesBetween V c (Z.max 0 (0 - (fragmentSize done + 1)))
                  (Z.min (contentSize c)
                     (fragmentSize done + (nodeSize c + fragmentSize rest)
                      - (fragmentSize done + 1)))
                  (plugStart fs + (fragmentSize done + 1))
           else ret tt) (tr, m)
          = Ok (tt, (tr2, m || dirty serializeFragment c))
          ∧ doc tr2 = plug fs (Elem t a' (done ++ R c :: rest))
          ∧ steps tr2 = steps tr
                        ++ stepsOfNode serializeFragment P c (plugStart fs + fragmentSize done)
          ∧ selectionSet tr2 = selectionSet tr).
      { rewrite (bind_Ok _ _ _ _ _ Hv1). cbn [andb].
        destruct (Z.ltb_spec 0 (contentSize c)) as [Hcs | Hcs].
        - (* [c] has children *)
          destruct c as [x | tc ac csc]; [change (0 < 0) in Hcs; lia |].
          assert (Hlc : isLeafType tc = false).
          { destruct (isLeafType tc) eqn:E; [| reflexivity].
            rewrite (wf_leaf_childless _ _ _ Hwcc E) in Hcs. change (0 < 0) in Hcs. lia. }
          assert (Eg : emptyGallery (Elem tc ac csc) = false).
          { unfold emptyGallery. destruct (isGallery _); [| reflexivity].
            cbn [andb]. rewrite nodeSize_Elem, Hlc.
            rewrite contentSize_Elem in Hcs. apply Z.eqb_neq. lia. }
          rewrite (localFix_not_empty _ _ _ Eg) in Hd1.
          set (ac' := nodeAttrs (localFix serializeFragment P (Elem tc ac csc))) in *.
          pose (fr := {| ftype := t; fattrs := a'; fpre := done; fpost := rest |}).
          assert (Hd1' : doc tr1 = plug (fs ++ [fr]) (Elem tc ac' csc))
            by (rewrite plug_app; exact Hd1).
          assert (Hfs' : framesOk (fs ++ [fr])) by (apply framesOk_app; assumption).
          destruct (IHc (fs ++ [fr]) ac' tr1
                      (m || (emptyGallery (Elem tc ac csc)
                             || staleCaption serializeFragment (Elem tc ac csc)))
                      tc ac csc eq_refl Hwcc Hfs' Hlc Hd1')
            as (tr2 & Hv2 & Hd2 & Hs2 & Hsel2).
          exists tr2. rewrite nodeSize_Elem, Hlc, contentSize_Elem in *.
          replace (Z.max 0 (0 - (fragmentSize done + 1))) with 0 by lia.
          replace (Z.min (fragmentSize csc)
                     (fragmentSize done + (2 + fragmentSize csc + fragmentSize rest)
                      - (fragmentSize done + 1))) with (fragmentSize csc) by lia.
          rewrite plugStart_app in Hv2, Hs2. cbn [fpre fr] in Hv2, Hs2.
          replace (plugStart fs + (fragmentSize done + 1))
            with (plugStart fs + fragmentSize done + 1) by lia.
          rewrite Hv2. split.
          { cbn [dirty]. rewrite <- !orb_assoc. reflexivity. }
          split.
          { rewrite Hd2, plug_app. cbn [ftype fattrs fpre fpost fr].
            now rewrite (reconcile_not_empty _ _ _ Eg). }
          split; [| congruence].
          rewrite Hs2, Hs1, <- app_assoc. reflexivity.
        - (* no children *)
          assert (Hnil : nodeContent c = []).
          { destruct c as [x | tc ac csc]; [reflexivity |]. cbn [nodeContent].
            pose proof (wfNode_Elem _ _ _ _ Hwcc) as (_ & _ & _ & _ & Hw').
            apply allPositive_size_0; [now apply (wf_children_allPositive (schema st)) |].
            exact Hcs. }
          exists tr1. cbn [ret]. split.
          { assert (Hdirty : dirty serializeFragment c
                             = emptyGallery c || staleCaption serializeFragment c).
            { destruct c as [x | tc ac csc]; cbn [dirty].
              - apply orb_false_r.
              - cbn [nodeContent] in Hnil. subst csc. apply orb_false_r. }
            rewrite Hdirty. reflexivity. }
          split; [now rewrite (reconcile_childless _ Hnil) |].
          split; [| assumption].
          rewrite Hs1. f_equal.
          destruct c as [x | tc ac csc]; cbn [stepsOfNode].
          + now rewrite app_nil_r.
          + cbn [nodeContent] in Hnil. subst csc. cbn. now rewrite app_nil_r. }
      destruct Hchild as (tr2 & Hv2 & Hd2 & Hs2 & Hsel2).
      rewrite (bind_Ok _ _ _ _ _ Hv2).
      assert (Hdone' : allPositive (done ++ [R c])).
      { apply allPositive_app. split; [assumption |]. apply allPositive_cons.
        rewrite reconcile_size. split; [assumption | constructor]. }
      assert (Hdoc' : doc tr2 = plug fs (Elem t a' ((done ++ [R c]) ++ rest)))
        by (rewrite <- app_assoc; exact Hd2).
      destruct (IHrest (done ++ [R c]) tr2 (m || dirty serializeFragment c)
                  IH Hwc Hacc Hdone' Hdoc') as (tr3 & Hv3 & Hd3 & Hs3 & Hsel3).
      rewrite fragmentSize_app in Hv3, Hs3. cbn [fragmentSize] in Hv3, Hs3.
      rewrite reconcile_size in Hv3, Hs3.
      replace (fragmentSize done + (nodeSize c + 0)) with (fragmentSize done + nodeSize c)
        in Hv3, Hs3 by lia.
      replace (fragmentSize done + nodeSize c + fragmentSize rest)
        with (fragmentSize done + (nodeSize c + fragmentSize rest)) in Hv3 by lia.
      exists tr3. rewrite Hv3. split.
      { cbn [existsb]. rewrite orb_assoc. reflexivity. }
      split.
      { rewrite Hd3, <- app_assoc. reflexivity. }
      split; [| congruence].
      rewrite Hs3, Hs2, <- app_assoc. unfold stepsOf. cbn [stepsIn].
      do 3 f_equal. lia. }
  assert (Hnil : allPositive []) by constructor.
  destruct (Hscan cs [] tr m IH Hwc Hacc Hnil Hdoc) as (tr' & Hv & Hd & Hst & Hsel).
  exists tr'. cbn [fragmentSize app] in *.
  replace (plugStart fs + 0) with (plugStart fs) in Hst by lia.
  rewrite Z.add_0_l in Hv. auto.
Qed.

End Checks.

(** ** The reconciled document *)

Section Pass.

Variable JSON_stringify : object -> string.
Variable serializeFragment : list Node -> string.
Variable outerHTML : Dom -> string.

Variable st : EditorState.
Hypothesis Hs : wfSchema (schema st) = true.

Let P : Node := paragraphOf (schema st).
Let R := reconcile serializeFragment P.

Lemma wfDoc_parts d :
  wfDoc (schema st) d = true ->
  ∃ t a cs, d = Elem t a cs ∧ wfNode (schema st) d = true ∧ isLeafType t = false
            ∧ isGallery d = false ∧ isFigure d = false.
Proof.
  unfold wfDoc. intros H.
  apply andb_prop in H as [H H4]. apply andb_prop in H as [H H3].
  apply andb_prop in H as [H1 H2].
  apply negb_true_iff in H2, H3, H4.
  destruct d as [x | t a cs]; [discriminate |].
  exists t, a, cs. auto.
Qed.

Lemma reconcile_root d :
  isGallery d = false -> isFigure d = false ->
  R d = match d with Text _ => d | Elem t a cs => Elem t a (map R cs) end
  ∧ dirty serializeFragment d = existsb (dirty serializeFragment) (nodeContent d).
Proof.
  intros Hg Hf. destruct d as [x | t a cs].
  - split; [reflexivity |]. cbn. unfold emptyGallery, staleCaption. now rewrite Hg, Hf.
  - subst R. cbn [reconcile dirty nodeContent].
    unfold emptyGallery, staleCaption. rewrite Hg, Hf. split; reflexivity.
Qed.

(** What [appendTransaction] returns on a well-formed document. *)
Lemma appendTransaction_spec :
  wfDoc (schema st) (state_doc st) = true ->
  appendTransaction JSON_stringify serializeFragment outerHTML st
  = Ok (if dirty serializeFragment (state_doc st)
        then Some {| doc := R (state_doc st);
                     steps := stepsOf serializeFragment P (nodeContent (state_doc st)) 0;
                     selectionSet := None |}
        else None).
Proof.
  intros Hd. destruct (wfDoc_parts _ Hd) as (t & a & cs & E & Hw & Hl & Hg & Hf).
  destruct (reconcile_root _ Hg Hf) as [HR Hdirty].
  rewrite HR, Hdirty, E. cbn [nodeContent].
  unfold appendTransaction, descendants. rewrite E.
  destruct (walk_node JSON_stringify serializeFragment outerHTML st Hs (Elem t a cs)
              [] a (state_tr st) false t a cs eq_refl) as (tr' & Hv & Hdoc & Hst & Hsel).
  - now rewrite <- E.
  - constructor.
  - assumption.
  - unfold state_tr. now rewrite E.
  - cbn [plugStart] in Hv. rewrite Hv. cbn [orb].
    destruct (existsb (dirty serializeFragment) cs); [| reflexivity].
    destruct tr' as [d' s' sel']. cbn [doc steps selectionSet plug plugStart] in *.
    unfold state_tr in *. cbn [steps selectionSet app] in *. subst. reflexivity.
Qed.

(** *** Shape of the reconciled document *)

Lemma clean_reconcile n : dirty serializeFragment n = false -> R n = n.
Proof.
  induction n as [x | t a cs IH] using Node_ind2; [reflexivity |].
  cbn [dirty]. intros H.
  apply orb_false_elim in H as [H H3]. apply orb_false_elim in H as [H1 H2].
  subst R. cbn [reconcile]. rewrite H1, H2. f_equal. clear H1 H2.
  induction IH as [| c r Hc _ IHr]; [reflexivity |].
  cbn [existsb] in H3. apply orb_false_elim in H3 as [Hd Hr].
  cbn [map]. rewrite (Hc Hd), (IHr Hr). reflexivity.
Qed.

Lemma noAttachments_clean n : noAttachments n = true -> dirty serializeFragment n = false.
Proof.
  induction n as [x | t a cs IH] using Node_ind2.
  - intros _. reflexivity.
  - cbn [noAttachments]. intros H.
    apply andb_prop in H as [H H3]. apply andb_prop in H as [H1 H2].
    apply negb_true_iff in H1, H2.
    cbn [dirty]. unfold emptyGallery, staleCaption. rewrite H1, H2. cbn [andb orb].
    clear H1 H2. induction IH as [| c r Hc _ IHr]; [reflexivity |].
    cbn [forallb] in H3. apply andb_prop in H3 as [Hd Hr].
    cbn [existsb]. rewrite (Hc Hd), (IHr Hr). reflexivity.
Qed.

Lemma noAttachments_fixed cs :
  forallb noAttachments cs = true -> map R cs = cs.
Proof.
  induction cs as [| c r IH]; [reflexivity |].
  cbn [forallb]. intros H. apply andb_prop in H as [Hc Hr].
  cbn [map]. rewrite (clean_reconcile c (noAttachments_clean c Hc)), (IH Hr). reflexivity.
Qed.

Lemma paragraph_plain :
  isGallery P = false ∧ isFigure P = false ∧ nodeContent P = []
  ∧ wfNode (schema st) P = true ∧ typeName P = "paragraph".
Proof.
  destruct (paragraphOf_spec _ Hs) as (pt & pa & _ & HP & Hreg & Hn & Hc & Hb & Hd).
  subst P. rewrite HP. unfold isGallery, isFigure. cbn [typeName nodeContent]. rewrite Hn.
  repeat split.
  cbn [wfNode]. rewrite Hn, Hreg. unfold validContent. rewrite Hc.
  unfold isFigure. cbn [typeName]. rewrite Hn.
  rewrite !bool_decide_eq_true_2 by (reflexivity || assumption). reflexivity.
Qed.

Lemma wf_gallery_empty g :
  wfNode (schema st) g = true -> isGallery g = true ->
  emptyGallery g = bool_decide (nodeContent g = []).
Proof.
  intros Hw Hg. destruct g as [x | t a cs]; [discriminate |].
  pose proof (wf_gallery_type _ _ _ _ Hs Hw Hg) as ->.
  unfold emptyGallery. rewrite Hg. cbn [andb nodeContent].
  rewrite nodeSize_Elem. cbn [isLeafType AttachmentGallery content].
  apply wfNode_Elem in Hw as (_ & _ & _ & _ & Hwc).
  pose proof (wf_children_allPositive _ _ Hwc) as Hp.
  pose proof (fragmentSize_nonneg cs).
  destruct (bool_decide_reflect (cs = [])) as [-> | Hne].
  - reflexivity.
  - apply Z.eqb_neq. intros E. apply Hne. apply allPositive_size_0; [assumption | lia].
Qed.

Lemma reconcile_noEmptyGallery n :
  wfNode (schema st) n = true -> noEmptyGallery (R n) = true.
Proof.
  destruct paragraph_plain as (HPg & _ & HPc & _).
  induction n as [x | t a cs IH] using Node_ind2; [reflexivity |].
  intros Hw. subst R. cbn [reconcile].
  destruct (emptyGallery (Elem t a cs)) eqn:Eg.
  - fold P. destruct P as [x | pt pa pcs] eqn:EP; [reflexivity |].
    cbn [noEmptyGallery]. rewrite HPg. cbn [nodeContent] in HPc. subst pcs. reflexivity.
  - cbn [noEmptyGallery nodeContent]. apply andb_true_intro. split.
    + apply negb_true_iff.
      destruct (isGallery (Elem t a cs)) eqn:Hg.
      * rewrite (wf_gallery_empty _ Hw Hg) in Eg. cbn [nodeContent] in Eg.
        apply bool_decide_eq_false_1 in Eg.
        replace (isGallery (Elem t _ (map _ cs))) with true by (symmetry; exact Hg).
        cbn [andb]. apply bool_decide_eq_false_2. intros E. apply Eg.
        now apply map_eq_nil in E.
      * replace (isGallery (Elem t _ (map _ cs))) with false by (symmetry; exact Hg).
        reflexivity.
    + apply wfNode_Elem in Hw as (_ & _ & _ & _ & Hwc).
      rewrite forallb_forall. intros c' Hin. apply in_map_iff in Hin as (c & <- & Hin).
      rewrite Forall_forall in IH, Hwc. apply list_elem_of_In in Hin.
      apply IH; [assumption | now apply Hwc].
Qed.


Lemma reconcile_Elem t a cs :
  R (Elem t a cs)
  = if emptyGallery (Elem t a cs) then P
    else Elem t (if staleCaption serializeFragment (Elem t a cs)
                 then <["caption" := captionOf serializeFragment (Elem t a cs)]> a
                 else a) (map R cs).
Proof. reflexivity. Qed.

Lemma reconcile_isText n : isText (R n) = isText n.
Proof.
  destruct n as [x | t a cs]; [reflexivity |]. subst R. cbn [reconcile].
  destruct (emptyGallery _); [| reflexivity].
  destruct paragraph_plain as (_ & _ & _ & _ & Hn).
  fold P. destruct P; [discriminate | reflexivity].
Qed.

Lemma reconcile_kind n :
  emptyGallery n = false ->
  typeName (R n) = typeName n ∧ nodeGroups (R n) = nodeGroups n.
Proof.
  destruct n as [x | t a cs]; [split; reflexivity |]. intros Eg.
  subst R. cbn [reconcile]. rewrite Eg. split; reflexivity.
Qed.

Lemma reconcile_accepted t c :
  nodes (schema st) !! name t = Some t -> wfNode (schema st) c = true ->
  accepts t c = true -> accepts t (R c) = true.
Proof.
  intros Hreg Hw Hacc. destruct (emptyGallery c) eqn:Eg.
  - assert (Hg : isGallery c = true) by (unfold emptyGallery in Eg; now apply andb_prop in Eg).
    replace (R c) with P.
    + exact (gallery_parent_accepts _ t c Hs Hreg Hw Hg Hacc).
    + destruct c as [x | tc ac csc]; [discriminate |]. subst R. cbn [reconcile]. now rewrite Eg.
  - destruct (reconcile_kind c Eg) as [Hn Hg]. unfold accepts in *. now rewrite Hn, Hg.
Qed.

Lemma reconcile_wf n : wfNode (schema st) n = true -> wfNode (schema st) (R n) = true.
Proof.
  destruct paragraph_plain as (_ & _ & _ & HPw & _).
  induction n as [x | t a cs IH] using Node_ind2; [trivial |].
  intros Hw. pose proof (wfNode_Elem _ _ _ _ Hw) as (Hreg & Hv & Hd & Hfig & Hwc).
  rewrite reconcile_Elem. destruct (emptyGallery (Elem t a cs)) eqn:Eg; [exact HPw |].
  assert (Hwc' : Forall (λ c, wfNode (schema st) c = true) (map R cs)).
  { apply Forall_fmap. rewrite Forall_forall in IH, Hwc. apply Forall_forall.
    intros c Hc. cbn. apply IH; [assumption | now apply Hwc]. }
  assert (Hv' : validContent t (map R cs) = true).
  { unfold validContent in *. destruct (content t) eqn:Ec.
    - apply bool_decide_eq_true_1 in Hv. subst cs. reflexivity.
    - rewrite forallb_forall in *. intros c' Hin. apply in_map_iff in Hin as (c & <- & Hin).
      rewrite Forall_forall in Hwc.
      apply reconcile_accepted; [assumption | apply Hwc; now apply list_elem_of_In | now apply Hv].
    - apply andb_prop in Hv as [Hne Hv]. apply andb_true_intro. split.
      + apply negb_true_iff, bool_decide_eq_false_2.
        apply negb_true_iff, bool_decide_eq_false_1 in Hne.
        intros E. apply Hne. now apply map_eq_nil in E.
      + rewrite forallb_forall in *. intros c' Hin. apply in_map_iff in Hin as (c & <- & Hin).
        rewrite Forall_forall in Hwc.
        apply reconcile_accepted; [assumption | apply Hwc; now apply list_elem_of_In | now apply Hv]. }
  cbn [wfNode]. rewrite Hv'.
  rewrite (bool_decide_eq_true_2 _ Hreg).
  replace (forallb (wfNode (schema st)) (map R cs)) with true
    by (symmetry; apply forallb_forall; intros c Hc; rewrite Forall_forall in Hwc';
        apply Hwc'; now apply list_elem_of_In).
  replace (isFigure (Elem t _ (map R cs))) with (isFigure (Elem t a cs)) by reflexivity.
  destruct (isFigure (Elem t a cs)) eqn:Ef.
  - destruct (Hfig eq_refl) as [Hty Hna].
    pose proof (wf_figure_type _ _ _ _ Hs Hw Ef) as ->.
    rewrite (noAttachments_fixed cs Hna), Hna.
    unfold staleCaption. rewrite Ef. cbn [andb].
    destruct (strict_ne _ _).
    + rewrite bool_decide_eq_true_2.
      * unfold typedFigure in *. rewrite !lookup_insert_ne by discriminate. now rewrite Hty.
      * rewrite dom_insert_L, Hd.
        assert ("caption" ∈ dom (attrSpecs AttachmentFigure))
          by (apply elem_of_dom; eexists; reflexivity).
        set_solver.
    + rewrite (bool_decide_eq_true_2 _ Hd), Hty. reflexivity.
  - unfold staleCaption. rewrite Ef. cbn [andb].
    rewrite (bool_decide_eq_true_2 _ Hd). reflexivity.
Qed.

Lemma reconcile_clean n :
  wfNode (schema st) n = true -> dirty serializeFragment (R n) = false.
Proof.
  destruct paragraph_plain as (HPg & HPf & HPc & _ & _).
  induction n as [x | t a cs IH] using Node_ind2.
  - intros _. reflexivity.
  - intros Hw. pose proof (wfNode_Elem _ _ _ _ Hw) as (Hreg & Hv & Hd & Hfig & Hwc).
    pose proof (reconcile_size serializeFragment st Hs (Elem t a cs)) as Hsz.
    fold P in Hsz. fold R in Hsz. rewrite reconcile_Elem in Hsz |- *.
    assert (Hch : existsb (dirty serializeFragment) (map R cs) = false).
    { clear Hsz Hw Hv Hfig. induction IH as [| c r Hc _ IHr]; [reflexivity |].
      apply Forall_cons in Hwc as [Hwc1 Hwc2].
      cbn [map existsb]. rewrite (Hc Hwc1), (IHr Hwc2). reflexivity. }
    destruct (emptyGallery (Elem t a cs)) eqn:Eg.
    + clear Hsz. destruct P as [x | pt pa pcs] eqn:EP; [reflexivity |].
      cbn [dirty]. unfold emptyGallery, staleCaption. rewrite HPg, HPf.
      cbn [nodeContent] in HPc. subst pcs. reflexivity.
    + cbn [dirty]. rewrite Hch, orb_false_r.
      apply orb_false_intro.
      * unfold emptyGallery in *.
        replace (isGallery (Elem t _ (map _ cs))) with (isGallery (Elem t a cs)) by reflexivity.
        destruct (isGallery (Elem t a cs)); [| reflexivity].
        cbn [andb] in *. now rewrite Hsz.
      * unfold staleCaption at 1.
        replace (isFigure (Elem t _ (map _ cs))) with (isFigure (Elem t a cs)) by reflexivity.
        destruct (isFigure (Elem t a cs)) eqn:Ef; [| reflexivity].
        destruct (Hfig eq_refl) as [_ Hna].
        cbn [andb nodeAttrs]. unfold captionOf. cbn [nodeContent].
        rewrite (noAttachments_fixed cs Hna).
        unfold staleCaption. rewrite Ef. cbn [andb nodeAttrs]. unfold captionOf. cbn [nodeContent].
        destruct (strict_ne (a !! "caption") _) eqn:Ene.
        -- rewrite lookup_insert_eq. unfold strict_ne.
           now rewrite bool_decide_eq_true_2.
        -- exact Ene.
Qed.

End Pass.

(** ** Looking up nodes by position *)

Lemma nodeAt_wf s d :
  wfNode s d = true -> ∀ p g, nodeAt d p = Ok (Some g) -> wfNode s g = true.
Proof.
  induction d as [x | t a cs IH] using Node_ind2.
  - intros _ p g. cbn [nodeAt]. destruct (_ || _); discriminate.
  - intros Hw p g. apply wfNode_Elem in Hw as (_ & _ & _ & _ & Hwc).
    rewrite nodeAt_Elem. destruct (_ || _); [discriminate |].
    generalize 0 as cur.
    induction IH as [| c r Hc _ IHr]; intros cur; cbn [nodeAtIn]; [discriminate |].
    apply Forall_cons in Hwc as [Hw1 Hw2].
    destruct (cur =? p); [now intros [= <-] |].
    destruct (p <? cur + nodeSize c); [| now apply IHr].
    destruct (isText c); [now intros [= <-] |]. now apply Hc.
Qed.

Lemma setAttrsAt_size a' d : ∀ p, nodeSize (setAttrsAt a' d p) = nodeSize d.
Proof.
  induction d as [x | t a cs IH] using Node_ind2; intros p; [reflexivity |].
  cbn [setAttrsAt]. rewrite !nodeSize_Elem. destruct (isLeafType t); [reflexivity |].
  f_equal. generalize 0 as cur.
  induction IH as [| c r Hc _ IHr]; intros cur; cbn [setAttrsIn]; [reflexivity |].
  destruct (cur =? p).
  - cbn [fragmentSize]. f_equal. destruct c; [reflexivity |]. now rewrite !nodeSize_Elem.
  - destruct (p <? cur + nodeSize c); cbn [fragmentSize]; [now rewrite Hc |].
    now rewrite IHr.
Qed.

(** After [setAttrsAt] the node at the position has the new attributes
    and is otherwise the same. *)
Lemma nodeAt_setAttrsAt a' d :
  ∀ p t a cs,
    nodeAt d p = Ok (Some (Elem t a cs)) ->
    nodeAt (setAttrsAt a' d p) p = Ok (Some (Elem t a' cs)).
Proof.
  induction d as [x | t0 a0 cs0 IH] using Node_ind2; intros p t a cs.
  - cbn [nodeAt]. destruct (_ || _); discriminate.
  - pose proof (setAttrsAt_size a' (Elem t0 a0 cs0) p) as Hsz.
    cbn [setAttrsAt] in *. rewrite !nodeSize_Elem in Hsz.
    rewrite !nodeAt_Elem.
    assert (Hf : fragmentSize (setAttrsIn (setAttrsAt a') p a' cs0 0) = fragmentSize cs0)
      by (destruct (isLeafType t0); [| lia];
          clear; generalize 0 as cur; induction cs0 as [| c r IHr]; intros cur;
          cbn [setAttrsIn]; [reflexivity |];
          destruct (cur =? p);
          [cbn [fragmentSize]; f_equal; destruct c; [reflexivity | now rewrite !nodeSize_Elem] |];
          destruct (p <? cur + nodeSize c); cbn [fragmentSize];
          [now rewrite setAttrsAt_size | now rewrite IHr]).
    rewrite Hf. destruct (_ || _); [discriminate |]. clear Hsz Hf.
    generalize 0 as cur.
    induction IH as [| c r Hc _ IHr]; intros cur; cbn [nodeAtIn setAttrsIn]; [discriminate |].
    destruct (Z.eqb_spec cur p) as [-> | Hne].
    + intros [= ->]. cbn [nodeAtIn withAttrs]. now rewrite Z.eqb_refl.
    + destruct (Z.ltb_spec p (cur + nodeSize c)) as [Hlt | Hge].
      * destruct c as [x | tc ac csc]; [discriminate |]. cbn [isText].
        intros H. cbn [nodeAtIn]. rewrite setAttrsAt_size.
        destruct (Z.eqb_spec cur p); [contradiction |].
        destruct (Z.ltb_spec p (cur + nodeSize (Elem tc ac csc))); [| lia].
        change (isText (setAttrsAt a' (Elem tc ac csc) (p - cur - 1))) with false. cbn iota.
        eapply Hc. exact H.
      * intros H. cbn [nodeAtIn].
        destruct (Z.eqb_spec cur p); [contradiction |].
        destruct (Z.ltb_spec p (cur + nodeSize c)); [lia |]. now apply IHr.
Qed.

Lemma nodeAt_dirty sf d :
  ∀ p g, nodeAt d p = Ok (Some g) -> dirty sf g = true ->
         existsb (dirty sf) (nodeContent d) = true.
Proof.
  induction d as [x | t a cs IH] using Node_ind2; intros p g.
  - cbn [nodeAt]. destruct (_ || _); discriminate.
  - rewrite nodeAt_Elem. destruct (_ || _); [discriminate |]. cbn [nodeContent].
    generalize 0 as cur.
    induction IH as [| c r Hc _ IHr]; intros cur; cbn [nodeAtIn existsb]; [discriminate |].
    destruct (cur =? p); [intros [= <-] ->; reflexivity |].
    destruct (p <? cur + nodeSize c).
    + destruct (isText c) eqn:Et; [intros [= <-] ->; reflexivity |].
      intros H Hd. apply orb_true_iff. left.
      destruct c as [x | tc ac csc]; [discriminate |].
      cbn [dirty]. pose proof (Hc _ _ H Hd) as Hx. cbn [nodeContent] in Hx.
      rewrite Hx. apply orb_true_r.
    + intros H Hd. apply orb_true_iff. right. eapply IHr; eassumption.
Qed.

Lemma stepsIn_elem rec cs start st :
  st ∈ stepsIn rec cs start ->
  ∃ d1 c d2, cs = d1 ++ c :: d2 ∧ st ∈ rec c (start + fragmentSize d1).
Proof.
  revert start. induction cs as [| c r IH]; intros start; cbn [stepsIn].
  - intros H. now apply elem_of_nil in H.
  - intros H. apply elem_of_app in H as [H | H].
    + exists [], c, r. split; [reflexivity |]. cbn. now replace (start + 0) with start by lia.
    + destruct (IH _ H) as (d1 & c' & d2 & -> & Hin).
      exists (c :: d1), c', d2. split; [reflexivity |].
      cbn [fragmentSize]. now replace (start + (nodeSize c + fragmentSize d1))
                            with (start + nodeSize c + fragmentSize d1) by lia.
Qed.

Section Targets.

Variable serializeFragment : list Node -> string.
Variable st : EditorState.
Hypothesis Hs : wfSchema (schema st) = true.

Local Abbreviation P := (paragraphOf (schema st)).
Local Abbreviation R := (reconcile serializeFragment (paragraphOf (schema st))).

Lemma nodeAt_reconcile d :
  wfNode (schema st) d = true ->
  ∀ p, nodeAt (R d) p
       = match nodeAt d p with Ok o => Ok (R <$> o) | Throw e => Throw e end.
Proof.
  induction d as [x | t a cs IH] using Node_ind2; intros Hw p.
  - cbn. destruct (_ || _); reflexivity.
  - pose proof (reconcile_size serializeFragment st Hs (Elem t a cs)) as Hsz.
    rewrite reconcile_Elem in Hsz |- *.
    destruct (emptyGallery (Elem t a cs)) eqn:Eg.
    + assert (Hg : isGallery (Elem t a cs) = true)
        by (unfold emptyGallery in Eg; now apply andb_prop in Eg).
      rewrite (wf_gallery_empty st Hs _ Hw Hg) in Eg.
      apply bool_decide_eq_true_1 in Eg. cbn [nodeContent] in Eg. subst cs.
      destruct (paragraph_plain st Hs) as (_ & _ & HPc & _ & HPn).
      destruct P as [x | pt pa pcs]; [discriminate |]. cbn [nodeContent] in HPc. subst pcs.
      rewrite !nodeAt_Elem. cbn [fragmentSize nodeAtIn]. destruct (_ || _); reflexivity.
    + apply wfNode_Elem in Hw as (_ & _ & _ & _ & Hwc).
      rewrite !nodeAt_Elem.
      rewrite (reconcile_fragmentSize serializeFragment st Hs cs).
      destruct (_ || _); [reflexivity |]. clear Hsz Eg.
      generalize 0 as cur.
      induction IH as [| c r Hc _ IHr]; intros cur; cbn [map nodeAtIn]; [reflexivity |].
      apply Forall_cons in Hwc as [Hw1 Hw2].
      rewrite (reconcile_size serializeFragment st Hs c).
      destruct (cur =? p); [reflexivity |].
      destruct (p <? cur + nodeSize c); [| now apply IHr].
      rewrite (reconcile_isText serializeFragment st Hs c).
      destruct (isText c) eqn:Et; [| now apply Hc].
      destruct c; [reflexivity | discriminate].
Qed.

(** Every step of the pass points at an empty gallery or at a figure
    of the document. *)
Lemma stepsOfNode_target n :
  ∀ fs t a l1 l2 s,
    wfNode (schema st) n = true -> framesOk fs -> isLeafType t = false ->
    allPositive l1 ->
    s ∈ stepsOfNode serializeFragment P n (plugStart fs + fragmentSize l1) ->
    ∃ g, nodeAt (plug fs (Elem t a (l1 ++ n :: l2))) (stepPos s) = Ok (Some g)
         ∧ (isGallery g = true ∨ isFigure g = true).
Proof.
  induction n as [x | tn an cs IH] using Node_ind2; intros fs t a l1 l2 s Hw Hfs Hl Hp1.
  - cbn. intros H. now apply elem_of_nil in H.
  - pose proof (fragmentSize_nonneg l1). pose proof (fragmentSize_nonneg (Elem tn an cs :: l2)).
    assert (Hhere : nodeAt (plug fs (Elem t a (l1 ++ Elem tn an cs :: l2)))
                      (plugStart fs + fragmentSize l1) = Ok (Some (Elem tn an cs))).
    { rewrite nodeAt_plug; [now apply nodeAt_child | assumption | exact Hl |].
      rewrite contentSize_Elem, fragmentSize_app. lia. }
    cbn [stepsOfNode]. unfold ownSteps. intros Hin.
    apply elem_of_app in Hin as [Hin | Hin].
    + apply elem_of_app in Hin as [Hin | Hin].
      * destruct (emptyGallery (Elem tn an cs)) eqn:Eg; [| now apply elem_of_nil in Hin].
        apply list_elem_of_singleton in Hin. subst s. cbn [stepPos].
        eexists. split; [exact Hhere |]. left.
        unfold emptyGallery in Eg. now apply andb_prop in Eg.
      * destruct (staleCaption serializeFragment (Elem tn an cs)) eqn:Est;
          [| now apply elem_of_nil in Hin].
        apply list_elem_of_singleton in Hin. subst s. cbn [stepPos].
        eexists. split; [exact Hhere |]. right.
        unfold staleCaption in Est. now apply andb_prop in Est.
    + apply stepsIn_elem in Hin as (d1 & c & d2 & -> & Hin).
      destruct (isLeafType tn) eqn:Eleaf.
      { pose proof (wf_leaf_childless st _ _ _ Hw Eleaf) as E.
        now destruct d1. }
      pose proof (wfNode_Elem _ _ _ _ Hw) as (_ & _ & _ & _ & Hwc).
      apply Forall_app in Hwc as [Hwd1 Hwc]. apply Forall_cons in Hwc as [Hwcc _].
      apply Forall_app in IH as [_ IH]. apply Forall_cons in IH as [IHc _].
      pose (fr := {| ftype := t; fattrs := a; fpre := l1; fpost := l2 |}).
      destruct (IHc (fs ++ [fr]) tn an d1 d2 s Hwcc) as (g & Hg & Hk).
      * apply framesOk_app; assumption.
      * assumption.
      * exact (wf_children_allPositive _ _ Hwd1).
      * rewrite plugStart_app. cbn [fpre fr].
        now replace (plugStart fs + fragmentSize l1 + 1 + fragmentSize d1)
          with (plugStart fs + fragmentSize l1 + 1 + fragmentSize d1) by lia.
      * exists g. rewrite plug_app in Hg. cbn [ftype fattrs fpre fpost fr] in Hg. auto.
Qed.

Lemma stepsOf_target t a cs s :
  wfNode (schema st) (Elem t a cs) = true -> isLeafType t = false ->
  s ∈ stepsOf serializeFragment P cs 0 ->
  ∃ g, nodeAt (Elem t a cs) (stepPos s) = Ok (Some g)
       ∧ (isGallery g = true ∨ isFigure g = true).
Proof.
  intros Hw Hl Hin. apply stepsIn_elem in Hin as (d1 & c & d2 & -> & Hin).
  pose proof (wfNode_Elem _ _ _ _ Hw) as (_ & _ & _ & _ & Hwc).
  apply Forall_app in Hwc as [Hwd1 Hwc]. apply Forall_cons in Hwc as [Hwcc _].
  apply (stepsOfNode_target c [] t a d1 d2 s Hwcc); try assumption.
  - constructor.
  - exact (wf_children_allPositive _ _ Hwd1).
Qed.

End Targets.

Lemma setNodeMarkup_at t a cs vals a' pos tr :
  nodeAt (doc tr) pos = Ok (Some (Elem t a cs)) ->
  isLeafType t = false -> validContent t cs = true ->
  computeAttrs (attrSpecs t) vals = Ok a' ->
  setNodeMarkup pos vals tr
  = Ok (tt, {| doc := setAttrsAt a' (doc tr) pos;
               steps := steps tr ++ [ReplaceAroundStep pos t a'];
               selectionSet := selectionSet tr |}).
Proof.
  intros Hn Hl Hv Hc. unfold setNodeMarkup, create.
  rewrite Hn. cbn [rbind]. rewrite Hc. cbn [rbind]. rewrite Hl, Hv. reflexivity.
Qed.

Section PassClaims.

Variable JSON_stringify : object -> string.
Variable serializeFragment : list Node -> string.
Variable outerHTML : Dom -> string.

Local Abbreviation pass := (appendTransaction JSON_stringify serializeFragment outerHTML).
Local Abbreviation R s := (reconcile serializeFragment (paragraphOf s)).

Lemma committed_reconciled st :
  wfSchema (schema st) = true -> wfDoc (schema st) (state_doc st) = true ->
  ∃ r, pass st = Ok r
       ∧ from_option doc (state_doc st) r = R (schema st) (state_doc st)
       ∧ (is_Some r <-> dirty serializeFragment (state_doc st) = true)
       ∧ (∀ tr, r = Some tr ->
                steps tr = stepsOf serializeFragment (paragraphOf (schema st))
                             (nodeContent (state_doc st)) 0).
Proof.
  intros Hs Hd. rewrite (appendTransaction_spec _ _ _ st Hs Hd).
  eexists. split; [reflexivity |].
  destruct (dirty serializeFragment (state_doc st)) eqn:Ed; cbn.
  - repeat split; eauto. intros tr [= <-]. reflexivity.
  - split; [symmetry; now apply clean_reconcile |].
    split; [split; [intros [? ?] |]; discriminate | discriminate].
Qed.

(** C1. After the pass no gallery without children is left: each one
    found in the document has been replaced, at its position, by the
    empty paragraph of the schema. *)
Theorem empty_galleries_collapsed st :
  wfSchema (schema st) = true -> wfDoc (schema st) (state_doc st) = true ->
  ∃ r, pass st = Ok r
       ∧ let committed := from_option doc (state_doc st) r in
         noEmptyGallery committed = true
         ∧ typeName (paragraphOf (schema st)) = "paragraph"
         ∧ nodeContent (paragraphOf (schema st)) = []
         ∧ ∀ pos g,
             nodeAt (state_doc st) pos = Ok (Some g) ->
             isGallery g = true -> nodeContent g = [] ->
             is_Some r
             ∧ nodeAt committed pos = Ok (Some (paragraphOf (schema st))).
Proof.
  intros Hs Hd. destruct (committed_reconciled st Hs Hd) as (r & Hr & Hc & Hdirty & _).
  exists r. split; [exact Hr |]. cbn zeta. rewrite Hc.
  destruct (wfDoc_parts st _ Hd) as (t & a & cs & E & Hw & Hl & Hg & Hf).
  destruct (paragraph_plain st Hs) as (_ & _ & HPc & _ & HPn).
  split; [now apply reconcile_noEmptyGallery |].
  split; [assumption |]. split; [assumption |].
  intros pos g Hat Hgal Hnil.
  pose proof (nodeAt_wf _ _ Hw _ _ Hat) as Hwg.
  assert (Eg : emptyGallery g = true).
  { rewrite (wf_gallery_empty st Hs g Hwg Hgal). now apply bool_decide_eq_true_2. }
  split.
  - apply Hdirty. destruct (reconcile_root serializeFragment st _ Hg Hf) as [_ ->].
    apply (nodeAt_dirty serializeFragment _ pos g Hat).
    destruct g; cbn [dirty]; now rewrite Eg.
  - rewrite (nodeAt_reconcile serializeFragment st Hs _ Hw), Hat. cbn.
    destruct g as [x | tg ag csg]; [discriminate |]. cbn [reconcile]. now rewrite Eg.
Qed.

(** C6. The pass is idempotent: run on the state it leaves, it emits
    no transaction. *)
Theorem pass_idempotent st sel :
  wfSchema (schema st) = true -> wfDoc (schema st) (state_doc st) = true ->
  ∃ r, pass st = Ok r
       ∧ pass {| state_doc := from_option doc (state_doc st) r;
                 selection := sel;
                 schema := schema st |} = Ok None.
Proof.
  intros Hs Hd. destruct (committed_reconciled st Hs Hd) as (r & Hr & Hc & _).
  exists r. split; [exact Hr |]. rewrite Hc.
  destruct (wfDoc_parts st _ Hd) as (t & a & cs & E & Hw & Hl & Hg & Hf).
  set (st' := {| state_doc := R (schema st) (state_doc st); selection := sel;
                 schema := schema st |}).
  assert (Hd' : wfDoc (schema st') (state_doc st') = true).
  { cbn [schema state_doc st']. unfold wfDoc.
    rewrite (reconcile_wf serializeFragment st Hs _ Hw).
    destruct (reconcile_root serializeFragment st _ Hg Hf) as [-> _].
    rewrite E in *. cbn [isLeaf]. rewrite Hl.
    replace (isGallery (Elem t a (map _ cs))) with (isGallery (Elem t a cs)) by reflexivity.
    replace (isFigure (Elem t a (map _ cs))) with (isFigure (Elem t a cs)) by reflexivity.
    now rewrite Hg, Hf. }
  rewrite (appendTransaction_spec _ _ _ st' Hs Hd'). cbn [state_doc st'].
  now rewrite (reconcile_clean serializeFragment st Hs _ Hw).
Qed.

(** C10. A node that is neither a gallery nor a figure is left alone:
    both checks return without a step, no step of the appended
    transaction is at its position, and it keeps its type and its
    attributes. *)
Theorem other_nodes_untouched st pos n :
  wfSchema (schema st) = true -> wfDoc (schema st) (state_doc st) = true ->
  nodeAt (state_doc st) pos = Ok (Some n) ->
  isGallery n = false -> isFigure n = false ->
  (∀ p tr0,
      handleGallery n st p tr0 = Ok (false, tr0)
      ∧ handleCaptions JSON_stringify serializeFragment outerHTML n st p tr0
        = Ok (false, tr0))
  ∧ ∀ tr,
      pass st = Ok (Some tr) ->
      Forall (λ s, stepPos s ≠ pos) (steps tr)
      ∧ ∃ n', nodeAt (doc tr) pos = Ok (Some n')
              ∧ typeName n' = typeName n ∧ nodeAttrs n' = nodeAttrs n.
Proof.
  intros Hs Hd Hat Hg Hf. split.
  - intros p tr0. split.
    + apply handleGallery_skip. unfold emptyGallery. now rewrite Hg.
    + now apply handleCaptions_skip.
  - intros tr Hpass.
    destruct (committed_reconciled st Hs Hd) as (r & Hr & Hc & _ & Hsteps).
    rewrite Hpass in Hr. injection Hr as <-. cbn [from_option] in Hc.
    specialize (Hsteps tr eq_refl).
    destruct (wfDoc_parts st _ Hd) as (t & a & cs & E & Hw & Hl & Hg0 & Hf0).
    split.
    + apply Forall_forall. intros s Hin Heq. rewrite Hsteps, E in Hin. cbn [nodeContent] in Hin.
      rewrite E in Hw.
      destruct (stepsOf_target serializeFragment st t a cs s Hw Hl Hin)
        as (g & Hg' & Hk).
      rewrite Heq, <- E, Hat in Hg'. injection Hg' as <-.
      destruct Hk; congruence.
    + rewrite Hc, (nodeAt_reconcile serializeFragment st Hs _ Hw), Hat. cbn.
      eexists. split; [reflexivity |].
      destruct n as [x | tn an csn]; [split; reflexivity |].
      rewrite reconcile_Elem. unfold emptyGallery, staleCaption. rewrite Hg, Hf.
      split; reflexivity.
Qed.

(** C2. For a figure whose stored caption differs from the markup of
    the caption element of its rendering, the caption check rewrites
    the [caption] attribute to that markup, in one step: the node
    found at the position afterwards is a figure with the same
    content whose [caption] is that markup and whose other attributes
    are those of the figure before. *)
Theorem caption_sync_rewrites_only_caption st f pos tr rendered fc :
  wfSchema (schema st) = true -> wfNode (schema st) f = true ->
  isFigure f = true ->
  nodeAt (doc tr) pos = Ok (Some f) ->
  serializeNode JSON_stringify serializeFragment f = Ok rendered ->
  querySelector "figcaption" (DElem "div" ∅ [rendered]) = Some fc ->
  nodeAttrs f !! "caption" ≠ Some (VStr (innerHTML outerHTML fc)) ->
  ∃ tr' a',
    handleCaptions JSON_stringify serializeFragment outerHTML f st pos tr = Ok (true, tr')
    ∧ nodeAt (doc tr') pos = Ok (Some (Elem AttachmentFigure a' (nodeContent f)))
    ∧ a' !! "caption" = Some (VStr (innerHTML outerHTML fc))
    ∧ (∀ k, k ≠ "caption" -> a' !! k = nodeAttrs f !! k)
    ∧ steps tr' = steps tr ++ [ReplaceAroundStep pos AttachmentFigure a'].
Proof.
  intros Hs Hw Hf Hat Hser Hq Hne.
  destruct f as [x | t a cs]; [discriminate |].
  pose proof (wf_figure_type _ _ _ _ Hs Hw Hf) as ->.
  pose proof (wfNode_Elem _ _ _ _ Hw) as (_ & Hv & Hd & _).
  set (a' := <["caption" := VStr (innerHTML outerHTML fc)]> a).
  assert (Hdom : dom a' = dom (attrSpecs AttachmentFigure)).
  { subst a'. rewrite dom_insert_L, Hd.
    assert ("caption" ∈ dom (attrSpecs AttachmentFigure))
      by (apply elem_of_dom; eexists; reflexivity).
    set_solver. }
  exists {| doc := setAttrsAt a' (doc tr) pos;
            steps := steps tr ++ [ReplaceAroundStep pos AttachmentFigure a'];
            selectionSet := selectionSet tr |}, a'.
  split.
  - unfold handleCaptions. fold (isFigure (Elem AttachmentFigure a cs)). rewrite Hf.
    cbn [negb]. unfold bind at 1, lift. rewrite Hser, Hq. cbn [nodeAttrs].
    unfold strict_ne. rewrite bool_decide_eq_false_2 by exact Hne. cbn [negb].
    unfold bind. fold a'.
    rewrite (setNodeMarkup_at AttachmentFigure a cs a' a' pos tr Hat eq_refl Hv
               (computeAttrs_conform _ _ Hdom)).
    reflexivity.
  - cbn [doc steps nodeContent].
    split; [now apply (nodeAt_setAttrsAt a' (doc tr) pos _ a cs) |].
    split; [apply lookup_insert_eq |].
    split; [| reflexivity].
    intros k Hk. cbn [nodeAttrs]. subst a'. now rewrite lookup_insert_ne.
Qed.

End PassClaims.

(** ** Rendering a figure and parsing it back *)

Lemma lookup_objectOf l k : objectOf l !! k = lookupEntries k l.
Proof.
  unfold objectOf. induction l as [| [k0 o] r IH]; [apply lookup_empty |].
  cbn [omap list_omap lookupEntries fst snd]. destruct o as [v |]; cbn.
  - destruct (String.eqb_spec k k0) as [-> | Hne].
    + apply lookup_insert_eq.
    + rewrite lookup_insert_ne by congruence. exact IH.
  - destruct (String.eqb k k0); exact IH.
Qed.

Lemma getAttrs_collect ps element rs :
  Forall2 (λ p r, p.1 = r.1 ∧ p.2 element = Ok r.2) ps rs ->
  ∀ items, getAttrs ps element items = Ok (collect items rs).
Proof.
  induction 1 as [| [nm parse] [k v] ps rs [H1 H2] _ IH]; intros items; [reflexivity |].
  cbn [fst snd] in *. subst k. cbn [getAttrs]. rewrite H2. cbn [rbind].
  unfold collect. cbn [fold_left fst snd].
  destruct v as [[| | |] |]; apply IH.
Qed.

Lemma entry_None k rs : k ∉ rs.*1 -> entry k rs = None.
Proof.
  induction rs as [| [k0 v] r IH]; [reflexivity |].
  cbn [fmap list_fmap fst entry]. intros Hn.
  apply not_elem_of_cons in Hn as [Hne Hn].
  destruct (String.eqb_spec k0 k); [congruence | now apply IH].
Qed.

Lemma lookup_collect rs :
  NoDup (rs.*1) ->
  ∀ items k,
    collect items rs !! k
    = match entry k rs with
      | Some v => match present v with Some x => Some x | None => items !! k end
      | None => items !! k
      end.
Proof.
  induction rs as [| [k0 v] rs IH]; intros Hnd items k; [reflexivity |].
  cbn [fmap list_fmap fst] in Hnd. apply NoDup_cons in Hnd as [Hnotin Hnd].
  unfold collect in *. cbn [fold_left fst snd entry]. rewrite (IH Hnd).
  destruct (String.eqb_spec k0 k) as [-> | Hne].
  - rewrite (entry_None _ _ Hnotin).
    destruct v as [[| | |] |]; cbn; rewrite ?lookup_insert_eq; reflexivity.
  - destruct (entry k rs) as [v' |].
    + destruct (present v'); [reflexivity |].
      destruct v as [[| | |] |]; rewrite ?lookup_insert_ne by assumption; reflexivity.
    + destruct v as [[| | |] |]; rewrite ?lookup_insert_ne by assumption; reflexivity.
Qed.

Lemma figure_specs_default :
  map_Forall (λ (_ : string) (d : option value), is_Some d) (attrSpecs AttachmentFigure).
Proof. refine (bool_decide_unpack _ _). vm_compute. exact I. Qed.

(** Parsed values completed with the defaults of the figure type. *)
Lemma computeAttrs_figure (values : object) :
  ∃ D, computeAttrs (attrSpecs AttachmentFigure) values = Ok D
       ∧ ∀ k, D !! k = match attrSpecs AttachmentFigure !! k with
                       | Some d => match values !! k with Some v => Some v | None => d end
                       | None => None
                       end.
Proof.
  unfold computeAttrs. rewrite bool_decide_eq_true_2.
  - eexists. split; [reflexivity |]. intros k. rewrite lookup_merge.
    destruct (attrSpecs AttachmentFigure !! k), (values !! k); reflexivity.
  - intros k d Hk. left. exact (figure_specs_default k d Hk).
Qed.

Section Codec.

Variable JSON_stringify : object -> string.
Variable JSON_parse : string -> result (option object).
Variable serializeFragment : list Node -> string.
Variable outerHTML : Dom -> string.
Variable fromString : string -> value.

Hypothesis JSON_roundtrip : ∀ o, JSON_parse (JSON_stringify o) = Ok (Some o).
Hypothesis JSON_nonempty : ∀ o, JSON_stringify o ≠ "".

Lemma parsedObject_roundtrip o : parsedObject JSON_parse (JSON_stringify o) = Ok o.
Proof. unfold parsedObject. now rewrite JSON_roundtrip. Qed.

Local Abbreviation payload a := (JSON_stringify (attachmentAttrs a)).

(** The rendered figure: its tag, the payload attribute, and the
    caption element. *)
Lemma rendered_figure t a cs rendered :
  serializeNode JSON_stringify serializeFragment (Elem t a cs) = Ok rendered ->
  tagOf rendered = Some "figure"
  ∧ getAttribute rendered "data-trix-attachment" = Some (payload a)
  ∧ getAttribute rendered "attachmentId" = None
  ∧ getAttribute rendered "progress" = None
  ∧ ∃ fc, querySelector "figcaption" rendered = Some fc
          ∧ innerHTML outerHTML fc = serializeFragment cs.
Proof.
  unfold serializeNode, renderHTML. cbn [nodeAttrs nodeContent].
  destruct (figureClass optionsClass a) as [cls |]; [| discriminate]. cbn [rbind].
  set (b := objectOf _).
  assert (Hb : ∀ k, b !! k = lookupEntries k
                 [("class", Some (VStr cls));
                  ("data-trix-content-type", a !! "contentType");
                  ("data-trix-attachment", Some (VStr (payload a)));
                  ("data-trix-attributes",
                    Some (VStr (JSON_stringify
                                  (objectOf [("caption", a !! "caption");
                                             ("presentation", Some (VStr "gallery"))]))))])
    by (intros k; apply lookup_objectOf).
  assert (Hm : ∀ k, k ≠ "class" ->
               mergeAttributes (optionsHTMLAttributes JSON_stringify) b !! k
               = union_with (λ x _, Some x) (b !! k)
                   (optionsHTMLAttributes JSON_stringify !! k)).
  { intros k Hk. unfold mergeAttributes.
    destruct (optionsHTMLAttributes JSON_stringify !! "class"), (b !! "class");
      try destruct (truthy _);
      rewrite ?lookup_insert_ne by congruence; apply lookup_union. }
  assert (H1 : mergeAttributes (optionsHTMLAttributes JSON_stringify) b
                 !! "data-trix-attachment" = Some (VStr (payload a))).
  { rewrite Hm by discriminate. rewrite Hb. reflexivity. }
  assert (H2 : mergeAttributes (optionsHTMLAttributes JSON_stringify) b
                 !! "attachmentId" = None).
  { rewrite Hm by discriminate. rewrite Hb. reflexivity. }
  assert (H3 : mergeAttributes (optionsHTMLAttributes JSON_stringify) b
                 !! "progress" = None).
  { rewrite Hm by discriminate. rewrite Hb. reflexivity. }
  destruct (negb (truthy (a !! "content"))); intros [= <-];
    cbn [renderSpec tagOf getAttribute map];
    rewrite !lookup_omap, H1, H2, H3;
    (repeat split; try reflexivity);
    eexists; (split; [reflexivity |]); cbn; apply append_empty_r.
Qed.


Lemma closest_none sel (e : Element) :
  sel (self e) = false -> Forall (λ d, sel d = false) (ancestors e) ->
  closest sel e = None.
Proof.
  intros H1 H2. unfold closest. cbn [find]. rewrite H1.
  induction H2 as [| d r Hd _ IH]; [reflexivity |]. cbn [find]. now rewrite Hd.
Qed.

Lemma findAttribute_rendered t a cs rendered anc k :
  serializeNode JSON_stringify serializeFragment (Elem t a cs) = Ok rendered ->
  Forall (λ d, hasTag "action-text-attachment" d = false) anc ->
  findAttribute JSON_parse {| self := rendered; ancestors := anc |} k
  = Ok (attachmentAttrs a !! k).
Proof.
  intros Hser Hanc.
  destruct (rendered_figure t a cs rendered Hser) as (Htag & Hpay & _).
  unfold findAttribute. rewrite closest_none; [| | exact Hanc].
  2: { cbn [self]. unfold hasTag. rewrite Htag. reflexivity. }
  cbn [mbind option_bind fmap option_fmap option_map truthy].
  assert (Hc : closest (hasTagWithAttr "figure" "data-trix-attachment")
                 {| self := rendered; ancestors := anc |} = Some rendered).
  { unfold closest. cbn [self find]. unfold hasTagWithAttr, hasTag.
    rewrite Htag, Hpay. reflexivity. }
  rewrite Hc. cbn [mbind option_bind]. rewrite Hpay.
  cbn [fmap option_fmap option_map truthy default].
  rewrite (bool_decide_eq_false_2 _ (JSON_nonempty _)). cbn [negb]. unfold id.
  rewrite parsedObject_roundtrip. reflexivity.
Qed.

Lemma attachmentAttrs_lookup a :
  attachmentAttrs a !! "caption" = a !! "caption"
  ∧ attachmentAttrs a !! "contentType" = a !! "contentType"
  ∧ attachmentAttrs a !! "content" = a !! "content"
  ∧ attachmentAttrs a !! "filename" = a !! "fileName"
  ∧ attachmentAttrs a !! "filesize" = a !! "fileSize"
  ∧ attachmentAttrs a !! "height" = a !! "height"
  ∧ attachmentAttrs a !! "width" = a !! "width"
  ∧ attachmentAttrs a !! "sgid" = a !! "sgid"
  ∧ attachmentAttrs a !! "url" = a !! "url"
  ∧ attachmentAttrs a !! "src" = a !! "src"
  ∧ attachmentAttrs a !! "content-type" = None
  ∧ attachmentAttrs a !! "previewable" = None.
Proof.
  unfold attachmentAttrs. rewrite !lookup_objectOf. cbn.
  repeat split; match goal with |- match ?x with _ => _ end = _ => now destruct x | _ => reflexivity end.
Qed.

Lemma parsers_rendered t a cs rendered anc :
  serializeNode JSON_stringify serializeFragment (Elem t a cs) = Ok rendered ->
  Forall (λ d, hasTag "action-text-attachment" d = false) anc ->
  Forall2 (λ p r, p.1 = r.1 ∧ p.2 {| self := rendered; ancestors := anc |} = Ok r.2)
    (attributeParsers JSON_parse outerHTML fromString) (parsedFrom serializeFragment a cs).
Proof.
  intros Hser Hanc.
  destruct (rendered_figure t a cs rendered Hser)
    as (Htag & Hpay & Hid & Hprog & fc & Hq & Hin).
  destruct (attachmentAttrs_lookup a)
    as (L1 & L2 & L3 & L4 & L5 & L6 & L7 & L8 & L9 & L10 & L11 & L12).
  pose proof (λ k, findAttribute_rendered t a cs rendered anc k Hser Hanc) as Hfind.
  assert (Hata : closest (hasTag "action-text-attachment")
                   {| self := rendered; ancestors := anc |} = None).
  { apply closest_none; [| exact Hanc]. cbn [self]. unfold hasTag. now rewrite Htag. }
  unfold attributeParsers, parsedFrom.
  repeat (apply Forall2_cons; split); try (now apply Forall2_nil);
    (split; [reflexivity |]); cbn [snd fst self].
  - unfold parse_default. cbn [self]. now rewrite Hid.
  - unfold parse_caption. cbn [self]. rewrite Hq. cbn [fmap option_fmap option_map].
    rewrite Hin. unfold or_else. destruct (truthy (Some (VStr (serializeFragment cs)))).
    + reflexivity.
    + now rewrite Hfind, L1.
  - unfold parse_default. cbn [self]. now rewrite Hprog.
  - now rewrite Hfind, L8.
  - now rewrite Hfind, L10.
  - now rewrite Hfind, L6.
  - now rewrite Hfind, L7.
  - unfold parse_contentType. rewrite Hfind, L11. cbn [rbind truthy self].
    rewrite Hpay. cbn [fmap option_fmap option_map]. unfold or_else at 1.
    cbn [truthy]. rewrite (bool_decide_eq_false_2 _ (JSON_nonempty _)). cbn [negb].
    rewrite parsedObject_roundtrip. cbn [rbind]. now rewrite L2.
  - now rewrite Hfind, L4.
  - now rewrite Hfind, L5.
  - unfold parse_content. rewrite Hfind, L3, Hata. reflexivity.
  - now rewrite Hfind, L9.
  - unfold parse_previewable. cbn [self]. rewrite Hpay.
    cbn [fmap option_fmap option_map truthy].
    rewrite (bool_decide_eq_false_2 _ (JSON_nonempty _)). cbn [negb default]. unfold id.
    rewrite parsedObject_roundtrip. cbn [rbind]. now rewrite L12.
Qed.


Lemma parseFigure_rendered t a cs rendered anc :
  serializeNode JSON_stringify serializeFragment (Elem t a cs) = Ok rendered ->
  Forall (λ d, hasTag "action-text-attachment" d = false) anc ->
  ∃ D, parseFigure JSON_parse outerHTML fromString
         {| self := rendered; ancestors := anc |} = Ok D
       ∧ ∀ k, D !! k
              = match attrSpecs AttachmentFigure !! k with
                | Some d =>
                    match entry k (parsedFrom serializeFragment a cs) ≫= present with
                    | Some x => Some x
                    | None => d
                    end
                | None => None
                end.
Proof.
  intros Hser Hanc. unfold parseFigure.
  rewrite (getAttrs_collect _ _ _ (parsers_rendered t a cs rendered anc Hser Hanc)).
  cbn [rbind].
  destruct (computeAttrs_figure (collect ∅ (parsedFrom serializeFragment a cs)))
    as (D & HD & Hlook).
  exists D. split; [exact HD |]. intros k. rewrite Hlook, lookup_collect.
  - rewrite lookup_empty.
    destruct (entry k _) as [v |]; cbn; [destruct (present v) |]; reflexivity.
  - cbn. refine (bool_decide_unpack _ _). vm_compute. exact I.
Qed.

(** C7 (as amended).  Parsing the rendering of a figure whose caption
    attribute is in sync with its content gives back, for every field
    of the list that holds a value other than [null], that value; the
    content type comes back when it is truthy, and as the octet-stream
    default otherwise. *)
Theorem roundtrip_fields t a cs rendered anc :
  serializeNode JSON_stringify serializeFragment (Elem t a cs) = Ok rendered ->
  Forall (λ d, hasTag "action-text-attachment" d = false) anc ->
  a !! "caption" = Some (VStr (serializeFragment cs)) ->
  ∃ D, parseFigure JSON_parse outerHTML fromString
         {| self := rendered; ancestors := anc |} = Ok D
       ∧ (∀ k, k ∈ carriedFields -> present (a !! k) ≠ None -> D !! k = a !! k)
       ∧ D !! "contentType"
         = if truthy (a !! "contentType") then a !! "contentType"
           else Some (VStr "application/octet-stream").
Proof.
  intros Hser Hanc Hsync.
  destruct (parseFigure_rendered t a cs rendered anc Hser Hanc) as (D & HD & Hlook).
  exists D. split; [exact HD |]. split.
  - intros k Hk Hpres. rewrite Hlook. unfold carriedFields in Hk.
    assert (Hs : is_Some (attrSpecs AttachmentFigure !! k)).
    { pose proof Hk as Hk'.
      repeat (apply elem_of_cons in Hk' as [-> | Hk']); [.. | now apply elem_of_nil in Hk'];
        vm_compute; eauto. }
    destruct Hs as [d ->].
    repeat (apply elem_of_cons in Hk as [-> | Hk]); [.. | now apply elem_of_nil in Hk];
      cbn [entry parsedFrom String.eqb Ascii.eqb Bool.eqb mbind option_bind];
      try (clear Hlook; match goal with |- context [present ?x] => destruct x as [[| | |] |] end;
           cbn [present] in *; congruence).
    rewrite Hsync. unfold or_else. cbn [truthy].
    destruct (negb _) eqn:E; [reflexivity |].
    apply negb_false_iff, bool_decide_eq_true_1 in E. rewrite E. reflexivity.
  - rewrite Hlook.
    replace (attrSpecs AttachmentFigure !! "contentType") with (Some (Some (VStr "")))
      by (vm_compute; reflexivity).
    cbn [entry parsedFrom String.eqb Ascii.eqb Bool.eqb mbind option_bind].
    unfold or_else. destruct (truthy (a !! "contentType")) eqn:Et.
    + destruct (a !! "contentType") as [[| | |] |]; try discriminate; reflexivity.
    + reflexivity.
Qed.

End Codec.

Import Samples.

(** ** The codec of the samples *)

Lemma unbits_bits p : unbits (bits p) = Some p.
Proof. induction p as [q IH | q IH |]; cbn; rewrite ?IH; reflexivity. Qed.

Lemma parse_stringify o : parse (stringify o) = Ok (Some o).
Proof.
  unfold parse, stringify. rewrite bool_decide_eq_false_2 by discriminate.
  rewrite unbits_bits. cbn [mbind option_bind].
  now rewrite decode_encode.
Qed.

Lemma stringify_nonempty o : stringify o ≠ "".
Proof. discriminate. Qed.

(** ** The claims on sample input *)

Lemma empty_galleries_collapsed_witness :
  ∃ r, appendTransaction stringify textMarkup noMarkup (stateOf untidy (TextSelection 0 0)) = Ok r
       ∧ noEmptyGallery (from_option doc untidy r) = true
       ∧ (is_Some r
          ∧ nodeAt (from_option doc untidy r) 0 = Ok (Some (paragraphOf editorSchema))).
Proof.
  destruct (empty_galleries_collapsed stringify textMarkup noMarkup
              (stateOf untidy (TextSelection 0 0)) eq_refl eq_refl)
    as (r & Hr & Hn & _ & _ & Hg).
  exists r. split; [exact Hr |]. split; [exact Hn |].
  exact (Hg 0 (gallery []) eq_refl eq_refl eq_refl).
Defined.

Lemma pass_idempotent_witness :
  ∃ r, appendTransaction stringify textMarkup noMarkup (stateOf untidy (TextSelection 0 0)) = Ok r
       ∧ appendTransaction stringify textMarkup noMarkup
           (stateOf (from_option doc untidy r) (TextSelection 0 0)) = Ok None.
Proof.
  exact (pass_idempotent stringify textMarkup noMarkup
           (stateOf untidy (TextSelection 0 0)) (TextSelection 0 0) eq_refl eq_refl).
Defined.

Lemma other_nodes_untouched_witness :
  let st := stateOf untidy (TextSelection 0 0) in
  (∀ p tr0,
      handleGallery (paragraph "x") st p tr0 = Ok (false, tr0)
      ∧ handleCaptions stringify textMarkup noMarkup (paragraph "x") st p tr0
        = Ok (false, tr0))
  ∧ ∀ tr, appendTransaction stringify textMarkup noMarkup st = Ok (Some tr) ->
          Forall (λ s, stepPos s ≠ 2) (steps tr)
          ∧ ∃ n', nodeAt (doc tr) 2 = Ok (Some n')
                  ∧ typeName n' = "paragraph" ∧ nodeAttrs n' = ∅.
Proof.
  exact (other_nodes_untouched stringify textMarkup noMarkup
           (stateOf untidy (TextSelection 0 0)) 2 (paragraph "x")
           eq_refl eq_refl eq_refl eq_refl eq_refl).
Defined.

Lemma caption_sync_rewrites_only_caption_witness :
  let st := stateOf untidy (TextSelection 0 0) in
  let f := figure "" "a.png" "cap" in
  ∃ rendered fc,
    serializeNode stringify textMarkup f = Ok rendered
    ∧ querySelector "figcaption" (DElem "div" ∅ [rendered]) = Some fc
    ∧ innerHTML noMarkup fc = "cap"
    ∧ ∃ tr' a',
        handleCaptions stringify textMarkup noMarkup f st 6 (state_tr st) = Ok (true, tr')
        ∧ nodeAt (doc tr') 6 = Ok (Some (Elem AttachmentFigure a' [Text "cap"]))
        ∧ a' !! "caption" = Some (VStr (innerHTML noMarkup fc))
        ∧ (∀ k, k ≠ "caption" -> a' !! k = nodeAttrs f !! k)
        ∧ steps tr' = steps (state_tr st) ++ [ReplaceAroundStep 6 AttachmentFigure a'].
Proof.
  intros st f.
  eexists _, _. split; [vm_compute; reflexivity |].
  split; [vm_compute; reflexivity |].
  split; [vm_compute; reflexivity |].
  eapply (caption_sync_rewrites_only_caption stringify textMarkup noMarkup st f 6 (state_tr st)).
  - reflexivity.
  - reflexivity.
  - reflexivity.
  - reflexivity.
  - vm_compute. reflexivity.
  - vm_compute. reflexivity.
  - vm_compute. discriminate.
Defined.

Lemma roundtrip_fields_witness :
  let a := <["url" := VStr "/a.png"]>
             (<["contentType" := VStr "image/png"]> (figureAttrs "cap" "a.png")) in
  ∃ rendered,
    serializeNode stringify textMarkup (Elem AttachmentFigure a [Text "cap"]) = Ok rendered
    ∧ ∃ D, parseFigure parse noMarkup VStr {| self := rendered; ancestors := [] |} = Ok D
           ∧ (∀ k, k ∈ carriedFields -> present (a !! k) ≠ None -> D !! k = a !! k)
           ∧ D !! "contentType" = Some (VStr "image/png").
Proof.
  intros a. eexists. split; [vm_compute; reflexivity |].
  apply (roundtrip_fields stringify parse textMarkup noMarkup VStr
           parse_stringify stringify_nonempty AttachmentFigure a [Text "cap"]).
  - vm_compute. reflexivity.
  - constructor.
  - reflexivity.
Defined.

(** C7, on an input.  A figure that carries the declared defaults, its
    content type the empty string among them, comes back from its
    rendering with the content type [application/octet-stream]. *)
Lemma roundtrip_changes_empty_content_type :
  figureAttrs "cap" "a.png" !! "contentType" = Some (VStr "")
  ∧ (let? rendered := serializeNode stringify textMarkup (figure "cap" "a.png" "cap") in
     let? D := parseFigure parse noMarkup VStr {| self := rendered; ancestors := [] |} in
     Ok (D !! "contentType"))
    = Ok (Some (VStr "application/octet-stream")).
Proof. split; vm_compute; reflexivity. Qed.

(** ** The extension class *)

(** C9.  For a file name that is a non-empty string in which the
    pattern of [toExtension] finds no extension, the class that
    [renderHTML] gives the figure is not left without an extension
    class: its class list holds [attachment--undefined]. *)
Theorem unmatched_extension_class (s : string) (a : object) (cls : string) :
  s ≠ "" ->
  matchExtension s = None ->
  a !! "fileName" = Some (VStr s) ->
  figureClass optionsClass a = Ok cls ->
  toExtension (Some (VStr s)) = Ok "attachment--undefined"
  ∧ "attachment--undefined" ∈ classList cls.
Proof.
  intros Hs Hm Hf Hc.
  assert (He : toExtension (Some (VStr s)) = Ok "attachment--undefined").
  { unfold toExtension. cbn [truthy]. rewrite bool_decide_eq_false_2 by exact Hs.
    cbn [negb]. rewrite Hm. reflexivity. }
  split; [exact He |].
  unfold figureClass in Hc. rewrite Hf, He in Hc.
  destruct (canPreview _ _) as [pv |]; [| discriminate].
  cbn [rbind] in Hc. injection Hc as <-.
  unfold toType.
  destruct (truthy (a !! "content")); [| destruct pv];
    vm_compute; repeat first [apply list_elem_of_here | apply list_elem_of_further].
Qed.

Lemma unmatched_extension_class_witness :
  toExtension (Some (VStr "README")) = Ok "attachment--undefined"
  ∧ "attachment--undefined" ∈ classList "attachment attachment--file attachment--undefined".
Proof.
  apply (unmatched_extension_class "README" (figureAttrs "" "README")).
  - discriminate.
  - reflexivity.
  - vm_compute. reflexivity.
  - vm_compute. reflexivity.
Defined.

(** ** The write-back of detected dimensions *)




(** ** Resolving positions *)

Lemma resolveIn_skip rec n offset start l1 l2 i cur :
  allPositive l1 -> cur + fragmentSize l1 <= offset ->
  resolveIn rec n offset start (l1 ++ l2) i cur
  = resolveIn rec n offset start l2 (i + length l1)%nat (cur + fragmentSize l1).
Proof.
  revert i cur. induction l1 as [| c r IH]; intros i cur Hp Hle.
  - simpl. f_equal; lia.
  - apply allPositive_cons in Hp as [Hc Hr].
    pose proof (fragmentSize_nonneg r).
    cbn [app resolveIn fragmentSize length] in *. zb.
    rewrite IH by (assumption || lia). f_equal; lia.
Qed.

(** A position inside a child: the path goes through the child. *)
Lemma resolvePath_child t a l1 c l2 k start :
  allPositive l1 -> nonLeaf c -> 0 <= k <= contentSize c ->
  resolvePath (Elem t a (l1 ++ c :: l2)) (fragmentSize l1 + 1 + k) start
  = ((Elem t a (l1 ++ c :: l2), length l1, start + fragmentSize l1)
       :: (resolvePath c k (start + fragmentSize l1 + 1)).1,
     (resolvePath c k (start + fragmentSize l1 + 1)).2).
Proof.
  intros Hp Hc Hk.
  pose proof (nodeSize_nonLeaf c Hc) as Hs.
  pose proof (fragmentSize_nonneg l1).
  cbn [resolvePath]. rewrite resolveIn_skip by (assumption || lia).
  cbn [resolveIn]. zb. rewrite (nonLeaf_isText c Hc).
  replace (fragmentSize l1 + 1 + k - (0 + fragmentSize l1) - 1) with k by lia.
  replace (start + (0 + fragmentSize l1) + 1) with (start + fragmentSize l1 + 1) by lia.
  replace (start + (0 + fragmentSize l1)) with (start + fragmentSize l1) by lia.
  destruct (resolvePath c k (start + fragmentSize l1 + 1)). reflexivity.
Qed.

(** A position in a node whose children are text: the path ends at the
    node. *)
Lemma resolvePath_text t a cs k start :
  Forall (λ c, isText c = true) cs ->
  ∃ i x, resolvePath (Elem t a cs) k start = ([(Elem t a cs, i, x)], k).
Proof.
  intros Ht. cbn [resolvePath].
  generalize (Elem t a cs) as n. generalize 0%nat as i. generalize 0 as cur.
  induction Ht as [| c r Hc _ IH]; intros cur i n; cbn [resolveIn]; [eauto |].
  destruct (cur =? k); [eauto |].
  destruct (k <? cur + nodeSize c); [| apply IH].
  rewrite Hc. eauto.
Qed.

(** ** Inserting after the node that holds the position *)

Lemma cutIn_keep rec from to l1 l2 pos :
  allPositive l1 -> from <= pos -> pos + fragmentSize l1 <= to ->
  cutIn rec from to (l1 ++ l2) pos = l1 ++ cutIn rec from to l2 (pos + fragmentSize l1).
Proof.
  revert pos. induction l1 as [| c r IH]; intros pos Hp Hf Ht.
  - simpl. f_equal. lia.
  - apply allPositive_cons in Hp as [Hc Hr].
    pose proof (fragmentSize_nonneg r).
    cbn [app cutIn fragmentSize] in *. zb. cbn [orb app].
    rewrite IH by (assumption || lia).
    replace (pos + nodeSize c + fragmentSize r) with (pos + (nodeSize c + fragmentSize r))
      by lia.
    reflexivity.
Qed.

Lemma cutNode_all t a cs :
  allPositive cs -> cutNode (Elem t a cs) 0 (fragmentSize cs) = Elem t a cs.
Proof.
  intros Hp. cbn [cutNode]. f_equal.
  destruct (Z.ltb_spec 0 (fragmentSize cs)).
  - pose proof (cutIn_all cutNode 0 (fragmentSize cs) cs [] 0 Hp) as H1.
    rewrite app_nil_r in H1. apply H1; lia.
  - symmetry. apply allPositive_size_0; [assumption | lia].
Qed.

(** The cut up to the end of the content of a child keeps the child. *)
Lemma cut_child_end l1 t a cs l2 :
  allPositive l1 -> allPositive cs -> isLeafType t = false ->
  cut (l1 ++ Elem t a cs :: l2) 0 (fragmentSize l1 + 1 + fragmentSize cs)
  = l1 ++ [Elem t a cs].
Proof.
  intros H1 Hcs Ht.
  pose proof (fragmentSize_nonneg l1). pose proof (fragmentSize_nonneg cs).
  unfold cut. zb.
  rewrite cutIn_keep by (assumption || lia). f_equal.
  cbn [cutIn]. rewrite nodeSize_Elem, Ht. zb. cbn [orb isText].
  replace (Z.max 0 (0 - (0 + fragmentSize l1) - 1)) with 0 by lia.
  replace (Z.min (contentSize (Elem t a cs))
             (fragmentSize l1 + 1 + fragmentSize cs - (0 + fragmentSize l1) - 1))
    with (fragmentSize cs) by (rewrite contentSize_Elem; lia).
  rewrite cutNode_all by assumption.
  destruct l2 as [| c2 r2]; [reflexivity |]. cbn [cutIn]. zb. reflexivity.
Qed.

Lemma childAt_const {R} p (out : R) ins cs cur :
  Forall (λ c, ∀ r q, ins c r q = out) cs -> childAt p out ins cs cur = out.
Proof.
  intros H. revert cur. induction H as [| c r Hc _ IH]; intros cur; cbn [childAt];
    [reflexivity |].
  destruct (cur =? p); [reflexivity |]. destruct (p <? cur + nodeSize c); [apply Hc | apply IH].
Qed.

Lemma replaceChild_text rec base from to cs cur :
  Forall (λ c, isText c = true) cs -> replaceChild rec base from to cs cur = Ok None.
Proof.
  intros H. revert cur. induction H as [| c r Hc _ IH]; intros cur; cbn [replaceChild];
    [reflexivity |].
  destruct (cur =? from); [reflexivity |].
  destruct (from <? cur + nodeSize c); [now rewrite Hc |].
  now rewrite IH.
Qed.

Lemma leftOk_text t a cs p :
  Forall (λ c, isText c = true) cs -> leftOk (Elem t a cs) p = true.
Proof.
  intros H. cbn [leftOk]. apply childAt_const.
  eapply Forall_impl; [exact H |]. intros c Hc r q. now rewrite Hc.
Qed.


Lemma closedCopies_text t a cs p :
  Forall (λ c, isText c = true) cs -> closedCopies (Elem t a cs) p = [].
Proof.
  intros H. cbn [closedCopies]. apply childAt_const.
  eapply Forall_impl; [exact H |]. intros [x | ? ? ?] Hc r q; [reflexivity | discriminate].
Qed.

Lemma depthBelow_text t a cs p :
  Forall (λ c, isText c = true) cs -> depthBelow (Elem t a cs) p = 0.
Proof.
  intros H. cbn [depthBelow]. apply childAt_const.
  eapply Forall_impl; [exact H |]. intros c Hc r q. now rewrite Hc.
Qed.

Lemma childAt_end {R} (out : R) ins cs :
  allPositive cs -> childAt (fragmentSize cs) out ins cs 0 = out.
Proof.
  intros Hp. pose proof (childAt_boundary (fragmentSize cs) out ins cs [] Hp eq_refl) as H.
  now rewrite app_nil_r in H.
Qed.

(** Nodes that the child holding the position does not admit, and its
    parent does, are placed after the child when the position is at
    the end of its content: the step runs from the position to the
    end of the child, and its slice starts with the child's empty
    copy, open. *)
Lemma replaceIn_after_child slice first rest t a l1 tc ac cs l2 base :
  slice = first :: rest ->
  allPositive l1 -> allPositive cs -> allPositive l2 ->
  Forall (λ c, isText c = true) cs ->
  isLeafType tc = false -> needsChild (Elem tc ac cs) = false ->
  accepts tc first = false ->
  forallb (accepts t) slice = true ->
  replaceIn slice (Elem t a (l1 ++ Elem tc ac cs :: l2)) base
    (fragmentSize l1 + 1 + fragmentSize cs) (fragmentSize l1 + 1 + fragmentSize cs)
  = Ok (Some (Elem t a (l1 ++ Elem tc ac cs :: slice ++ l2),
              ReplaceStep (base + (fragmentSize l1 + 1 + fragmentSize cs))
                (base + (fragmentSize l1 + nodeSize (Elem tc ac cs)))
                (mkSlice (Elem tc ac [] :: slice) 1 0))).
Proof.
  intros Hsl H1 Hcs H2 Htx Hl Hnc Hacc Hall.
  pose proof (fragmentSize_nonneg l1). pose proof (fragmentSize_nonneg cs).
  pose proof (fragmentSize_nonneg l2).
  assert (Hsz : nodeSize (Elem tc ac cs) = 2 + fragmentSize cs)
    by (rewrite nodeSize_Elem, Hl; reflexivity).
  set (p := fragmentSize l1 + 1 + fragmentSize cs).
  rewrite replaceIn_Elem.
  rewrite replaceChild_skip by (assumption || lia).
  cbn [replaceChild]. rewrite Hsz. subst p. zb. cbn [isText].
  rewrite replaceIn_Elem, replaceChild_text by assumption. cbn [rbind].
  assert (Hin : placeHere (Elem tc ac cs) (base + (0 + fragmentSize l1) + 1)
                  (fragmentSize l1 + 1 + fragmentSize cs - (0 + fragmentSize l1) - 1)
                  (fragmentSize l1 + 1 + fragmentSize cs - (0 + fragmentSize l1) - 1) slice
                = Ok None).
  { unfold placeHere. rewrite Hsl, Hacc. reflexivity. }
  rewrite Hin. cbn [rbind fmap option_fmap option_map].
  unfold placeHere. rewrite Hsl.
  assert (Hf : accepts t first = true)
    by (rewrite Hsl in Hall; cbn [forallb] in Hall; now apply andb_prop in Hall).
  rewrite Hf. rewrite <- Hsl, Hall. cbn [negb orb].
  rewrite contentSize_Elem, fragmentSize_app. cbn [fragmentSize]. rewrite Hsz.
  replace (fragmentSize l1 + (2 + fragmentSize cs + fragmentSize l2)
           <? fragmentSize l1 + 1 + fragmentSize cs) with false
    by (symmetry; apply Z.ltb_ge; lia).
  cbn [orb].
  assert (Hleft : leftOk (Elem t a (l1 ++ Elem tc ac cs :: l2))
                    (fragmentSize l1 + 1 + fragmentSize cs) = true).
  { cbn [leftOk]. rewrite childAt_skip by (assumption || lia).
    cbn [childAt]. rewrite Hsz.
    replace (0 + fragmentSize l1 =? fragmentSize l1 + 1 + fragmentSize cs) with false
      by (symmetry; apply Z.eqb_neq; lia).
    replace (fragmentSize l1 + 1 + fragmentSize cs <? 0 + fragmentSize l1 + (2 + fragmentSize cs))
      with true by (symmetry; apply Z.ltb_lt; lia).
    rewrite Hnc. cbn [isText negb orb andb].
    exact (leftOk_text tc ac cs _ Htx). }
  rewrite Hleft. cbn [negb].
  assert (Hclosed : closedCopies (Elem t a (l1 ++ Elem tc ac cs :: l2))
                      (fragmentSize l1 + 1 + fragmentSize cs) = [Elem tc ac []]).
  { cbn [closedCopies]. rewrite childAt_skip by (assumption || lia).
    cbn [childAt]. rewrite Hsz.
    replace (0 + fragmentSize l1 =? fragmentSize l1 + 1 + fragmentSize cs) with false
      by (symmetry; apply Z.eqb_neq; lia).
    replace (fragmentSize l1 + 1 + fragmentSize cs <? 0 + fragmentSize l1 + (2 + fragmentSize cs))
      with true by (symmetry; apply Z.ltb_lt; lia).
    now rewrite closedCopies_text by assumption. }
  assert (Hdepth : depthBelow (Elem t a (l1 ++ Elem tc ac cs :: l2))
                     (fragmentSize l1 + 1 + fragmentSize cs) = 1).
  { cbn [depthBelow]. rewrite childAt_skip by (assumption || lia).
    cbn [childAt]. rewrite Hsz.
    replace (0 + fragmentSize l1 =? fragmentSize l1 + 1 + fragmentSize cs) with false
      by (symmetry; apply Z.eqb_neq; lia).
    replace (fragmentSize l1 + 1 + fragmentSize cs <? 0 + fragmentSize l1 + (2 + fragmentSize cs))
      with true by (symmetry; apply Z.ltb_lt; lia).
    cbn [isText]. now rewrite depthBelow_text by assumption. }
  rewrite Hclosed, Hdepth.
  rewrite cut_child_end by assumption.
  assert (Hdrop : dropsAt (l1 ++ Elem tc ac cs :: l2) (fragmentSize l1 + 1 + fragmentSize cs)
                  = Some (fragmentSize l1 + nodeSize (Elem tc ac cs))).
  { unfold dropsAt. rewrite childAt_skip by (assumption || lia).
    cbn [childAt]. rewrite Hsz. zb. cbn [isText negb andb atEnd].
    rewrite contentSize_Elem.
    replace (fragmentSize l1 + 1 + fragmentSize cs - (0 + fragmentSize l1) - 1 =? fragmentSize cs)
      with true by (symmetry; apply Z.eqb_eq; lia).
    cbn [orb]. reflexivity. }
  rewrite Hdrop.
  assert (Hcut : cut (l1 ++ Elem tc ac cs :: l2) (fragmentSize l1 + nodeSize (Elem tc ac cs))
                   (fragmentSize l1 + (2 + fragmentSize cs + fragmentSize l2)) = l2).
  { replace (l1 ++ Elem tc ac cs :: l2) with ((l1 ++ [Elem tc ac cs]) ++ l2)
      by (rewrite <- app_assoc; reflexivity).
    replace (fragmentSize l1 + nodeSize (Elem tc ac cs))
      with (fragmentSize (l1 ++ [Elem tc ac cs]))
      by (rewrite fragmentSize_app; cbn [fragmentSize]; lia).
    replace (fragmentSize l1 + (2 + fragmentSize cs + fragmentSize l2))
      with (fragmentSize ((l1 ++ [Elem tc ac cs]) ++ l2))
      by (rewrite !fragmentSize_app; cbn [fragmentSize]; lia).
    apply cut_suffix; [| assumption].
    apply allPositive_app. split; [assumption |].
    apply allPositive_cons. split; [lia | constructor]. }
  rewrite Hcut. rewrite <- app_assoc. cbn [app]. rewrite ?Hsz. reflexivity.
Qed.

(** The range from the start of an empty child to the end of its
    content: the child is exchanged for the nodes, and the step runs
    to the end of the child. *)
Lemma replaceIn_empty_child slice first rest t a l1 tc ac l2 base :
  slice = first :: rest ->
  allPositive l1 -> allPositive l2 ->
  isLeafType tc = false ->
  forallb (accepts t) slice = true ->
  replaceIn slice (Elem t a (l1 ++ Elem tc ac [] :: l2)) base
    (fragmentSize l1) (fragmentSize l1 + 1)
  = Ok (Some (Elem t a (l1 ++ slice ++ l2),
              ReplaceStep (base + fragmentSize l1) (base + (fragmentSize l1 + 2))
                (mkSlice slice 0 0))).
Proof.
  intros Hsl H1 H2 Hl Hall.
  pose proof (fragmentSize_nonneg l1). pose proof (fragmentSize_nonneg l2).
  assert (Hsz : nodeSize (Elem tc ac []) = 2) by (rewrite nodeSize_Elem, Hl; reflexivity).
  rewrite replaceIn_Elem.
  rewrite replaceChild_skip by (assumption || lia).
  cbn [replaceChild].
  replace (0 + fragmentSize l1 =? fragmentSize l1) with true
    by (symmetry; apply Z.eqb_eq; lia).
  cbn [rbind fmap option_fmap option_map].
  unfold placeHere. rewrite Hsl.
  assert (Hf : accepts t first = true)
    by (rewrite Hsl in Hall; cbn [forallb] in Hall; now apply andb_prop in Hall).
  rewrite Hf. rewrite <- Hsl, Hall. cbn [negb orb].
  rewrite contentSize_Elem, fragmentSize_app. cbn [fragmentSize]. rewrite Hsz.
  replace (fragmentSize l1 + (2 + fragmentSize l2) <? fragmentSize l1 + 1) with false
    by (symmetry; apply Z.ltb_ge; lia).
  cbn [orb leftOk closedCopies depthBelow].
  rewrite (childAt_boundary _ true _ l1) by (assumption || reflexivity).
  rewrite (childAt_boundary _ [] _ l1) by (assumption || reflexivity).
  rewrite (childAt_boundary _ 0 _ l1) by (assumption || reflexivity).
  cbn [negb]. rewrite cut_prefix by assumption.
  assert (Hdrop : dropsAt (l1 ++ Elem tc ac [] :: l2) (fragmentSize l1 + 1)
                  = Some (fragmentSize l1 + 2)).
  { unfold dropsAt. rewrite childAt_skip by (assumption || lia).
    cbn [childAt]. rewrite Hsz.
    replace (0 + fragmentSize l1 =? fragmentSize l1 + 1) with false
      by (symmetry; apply Z.eqb_neq; lia).
    replace (fragmentSize l1 + 1 <? 0 + fragmentSize l1 + 2) with true
      by (symmetry; apply Z.ltb_lt; lia).
    cbn [isText negb andb atEnd]. rewrite contentSize_Elem. cbn [fragmentSize].
    replace (fragmentSize l1 + 1 - (0 + fragmentSize l1) - 1 =? 0) with true
      by (symmetry; apply Z.eqb_eq; lia).
    cbn [orb]. f_equal; lia. }
  rewrite Hdrop.
  assert (Hcut : cut (l1 ++ Elem tc ac [] :: l2) (fragmentSize l1 + 2)
                   (fragmentSize l1 + (2 + fragmentSize l2)) = l2).
  { replace (l1 ++ Elem tc ac [] :: l2) with ((l1 ++ [Elem tc ac []]) ++ l2)
      by (rewrite <- app_assoc; reflexivity).
    replace (fragmentSize l1 + 2) with (fragmentSize (l1 ++ [Elem tc ac []]))
      by (rewrite fragmentSize_app; cbn [fragmentSize]; lia).
    replace (fragmentSize l1 + (2 + fragmentSize l2))
      with (fragmentSize ((l1 ++ [Elem tc ac []]) ++ l2))
      by (rewrite !fragmentSize_app; cbn [fragmentSize]; lia).
    apply cut_suffix; [| assumption].
    apply allPositive_app. split; [assumption |].
    apply allPositive_cons. split; [lia | constructor]. }
  rewrite Hcut. reflexivity.
Qed.

(** Nodes that a node admits, placed at the end of its content. *)
Lemma replaceIn_at_end slice first rest t a cs base :
  slice = first :: rest ->
  allPositive cs ->
  forallb (accepts t) slice = true ->
  replaceIn slice (Elem t a cs) base (fragmentSize cs) (fragmentSize cs)
  = Ok (Some (Elem t a (cs ++ slice),
              ReplaceStep (base + fragmentSize cs) (base + fragmentSize cs)
                (mkSlice slice 0 0))).
Proof.
  intros Hsl Hp Hall.
  pose proof (fragmentSize_nonneg cs).
  rewrite replaceIn_Elem.
  pose proof (replaceChild_skip (replaceIn slice) base (fragmentSize cs) (fragmentSize cs)
                cs [] 0 Hp) as Hskip.
  rewrite app_nil_r in Hskip. rewrite Hskip by lia. clear Hskip.
  cbn [replaceChild rbind fmap option_fmap option_map].
  unfold placeHere. rewrite Hsl.
  assert (Hf : accepts t first = true)
    by (rewrite Hsl in Hall; cbn [forallb] in Hall; now apply andb_prop in Hall).
  rewrite Hf. rewrite <- Hsl, Hall. cbn [negb orb].
  rewrite contentSize_Elem, Z.ltb_irrefl. cbn [orb].
  assert (Hleft : leftOk (Elem t a cs) (fragmentSize cs) = true)
    by (cbn [leftOk]; now apply childAt_end).
  assert (Hright : rightOk (Elem t a cs) (fragmentSize cs) = true)
    by (cbn [rightOk]; now apply childAt_end).
  assert (Hdrop : dropsAt cs (fragmentSize cs) = None)
    by (unfold dropsAt; now apply childAt_end).
  assert (Hdepth : depthBelow (Elem t a cs) (fragmentSize cs) = 0)
    by (cbn [depthBelow]; now apply childAt_end).
  assert (Hclosed : closedCopies (Elem t a cs) (fragmentSize cs) = [])
    by (cbn [closedCopies]; now apply childAt_end).
  assert (Hopen : reopenedCopies (Elem t a cs) (fragmentSize cs) = Ok [])
    by (cbn [reopenedCopies]; now apply childAt_end).
  rewrite Hleft, Hdrop, Hright, Hdepth, Hclosed, Hopen. cbn [negb rbind app].
  pose proof (cut_prefix cs [] Hp) as Hcut. rewrite app_nil_r in Hcut. rewrite Hcut.
  unfold cut at 1. rewrite Z.ltb_irrefl, !app_nil_r.
  reflexivity.
Qed.

Lemma replaceWith_resolved (from to : Z) slice tr d step :
  0 <= from <= to -> to <= contentSize (doc tr) -> slice ≠ [] ->
  replaceIn slice (doc tr) 0 from to = Ok (Some (d, step)) ->
  replaceWith from to slice tr
  = Ok (tt, {| doc := d;
               steps := steps tr ++ [step];
               selectionSet := selectionSet tr |}).
Proof.
  intros Hf Ht Hs Hr. unfold replaceWith.
  rewrite (bool_decide_eq_false_2 _ Hs), andb_false_r.
  destruct (resolve_ok (doc tr) from) as [r1 ->]; [lia |].
  destruct (resolve_ok (doc tr) to) as [r2 ->]; [lia |].
  cbn [rbind orb]. replace (to <? from) with false by (symmetry; apply Z.ltb_ge; lia).
  rewrite Hr. reflexivity.
Qed.

(** A position between two children, or after the last: the path is
    the node alone. *)
Lemma resolvePath_boundary t a l1 l2 start :
  allPositive l1 ->
  resolvePath (Elem t a (l1 ++ l2)) (fragmentSize l1) start
  = ([(Elem t a (l1 ++ l2), length l1, start + fragmentSize l1)], fragmentSize l1).
Proof.
  intros Hp. cbn [resolvePath]. rewrite resolveIn_skip by (assumption || lia).
  destruct l2 as [| c r]; cbn [resolveIn].
  - repeat f_equal; lia.
  - replace (0 + fragmentSize l1 =? fragmentSize l1) with true
      by (symmetry; apply Z.eqb_eq; lia).
    repeat f_equal; lia.
Qed.

(** ** The insertion command *)

Lemma kbind_pure {S A B} (r : result A) (k : A -> K S B) (s : S) (a : A) :
  r = Ok a -> kbind (pure r) k s = k a s.
Proof. now intros ->. Qed.


Lemma call_Ok {S A} (m : M S A) (s : S) (a : A) (s' : S) :
  m s = Ok (a, s') -> call m s = (Ok a, s').
Proof. unfold call. now intros ->. Qed.

Lemma kbind_call {S A B} (m : M S A) (k : A -> K S B) (s : S) (a : A) (s' : S) :
  m s = Ok (a, s') -> kbind (call m) k s = k a s'.
Proof. unfold kbind, call. now intros ->. Qed.

(** The nodes that the command builds are figures, and with the
    figure type of the extension in the schema it builds one from
    every descriptor. *)
Lemma attachmentNodes_figures s attachments figs :
  nodes s !! "attachment-figure" = Some AttachmentFigure ->
  mapResult (attachmentNode s) attachments = Ok figs ->
  Forall (λ f, ∃ a c, f = Elem AttachmentFigure a c) figs.
Proof.
  intros Hs. revert figs. induction attachments as [| x r IH]; intros figs; cbn [mapResult].
  - intros [= <-]. constructor.
  - unfold attachmentNode at 1, nodeTypeOf. rewrite Hs. cbn [rbind].
    destruct (if truthy (properties x !! "caption") then _ else _) as [c |]; [| discriminate].
    cbn [rbind]. unfold create.
    destruct (computeAttrs _ (properties x)) as [a |]; [| discriminate]. cbn [rbind].
    destruct (mapResult _ r) as [ys |]; [| discriminate]. cbn [rbind].
    intros [= <-]. constructor; [eauto | now apply IH].
Qed.


(** Figures inserted at the end of the content of a gallery of the
    document are appended to the gallery. *)
Lemma insert_at_gallery_end dt da pre post ga fs figs tr :
  doc tr = Elem dt da (pre ++ Elem AttachmentGallery ga fs :: post) ->
  isLeafType dt = false ->
  allPositive pre -> allPositive fs ->
  Forall (λ f, ∃ a c, f = Elem AttachmentFigure a c) figs ->
  figs ≠ [] ->
  let p := fragmentSize pre + 1 + fragmentSize fs in
  insert p figs tr
  = Ok (tt, {| doc := Elem dt da (pre ++ Elem AttachmentGallery ga (fs ++ figs) :: post);
               steps := steps tr ++ [ReplaceStep p p (mkSlice figs 0 0)];
               selectionSet := selectionSet tr |}).
Proof.
  intros Hdoc Hdt Hpre Hfs Hall Hne p.
  pose proof (fragmentSize_nonneg pre). pose proof (fragmentSize_nonneg fs).
  pose proof (fragmentSize_nonneg post).
  destruct figs as [| first rest] eqn:Efigs; [congruence |]. rewrite <- Efigs in *.
  assert (Hacc : forallb (accepts AttachmentGallery) figs = true).
  { apply forallb_forall. intros f Hf. apply list_elem_of_In in Hf.
    rewrite Forall_forall in Hall. destruct (Hall f Hf) as (a & c & ->). reflexivity. }
  unfold insert. apply replaceWith_resolved.
  - unfold p. lia.
  - rewrite Hdoc, contentSize_Elem, fragmentSize_app. cbn [fragmentSize].
    rewrite nodeSize_Elem. cbn [isLeafType content AttachmentGallery]. unfold p. lia.
  - congruence.
  - rewrite Hdoc.
    pose (fr := {| ftype := dt; fattrs := da; fpre := pre; fpost := post |}).
    pose proof (replaceIn_plug figs [fr] (Elem AttachmentGallery ga fs) 0
                  (fragmentSize fs) (fragmentSize fs)) as Hplug.
    cbn [plug plugStart fr ftype fattrs fpre fpost] in Hplug.
    replace (fragmentSize pre + 1 + 0 + fragmentSize fs) with p in Hplug
      by (unfold p; lia).
    erewrite Hplug.
    + f_equal.
    + constructor; [split; assumption | constructor].
    + reflexivity.
    + rewrite contentSize_Elem. lia.
    + rewrite (replaceIn_at_end figs first rest) by assumption.
      do 4 f_equal; unfold p; lia.
Qed.

(** Figures inserted at the end of the content of a figure of a
    gallery of the document land behind that figure. *)
Lemma insert_after_figure dt da pre post ga fs1 fa cs fs2 figs tr :
  doc tr
  = Elem dt da
      (pre ++ Elem AttachmentGallery ga (fs1 ++ Elem AttachmentFigure fa cs :: fs2) :: post) ->
  isLeafType dt = false ->
  allPositive pre -> allPositive fs1 -> allPositive fs2 -> allPositive cs ->
  Forall (λ c, isText c = true) cs ->
  Forall (λ f, ∃ a c, f = Elem AttachmentFigure a c) figs ->
  figs ≠ [] ->
  let p := fragmentSize pre + 1 + fragmentSize fs1 + 1 + fragmentSize cs in
  insert p figs tr
  = Ok (tt, {| doc := Elem dt da
                        (pre ++ Elem AttachmentGallery ga
                                  (fs1 ++ Elem AttachmentFigure fa cs :: figs ++ fs2)
                             :: post);
               steps := steps tr
                        ++ [ReplaceStep p (p + 1)
                              (mkSlice (Elem AttachmentFigure fa [] :: figs) 1 0)];
               selectionSet := selectionSet tr |}).
Proof.
  intros Hdoc Hdt Hpre Hfs1 Hfs2 Hcs Htx Hall Hne p.
  set (F := Elem AttachmentFigure fa cs).
  set (G := Elem AttachmentGallery ga (fs1 ++ F :: fs2)).
  pose proof (fragmentSize_nonneg pre). pose proof (fragmentSize_nonneg fs1).
  pose proof (fragmentSize_nonneg fs2). pose proof (fragmentSize_nonneg cs).
  pose proof (fragmentSize_nonneg post).
  assert (HF : nodeSize F = 2 + fragmentSize cs) by reflexivity.
  assert (HG : nodeSize G = 2 + (fragmentSize fs1 + (nodeSize F + fragmentSize fs2))).
  { unfold G. rewrite nodeSize_Elem, fragmentSize_app. reflexivity. }
  destruct figs as [| first rest] eqn:Efigs; [congruence |]. rewrite <- Efigs in *.
  assert (Hacc : forallb (accepts AttachmentGallery) figs = true).
  { apply forallb_forall. intros f Hf. apply list_elem_of_In in Hf.
    rewrite Forall_forall in Hall. destruct (Hall f Hf) as (a & c & ->). reflexivity. }
  assert (Hrej : accepts AttachmentFigure first = false).
  { rewrite Forall_forall in Hall.
    destruct (Hall first) as (a & c & ->); [rewrite Efigs; left | reflexivity]. }
  unfold insert. apply replaceWith_resolved.
  - unfold p. lia.
  - rewrite Hdoc, contentSize_Elem, fragmentSize_app. cbn [fragmentSize].
    fold F G. rewrite HG, HF. unfold p. lia.
  - congruence.
  - rewrite Hdoc. fold F G.
    pose (fr := {| ftype := dt; fattrs := da; fpre := pre; fpost := post |}).
    pose proof (replaceIn_plug figs [fr] G 0
                  (fragmentSize fs1 + 1 + fragmentSize cs)
                  (fragmentSize fs1 + 1 + fragmentSize cs)) as Hplug.
    cbn [plug plugStart fr ftype fattrs fpre fpost] in Hplug.
    replace (fragmentSize pre + 1 + 0 + (fragmentSize fs1 + 1 + fragmentSize cs))
      with p in Hplug by (unfold p; lia).
    erewrite Hplug.
    + f_equal.
    + constructor; [split; assumption | constructor].
    + reflexivity.
    + unfold G. rewrite contentSize_Elem, fragmentSize_app. cbn [fragmentSize].
      fold F. rewrite HF. lia.
    + unfold G, F.
      rewrite (replaceIn_after_child figs first rest) by (assumption || reflexivity).
      do 4 f_equal; fold F; rewrite ?HF; unfold p; lia.
Qed.

(** The command with the anchor directly in a gallery of the
    document. *)
Lemma merge_in_gallery
  (attachments : list AttachmentManager) (st : EditorState) (tr : Transaction)
  (dt : NodeType) (da : object) (pre post : list Node)
  (ga : object) (fs1 fs2 : list Node) (figs : list Node) :
  state_doc st = Elem dt da (pre ++ Elem AttachmentGallery ga (fs1 ++ fs2) :: post) ->
  doc tr = state_doc st ->
  isLeafType dt = false ->
  allPositive pre -> allPositive fs1 -> allPositive fs2 ->
  anchor (selection st) = fragmentSize pre + 1 + fragmentSize fs1 ->
  nodes (schema st) !! "attachment-figure" = Some AttachmentFigure ->
  mapResult (attachmentNode (schema st)) attachments = Ok figs ->
  figs ≠ [] ->
  let p := fragmentSize pre + 1 + fragmentSize (fs1 ++ fs2) in
  setAttachmentBody attachments st tr
  = (Ok tt, {| doc := Elem dt da
                        (pre ++ Elem AttachmentGallery ga ((fs1 ++ fs2) ++ figs) :: post);
               steps := steps tr ++ [ReplaceStep p p (mkSlice figs 0 0)];
               selectionSet := selectionSet tr |}).
Proof.
  intros Hdoc Htr Hdt Hpre Hfs1 Hfs2 Hanchor Hfig Hmap Hne p.
  set (G := Elem AttachmentGallery ga (fs1 ++ fs2)).
  pose proof (fragmentSize_nonneg pre). pose proof (fragmentSize_nonneg fs1).
  pose proof (fragmentSize_nonneg fs2). pose proof (fragmentSize_nonneg post).
  assert (HG : contentSize G = fragmentSize fs1 + fragmentSize fs2)
    by (unfold G; rewrite contentSize_Elem; apply fragmentSize_app).
  assert (Hsize : contentSize (state_doc st)
                  = fragmentSize pre + (2 + (fragmentSize fs1 + fragmentSize fs2)
                                        + fragmentSize post)).
  { rewrite Hdoc, contentSize_Elem, fragmentSize_app. cbn [fragmentSize].
    rewrite nodeSize_Elem, fragmentSize_app. reflexivity. }
  assert (Hpath : resolvePath (state_doc st) (anchor (selection st)) 0
                  = ([(state_doc st, length pre, 0 + fragmentSize pre);
                      (G, length fs1, 0 + fragmentSize pre + 1 + fragmentSize fs1)],
                     fragmentSize fs1)).
  { rewrite Hanchor, Hdoc. fold G.
    rewrite resolvePath_child; [| assumption | reflexivity | lia].
    unfold G. rewrite resolvePath_boundary by assumption. reflexivity. }
  assert (Hctx : ∃ b, galleryContext st
                      = Ok ({| rpos := anchor (selection st);
                               path := [(state_doc st, length pre, 0 + fragmentSize pre);
                                        (G, length fs1,
                                          0 + fragmentSize pre + 1 + fragmentSize fs1)];
                               parentOffset := fragmentSize fs1 |}, true, b)).
  { unfold galleryContext, resolve at 1.
    replace ((0 <=? anchor (selection st))
             && (anchor (selection st) <=? contentSize (state_doc st))) with true
      by (symmetry; apply andb_true_intro; split; apply Z.leb_le; lia).
    rewrite Hpath. cbn [rbind].
    destruct (resolve_ok (state_doc st)
                (if anchor (selection st) - 2 <? 0 then 0 else anchor (selection st) - 2))
      as [rb ->].
    { destruct (Z.ltb_spec (anchor (selection st) - 2) 0); lia. }
    cbn [rbind]. eexists. reflexivity. }
  destruct Hctx as (b & Hctx).
  unfold setAttachmentBody.
  rewrite (kbind_pure _ _ _ _ Hctx). cbn [fst snd orb].
  rewrite (kbind_pure _ _ _ _ Hmap).
  assert (Hend : end_ {| rpos := anchor (selection st);
                         path := [(state_doc st, length pre, 0 + fragmentSize pre);
                                  (G, length fs1,
                                    0 + fragmentSize pre + 1 + fragmentSize fs1)];
                         parentOffset := fragmentSize fs1 |} = Some p).
  { unfold end_, start, depth, node. cbn [path length Nat.pred lookup list_lookup
                                            fmap option_fmap option_map mbind option_bind
                                            fst snd].
    rewrite HG. f_equal. unfold p. rewrite fragmentSize_app. lia. }
  rewrite Hend. cbn [from_option]. rewrite (kbind_pure _ _ _ p eq_refl).
  replace (p - 0) with p by lia.
  apply call_Ok. apply insert_at_gallery_end.
  - now rewrite Htr, Hdoc.
  - assumption.
  - assumption.
  - apply allPositive_app. now split.
  - exact (attachmentNodes_figures _ _ _ Hfig Hmap).
  - assumption.
Qed.

(** With the anchor in the text of a figure of a gallery. *)
Lemma merge_in_figure
  (attachments : list AttachmentManager) (st : EditorState) (tr : Transaction)
  (dt : NodeType) (da : object) (pre post : list Node)
  (ga : object) (fs1 fs2 : list Node) (fa : object) (cs : list Node)
  (k : Z) (figs : list Node) :
  state_doc st
  = Elem dt da
      (pre ++ Elem AttachmentGallery ga (fs1 ++ Elem AttachmentFigure fa cs :: fs2) :: post) ->
  doc tr = state_doc st ->
  isLeafType dt = false ->
  allPositive pre -> allPositive fs1 -> allPositive fs2 -> allPositive cs ->
  Forall (λ c, isText c = true) cs ->
  anchor (selection st) = fragmentSize pre + 1 + fragmentSize fs1 + 1 + k ->
  0 <= k <= fragmentSize cs ->
  nodes (schema st) !! "attachment-figure" = Some AttachmentFigure ->
  mapResult (attachmentNode (schema st)) attachments = Ok figs ->
  figs ≠ [] ->
  let p := fragmentSize pre + 1 + fragmentSize fs1 + 1 + fragmentSize cs in
  setAttachmentBody attachments st tr
  = (Ok tt, {| doc := Elem dt da
                        (pre ++ Elem AttachmentGallery ga
                                  (fs1 ++ Elem AttachmentFigure fa cs :: figs ++ fs2)
                             :: post);
               steps := steps tr
                        ++ [ReplaceStep p (p + 1)
                              (mkSlice (Elem AttachmentFigure fa [] :: figs) 1 0)];
               selectionSet := selectionSet tr |}).
Proof.
  intros Hdoc Htr Hdt Hpre Hfs1 Hfs2 Hcs Htx Hanchor Hk Hfig Hmap Hne p.
  set (F := Elem AttachmentFigure fa cs).
  set (G := Elem AttachmentGallery ga (fs1 ++ F :: fs2)).
  pose proof (fragmentSize_nonneg pre). pose proof (fragmentSize_nonneg fs1).
  pose proof (fragmentSize_nonneg fs2). pose proof (fragmentSize_nonneg cs).
  pose proof (fragmentSize_nonneg post).
  assert (HF : nodeSize F = 2 + fragmentSize cs) by reflexivity.
  assert (HG : nodeSize G = 2 + (fragmentSize fs1 + (nodeSize F + fragmentSize fs2))).
  { unfold G. rewrite nodeSize_Elem, fragmentSize_app. reflexivity. }
  assert (Hsize : contentSize (state_doc st)
                  = fragmentSize pre + (nodeSize G + fragmentSize post)).
  { rewrite Hdoc, contentSize_Elem, fragmentSize_app. reflexivity. }
  rewrite HG, HF in Hsize.
  (* the resolved anchor *)
  assert (Hpath : ∃ i x,
             resolvePath (state_doc st) (anchor (selection st)) 0
             = ([(state_doc st, length pre, 0 + fragmentSize pre);
                 (G, length fs1, 0 + fragmentSize pre + 1 + fragmentSize fs1);
                 (F, i, x)], k)).
  { destruct (resolvePath_text AttachmentFigure fa cs k
                (0 + fragmentSize pre + 1 + fragmentSize fs1 + 1) Htx) as (i & x & HrF).
    fold F in HrF.
    exists i, x.
    assert (HpG : resolvePath G (fragmentSize fs1 + 1 + k) (0 + fragmentSize pre + 1)
                  = ([(G, length fs1, 0 + fragmentSize pre + 1 + fragmentSize fs1);
                      (F, i, x)], k)).
    { unfold G. rewrite resolvePath_child; [| assumption | reflexivity |].
      - fold F. rewrite HrF. reflexivity.
      - change (contentSize F) with (fragmentSize cs). lia. }
    rewrite Hanchor, Hdoc.
    replace (fragmentSize pre + 1 + fragmentSize fs1 + 1 + k)
      with (fragmentSize pre + 1 + (fragmentSize fs1 + 1 + k)) by lia.
    fold F G. rewrite resolvePath_child; [| assumption | reflexivity |].
    - rewrite HpG. reflexivity.
    - unfold G. rewrite contentSize_Elem, fragmentSize_app. cbn [fragmentSize].
      rewrite HF. lia. }
  destruct Hpath as (i & x & Hpath).
  assert (Hctx : ∃ b, galleryContext st
                      = Ok ({| rpos := anchor (selection st);
                               path := [(state_doc st, length pre, 0 + fragmentSize pre);
                                        (G, length fs1,
                                          0 + fragmentSize pre + 1 + fragmentSize fs1);
                                        (F, i, x)];
                               parentOffset := k |}, true, b)).
  { unfold galleryContext, resolve at 1.
    replace ((0 <=? anchor (selection st))
             && (anchor (selection st) <=? contentSize (state_doc st))) with true
      by (symmetry; apply andb_true_intro; split; apply Z.leb_le; lia).
    rewrite Hpath. cbn [rbind].
    destruct (resolve_ok (state_doc st)
                (if anchor (selection st) - 2 <? 0 then 0 else anchor (selection st) - 2))
      as [rb ->].
    { destruct (Z.ltb_spec (anchor (selection st) - 2) 0); lia. }
    cbn [rbind]. eexists. reflexivity. }
  destruct Hctx as (b & Hctx).
  unfold setAttachmentBody.
  rewrite (kbind_pure _ _ _ _ Hctx). cbn [fst snd orb].
  rewrite (kbind_pure _ _ _ _ Hmap).
  assert (Hend : end_ {| rpos := anchor (selection st);
                         path := [(state_doc st, length pre, 0 + fragmentSize pre);
                                  (G, length fs1, 0 + fragmentSize pre + 1 + fragmentSize fs1);
                                  (F, i, x)];
                         parentOffset := k |} = Some p).
  { unfold end_, start, depth, node. cbn. f_equal; unfold p; lia. }
  rewrite Hend. cbn [from_option]. rewrite (kbind_pure _ _ _ p eq_refl).
  replace (p - 0) with p by lia.
  apply call_Ok. apply insert_after_figure; try assumption.
  - now rewrite Htr, Hdoc.
  - exact (attachmentNodes_figures _ _ _ Hfig Hmap).
Qed.

(** With the cursor in an empty block that directly follows a
    gallery. *)
Lemma merge_after_gallery
  (attachments : list AttachmentManager) (st : EditorState) (tr : Transaction)
  (dt : NodeType) (da : object) (pre post : list Node)
  (ga : object) (fs : list Node) (et : NodeType) (ea : object) (figs : list Node) :
  let G := Elem AttachmentGallery ga fs in
  let E := Elem et ea [] in
  state_doc st = Elem dt da (pre ++ G :: E :: post) ->
  doc tr = state_doc st ->
  isLeafType dt = false -> isLeafType et = false ->
  name et ≠ "attachment-gallery" ->
  allPositive pre -> allPositive fs ->
  anchor (selection st) = fragmentSize pre + nodeSize G + 1 ->
  nodes (schema st) !! "attachment-figure" = Some AttachmentFigure ->
  mapResult (attachmentNode (schema st)) attachments = Ok figs ->
  figs ≠ [] ->
  let p := anchor (selection st) - 2 in
  setAttachmentBody attachments st tr
  = (Ok tt, {| doc := Elem dt da
                        (pre ++ Elem AttachmentGallery ga (fs ++ figs) :: E :: post);
               steps := steps tr ++ [ReplaceStep p p (mkSlice figs 0 0)];
               selectionSet := selectionSet tr |}).
Proof.
  intros G E Hdoc Htr Hdt Het Hname Hpre Hfs Hanchor Hfig Hmap Hne p.
  pose proof (fragmentSize_nonneg pre). pose proof (fragmentSize_nonneg fs).
  pose proof (fragmentSize_nonneg post).
  assert (HG : nodeSize G = 2 + fragmentSize fs) by reflexivity.
  assert (HE : nodeSize E = 2) by (unfold E; rewrite nodeSize_Elem, Het; reflexivity).
  assert (Hsize : contentSize (state_doc st)
                  = fragmentSize pre + (2 + fragmentSize fs + (2 + fragmentSize post))).
  { rewrite Hdoc, contentSize_Elem, fragmentSize_app. cbn [fragmentSize].
    rewrite HG, HE. reflexivity. }
  assert (HpG : allPositive (pre ++ [G])).
  { apply allPositive_app. split; [assumption |].
    apply allPositive_cons. split; [lia | constructor]. }
  (* the anchor is in the empty block *)
  assert (Hpath : resolvePath (state_doc st) (anchor (selection st)) 0
                  = ([(state_doc st, length (pre ++ [G]), 0 + fragmentSize (pre ++ [G]));
                      (E, 0%nat, 0 + fragmentSize (pre ++ [G]) + 1 + 0)], 0)).
  { rewrite Hdoc at 1.
    replace (pre ++ G :: E :: post) with ((pre ++ [G]) ++ E :: post)
      by (rewrite <- app_assoc; reflexivity).
    replace (anchor (selection st)) with (fragmentSize (pre ++ [G]) + 1 + 0)
      by (rewrite Hanchor, fragmentSize_app; cbn [fragmentSize]; lia).
    rewrite resolvePath_child; [| assumption | exact Het | change (contentSize E) with 0; lia].
    replace ((pre ++ [G]) ++ E :: post) with (pre ++ G :: E :: post)
      by (rewrite <- app_assoc; reflexivity).
    rewrite <- Hdoc. reflexivity. }
  (* two positions before it is the end of the gallery *)
  assert (Hbefore : resolvePath (state_doc st) p 0
                    = ([(state_doc st, length pre, 0 + fragmentSize pre);
                        (G, length fs, 0 + fragmentSize pre + 1 + fragmentSize fs)],
                       fragmentSize fs)).
  { rewrite Hdoc at 1.
    replace p with (fragmentSize pre + 1 + fragmentSize fs) by (unfold p; lia).
    rewrite resolvePath_child;
      [| assumption | reflexivity | change (contentSize G) with (fragmentSize fs); lia].
    rewrite <- Hdoc. unfold G.
    pose proof (resolvePath_boundary AttachmentGallery ga fs []
                  (0 + fragmentSize pre + 1) Hfs) as Hb.
    rewrite app_nil_r in Hb. rewrite Hb. reflexivity. }
  set (cur := {| rpos := anchor (selection st);
                 path := [(state_doc st, length (pre ++ [G]), 0 + fragmentSize (pre ++ [G]));
                          (E, 0%nat, 0 + fragmentSize (pre ++ [G]) + 1 + 0)];
                 parentOffset := 0 |}).
  assert (Hctx : galleryContext st = Ok (cur, false, true)).
  { unfold galleryContext, resolve.
    replace ((0 <=? anchor (selection st))
             && (anchor (selection st) <=? contentSize (state_doc st))) with true
      by (symmetry; apply andb_true_intro; split; apply Z.leb_le; lia).
    rewrite Hpath. cbn [rbind].
    replace (anchor (selection st) - 2 <? 0) with false
      by (symmetry; apply Z.ltb_ge; lia).
    fold p.
    replace ((0 <=? p) && (p <=? contentSize (state_doc st))) with true
      by (symmetry; apply andb_true_intro; split; apply Z.leb_le; unfold p; lia).
    rewrite Hbefore. cbn [rbind]. unfold node.
    cbn [path lookup list_lookup fmap option_fmap option_map fst snd].
    unfold E at 2. cbn [typeName]. rewrite (bool_decide_eq_false_2 _ Hname).
    reflexivity. }
  unfold setAttachmentBody.
  rewrite (kbind_pure _ _ _ _ Hctx). cbn [fst snd orb].
  rewrite (kbind_pure _ _ _ _ Hmap).
  assert (Hend : end_ cur = Some (anchor (selection st))).
  { unfold end_, start, depth, node, cur.
    cbn [path length Nat.pred lookup list_lookup fmap option_fmap option_map
           mbind option_bind fst snd].
    change (contentSize E) with 0. f_equal.
    rewrite Hanchor, fragmentSize_app. cbn [fragmentSize]. lia. }
  rewrite Hend. cbn [from_option]. rewrite (kbind_pure _ _ _ _ eq_refl). fold p.
  replace p with (fragmentSize pre + 1 + fragmentSize fs) by (unfold p; lia).
  apply call_Ok.
  apply (insert_at_gallery_end dt da pre (E :: post) ga fs figs tr).
  - now rewrite Htr, Hdoc.
  - assumption.
  - assumption.
  - assumption.
  - exact (attachmentNodes_figures _ _ _ Hfig Hmap).
  - assumption.
Qed.

(** C3 (as amended).  The figures built from the descriptors are
    inserted, in one replace step, at the end of the content of the
    parent of the anchor: with the anchor directly in a gallery of the
    document they are appended to the gallery; with the anchor in the
    text of a figure of the gallery they land directly behind that
    figure -- at the end of the gallery only when it is the last one;
    and with the anchor at the start of an empty block that directly
    follows a gallery they are appended to that gallery, two
    positions before the anchor, and the block stays.  Nothing else
    is changed: no paragraph is added and the selection of the
    transaction is left as it was. *)
Theorem merge_lands_in_gallery
  (attachments : list AttachmentManager) (st : EditorState) (tr : Transaction)
  (dt : NodeType) (da : object) (pre : list Node) (ga : object) (figs : list Node) :
  doc tr = state_doc st ->
  isLeafType dt = false ->
  allPositive pre ->
  nodes (schema st) !! "attachment-figure" = Some AttachmentFigure ->
  mapResult (attachmentNode (schema st)) attachments = Ok figs ->
  figs ≠ [] ->
  (∀ fs1 fs2 post,
      state_doc st = Elem dt da (pre ++ Elem AttachmentGallery ga (fs1 ++ fs2) :: post) ->
      allPositive fs1 -> allPositive fs2 ->
      anchor (selection st) = fragmentSize pre + 1 + fragmentSize fs1 ->
      let p := fragmentSize pre + 1 + fragmentSize (fs1 ++ fs2) in
      setAttachmentBody attachments st tr
      = (Ok tt, {| doc := Elem dt da
                            (pre ++ Elem AttachmentGallery ga ((fs1 ++ fs2) ++ figs) :: post);
                   steps := steps tr ++ [ReplaceStep p p (mkSlice figs 0 0)];
                   selectionSet := selectionSet tr |}))
  ∧ (∀ fs1 fa cs fs2 post k,
        state_doc st
        = Elem dt da
            (pre ++ Elem AttachmentGallery ga (fs1 ++ Elem AttachmentFigure fa cs :: fs2)
                 :: post) ->
        allPositive fs1 -> allPositive fs2 -> allPositive cs ->
        Forall (λ c, isText c = true) cs ->
        anchor (selection st) = fragmentSize pre + 1 + fragmentSize fs1 + 1 + k ->
        0 <= k <= fragmentSize cs ->
        let p := fragmentSize pre + 1 + fragmentSize fs1 + 1 + fragmentSize cs in
        setAttachmentBody attachments st tr
        = (Ok tt, {| doc := Elem dt da
                              (pre ++ Elem AttachmentGallery ga
                                        (fs1 ++ Elem AttachmentFigure fa cs :: figs ++ fs2)
                                   :: post);
                     steps := steps tr
                              ++ [ReplaceStep p (p + 1)
                                    (mkSlice (Elem AttachmentFigure fa [] :: figs) 1 0)];
                     selectionSet := selectionSet tr |}))
  ∧ (∀ fs et ea post,
        state_doc st
        = Elem dt da (pre ++ Elem AttachmentGallery ga fs :: Elem et ea [] :: post) ->
        isLeafType et = false -> name et ≠ "attachment-gallery" ->
        allPositive fs ->
        anchor (selection st) = fragmentSize pre + nodeSize (Elem AttachmentGallery ga fs) + 1 ->
        let p := anchor (selection st) - 2 in
        setAttachmentBody attachments st tr
        = (Ok tt, {| doc := Elem dt da
                              (pre ++ Elem AttachmentGallery ga (fs ++ figs)
                                   :: Elem et ea [] :: post);
                     steps := steps tr ++ [ReplaceStep p p (mkSlice figs 0 0)];
                     selectionSet := selectionSet tr |})).
Proof.
  intros Htr Hdt Hpre Hfig Hmap Hne. split; [| split].
  - intros fs1 fs2 post Hdoc Hfs1 Hfs2 Hanchor.
    now apply merge_in_gallery.
  - intros fs1 fa cs fs2 post k Hdoc Hfs1 Hfs2 Hcs Htx Hanchor Hk.
    now apply (merge_in_figure attachments st tr dt da pre post ga fs1 fs2 fa cs k figs).
  - intros fs et ea post Hdoc Het Hname Hfs Hanchor.
    now apply (merge_after_gallery attachments st tr dt da pre post ga fs et ea figs).
Qed.

Lemma merge_lands_in_gallery_witness :
  let c := figure "c" "c.png" "c" in
  (let st := stateOf twoFigures (NodeSelection 1 3) in
   setAttachmentBody [descriptor "c" "c.png"] st (state_tr st)
   = (Ok tt, {| doc := document [gallery [figure "a" "a.png" "a"; figure "b" "b.png" "b"; c]];
                steps := [ReplaceStep 7 7 (mkSlice [c] 0 0)];
                selectionSet := None |}))
  ∧ (let st := stateOf twoFigures (TextSelection 2 2) in
     setAttachmentBody [descriptor "c" "c.png"] st (state_tr st)
     = (Ok tt, {| doc := document [gallery [figure "a" "a.png" "a"; c; figure "b" "b.png" "b"]];
                  steps := [ReplaceStep 3 4
                              (mkSlice [Elem AttachmentFigure (figureAttrs "a" "a.png") []; c]
                                 1 0)];
                  selectionSet := None |}))
  ∧ (let st := stateOf (galleryThen "") (TextSelection 6 6) in
     setAttachmentBody [descriptor "c" "c.png"] st (state_tr st)
     = (Ok tt, {| doc := document [gallery [figure "a" "a.png" "a"; c]; paragraph ""];
                  steps := [ReplaceStep 4 4 (mkSlice [c] 0 0)];
                  selectionSet := None |})).
Proof.
  intros c. split; [| split].
  - intros st.
    destruct (merge_lands_in_gallery [descriptor "c" "c.png"] st (state_tr st)
                docType ∅ [] ∅ [c]) as (H & _ & _);
      [reflexivity | reflexivity | constructor | reflexivity | reflexivity | discriminate |].
    apply (H [] [figure "a" "a.png" "a"; figure "b" "b.png" "b"] []).
    + reflexivity.
    + constructor.
    + repeat constructor.
    + reflexivity.
  - intros st.
    destruct (merge_lands_in_gallery [descriptor "c" "c.png"] st (state_tr st)
                docType ∅ [] ∅ [c]) as (_ & H & _);
      [reflexivity | reflexivity | constructor | reflexivity | reflexivity | discriminate |].
    apply (H [] (figureAttrs "a" "a.png") [Text "a"] [figure "b" "b.png" "b"] [] 0).
    + reflexivity.
    + constructor.
    + repeat constructor.
    + repeat constructor.
    + repeat constructor.
    + reflexivity.
    + vm_compute. split; discriminate.
  - intros st.
    destruct (merge_lands_in_gallery [descriptor "c" "c.png"] st (state_tr st)
                docType ∅ [] ∅ [c]) as (_ & _ & H);
      [reflexivity | reflexivity | constructor | reflexivity | reflexivity | discriminate |].
    apply (H [figure "a" "a.png" "a"] paragraphType ∅ []).
    + reflexivity.
    + reflexivity.
    + discriminate.
    + repeat constructor.
    + reflexivity.
Defined.

(** C3, on inputs.  With the cursor in the first of two figures the
    new figure lands between them, not at the end of the gallery; and
    with the cursor at the start of a paragraph with text that follows
    a gallery, it lands behind the gallery, in the document itself. *)
Lemma merge_misses_gallery_end :
  (let st := stateOf twoFigures (TextSelection 2 2) in
   outline (doc (transaction (setAttachment [descriptor "c" "c.png"] st (state_tr st) true))))
  = "doc(attachment-gallery(attachment-figure[a.png](a) "
    +:+ "attachment-figure[c.png](c) attachment-figure[b.png](b)))"
  ∧ (let st := stateOf (galleryThen "t") (TextSelection 6 6) in
     outline (doc (transaction (setAttachment [descriptor "c" "c.png"] st (state_tr st) true))))
    = "doc(attachment-gallery(attachment-figure[a.png](a)) "
      +:+ "attachment-figure[c.png](c) paragraph(t))".
Proof. split; vm_compute; reflexivity. Qed.

(** ** The selection after an insertion *)

(** The backward search from a position between children takes what
    it finds in the child just before the position. *)
Lemma findSelectionBefore_last t a l1 c l2 pos s :
  inlineContentType t = false ->
  foundIn c (pos - nodeSize c) = Some s ->
  findSelectionBefore (Elem t a (l1 ++ c :: l2)) pos (S (length l1)) = Some s.
Proof.
  intros Ht Hhere. cbn [findSelectionBefore]. rewrite Ht.
  replace (take (S (length l1)) (l1 ++ c :: l2)) with (l1 ++ [c])
    by (clear; induction l1 as [| x r IH]; cbn; [reflexivity | now rewrite <- IH]).
  rewrite fragmentSize_app. cbn [fragmentSize].
  remember (S (length l1)) as idx eqn:Hidx.
  match goal with
  | |- ?f (l1 ++ c :: l2) 0%nat ?cur0 None = _ =>
      enough (Hgen : ∀ l cur i found,
                 idx = (i + length l + 1)%nat ->
                 foundIn c (cur + fragmentSize l) = Some s ->
                 f (l ++ c :: l2) i cur found = Some s)
        by (apply Hgen; [lia | rewrite <- Hhere; f_equal; lia])
  end.
  clear Hidx Hhere l1. intros l.
  induction l as [| c0 r IH]; intros cur i found Hi Hhere.
  - cbn [app]. replace (i <? idx)%nat with true by (symmetry; apply Nat.ltb_lt; lia).
    unfold foundIn in Hhere. cbn [fragmentSize] in Hhere.
    replace (cur + 0) with cur in Hhere by lia. rewrite Hhere.
    destruct l2 as [| c2 r2]; [reflexivity |].
    replace (S i <? idx)%nat with false by (symmetry; apply Nat.ltb_ge; cbn [length] in Hi; lia).
    reflexivity.
  - cbn [app]. replace (i <? idx)%nat with true
      by (symmetry; apply Nat.ltb_lt; cbn [length] in Hi; lia).
    apply IH.
    + cbn [length] in Hi. lia.
    + rewrite <- Hhere. cbn [fragmentSize]. f_equal. lia.
Qed.

Lemma last_step (l : list Step) (s : Step) :
  List.last (Some <$> (l ++ [s])) None = Some s.
Proof. rewrite fmap_app. cbn [fmap list_fmap]. apply last_last. Qed.

(** C4 (as amended).  With the cursor in an empty block of the
    document and no gallery at or before it, the command replaces
    that block -- the range from one position before the selection
    to the end of the block -- by an empty paragraph, a gallery of
    the figures and an empty paragraph, in one replace step, and puts
    the cursor in the second of the paragraphs, one position before
    the end of what was inserted. *)
Theorem insert_replaces_empty_block
  (attachments : list AttachmentManager) (st : EditorState) (tr : Transaction)
  (dt : NodeType) (da : object) (pre post : list Node)
  (et : NodeType) (ea : object) (cur : ResolvedPos) (figs : list Node) :
  wfSchema (schema st) = true ->
  isAtom (paragraphOf (schema st)) = false ->
  state_doc st = Elem dt da (pre ++ Elem et ea [] :: post) ->
  doc tr = state_doc st ->
  content dt = CPlus "block" ->
  isLeafType et = false ->
  allPositive pre -> allPositive post ->
  selection st = TextSelection (fragmentSize pre + 1) (fragmentSize pre + 1) ->
  galleryContext st = Ok (cur, false, false) ->
  mapResult (attachmentNode (schema st)) attachments = Ok figs ->
  let p := paragraphOf (schema st) in
  let g := Elem AttachmentGallery ∅ figs in
  let q := fragmentSize pre + 2 + nodeSize g + 1 in
  setAttachmentBody attachments st tr
  = (Ok tt, {| doc := Elem dt da (pre ++ [p; g; p] ++ post);
               steps := steps tr
                        ++ [ReplaceStep (from (selection st) - 1) (to (selection st) + 1)
                              (mkSlice [p; g; p] 0 0)];
               selectionSet := Some (TextSelection q q) |}).
Proof.
  intros Hs Hatom Hdoc Htr Hdt Het Hpre Hpost Hsel Hctx Hmap p g q.
  destruct (paragraphOf_spec _ Hs) as (pt & pa & Hnode & Hp & Hpt & Hname & Hcont & Hblock & _).
  pose proof (fragmentSize_nonneg pre). pose proof (fragmentSize_nonneg post).
  pose proof (fragmentSize_nonneg figs).
  assert (Hpsz : nodeSize p = 2).
  { unfold p. rewrite Hp, nodeSize_Elem. unfold isLeafType. rewrite Hcont. reflexivity. }
  assert (Hgsz : nodeSize g = 2 + fragmentSize figs) by reflexivity.
  assert (Hcreate : create pt ∅ [] = Ok p).
  { unfold p. rewrite Hp. unfold schema_node, createChecked in Hnode. rewrite Hpt in Hnode.
    unfold create. destruct (computeAttrs (attrSpecs pt) ∅) as [a |]; [| discriminate].
    cbn [rbind] in *. destruct (validContent pt []); congruence. }
  assert (Hacc : forallb (accepts dt) [p; g; p] = true).
  { assert (Hap : accepts dt p = true).
    { unfold p. rewrite Hp. unfold accepts. rewrite Hdt. cbn [nodeGroups].
      rewrite (bool_decide_eq_true_2 _ Hblock). apply orb_true_r. }
    cbn [forallb]. rewrite Hap. unfold g, accepts. rewrite Hdt. reflexivity. }
  assert (Hsize : contentSize (state_doc st) = fragmentSize pre + (2 + fragmentSize post)).
  { rewrite Hdoc, contentSize_Elem, fragmentSize_app. cbn [fragmentSize].
    rewrite nodeSize_Elem, Het. reflexivity. }
  unfold setAttachmentBody.
  rewrite (kbind_pure _ _ _ _ Hctx). cbn [fst snd orb].
  rewrite (kbind_pure _ _ _ _ Hmap).
  unfold nodeTypeOf. rewrite (wfSchema_gallery _ Hs), Hpt.
  rewrite (kbind_pure _ _ _ AttachmentGallery eq_refl).
  rewrite (kbind_pure _ _ _ g eq_refl).
  rewrite (kbind_pure _ _ _ pt eq_refl).
  rewrite (kbind_pure _ _ _ _ Hcreate).
  rewrite (kbind_pure _ _ _ _ Hcreate).
  rewrite Hsel. unfold Transform.from, Transform.to. cbn [anchor head].
  rewrite Z.min_id, Z.max_id.
  replace (fragmentSize pre + 1 - 1) with (fragmentSize pre) by lia.
  assert (Hrep : replaceWith (fragmentSize pre) (fragmentSize pre + 1) [p; g; p] tr
                 = Ok (tt, {| doc := Elem dt da (pre ++ [p; g; p] ++ post);
                              steps := steps tr
                                       ++ [ReplaceStep (fragmentSize pre)
                                             (fragmentSize pre + 1 + 1)
                                             (mkSlice [p; g; p] 0 0)];
                              selectionSet := selectionSet tr |})).
  { apply replaceWith_resolved; [lia | rewrite Htr; lia | discriminate |].
    rewrite Htr, Hdoc.
    rewrite (replaceIn_empty_child [p; g; p] p [g; p])
      by (assumption || reflexivity).
    do 4 f_equal; lia. }
  rewrite (kbind_call _ _ _ _ _ Hrep).
  apply call_Ok.
  unfold selectionToInsertionEnd. cbn [steps doc].
  replace (Z.of_nat (length (steps tr ++ [_])) - 1 <? Z.of_nat (length (steps tr ++ [_])) - 1)
    with false by (symmetry; apply Z.ltb_irrefl).
  rewrite last_step.
  set (d' := Elem dt da (pre ++ [p; g; p] ++ post)).
  assert (He : fragmentSize pre + sliceSize (mkSlice [p; g; p] 0 0) = q + 1).
  { unfold sliceSize. cbn [sliceContent openStart openEnd fragmentSize]. unfold q. lia. }
  rewrite He.
  assert (Hq : fragmentSize (pre ++ [p; g]) + nodeSize p = q + 1).
  { rewrite fragmentSize_app. cbn [fragmentSize]. unfold q. lia. }
  assert (Hres : resolve d' (q + 1)
                 = Ok {| rpos := q + 1;
                         path := [(d', S (length (pre ++ [p; g])), q + 1)];
                         parentOffset := q + 1 |}).
  { unfold resolve, d'. rewrite contentSize_Elem, !fragmentSize_app. cbn [fragmentSize].
    replace ((0 <=? q + 1)
             && (q + 1 <=? fragmentSize pre
                           + (nodeSize p + (nodeSize g + (nodeSize p + 0)) + fragmentSize post)))
      with true
      by (symmetry; apply andb_true_intro; split; apply Z.leb_le; unfold q; lia).
    replace (pre ++ [p; g; p] ++ post) with ((pre ++ [p; g; p]) ++ post)
      by (rewrite <- app_assoc; reflexivity).
    replace (q + 1) with (fragmentSize (pre ++ [p; g; p]))
      by (rewrite fragmentSize_app; cbn [fragmentSize]; unfold q; lia).
    rewrite resolvePath_boundary.
    - rewrite length_app. cbn [length]. rewrite length_app. cbn [length].
      replace (length pre + 3)%nat with (S (length pre + 2)) by lia.
      reflexivity.
    - apply allPositive_app. split; [assumption |].
      repeat (apply allPositive_cons; split; [lia |]). constructor. }
  unfold bind, lift. rewrite Hres.
  unfold setSelection. do 3 f_equal.
  unfold near, findFrom. cbn [path rev app rpos fst snd Z.ltb Z.compare].
  assert (Hinl : inlineContent d' = false).
  { unfold d'. cbn [inlineContent]. unfold inlineContentType. rewrite Hdt. reflexivity. }
  assert (Hfound : findSelectionBefore d' (q + 1) (S (length (pre ++ [p; g])))
                   = Some (TextSelection q q)).
  { unfold d'.
    replace (pre ++ [p; g; p] ++ post) with ((pre ++ [p; g]) ++ p :: post)
      by (rewrite <- app_assoc; reflexivity).
    apply findSelectionBefore_last.
    - unfold inlineContentType. rewrite Hdt. reflexivity.
    - unfold foundIn. fold p in Hatom. rewrite Hatom. cbn [negb].
      unfold p at 1 3. rewrite Hp. cbn [findSelectionBefore nodeContent length].
      unfold inlineContentType. rewrite Hcont. cbn [bool_decide decide_rel orb].
      rewrite bool_decide_eq_true_2 by reflexivity. cbn [orb].
      rewrite <- Hp. fold p.
      replace (q + 1 - nodeSize p + nodeSize p - 1) with q by lia. reflexivity. }
  rewrite Hinl, Hfound. reflexivity.
Qed.

Lemma insert_replaces_empty_block_witness :
  let st := stateOf (document [paragraph ""]) (TextSelection 1 1) in
  let g := gallery [figure "c" "c.png" "c"] in
  setAttachmentBody [descriptor "c" "c.png"] st (state_tr st)
  = (Ok tt, {| doc := document [paragraph ""; g; paragraph ""];
               steps := [ReplaceStep 0 2 (mkSlice [paragraph ""; g; paragraph ""] 0 0)];
               selectionSet := Some (TextSelection 8 8) |}).
Proof.
  intros st g.
  eapply (insert_replaces_empty_block [descriptor "c" "c.png"] st (state_tr st)
            docType ∅ [] [] paragraphType ∅ _ [figure "c" "c.png" "c"]).
  - reflexivity.
  - reflexivity.
  - reflexivity.
  - reflexivity.
  - reflexivity.
  - reflexivity.
  - constructor.
  - constructor.
  - reflexivity.
  - reflexivity.
  - reflexivity.
Defined.

(** C4, on inputs.  With the cursor in the only, empty paragraph of a
    document the selection is the range from 1 to 1; the step
    replaces the range from 0 to 2, what it inserts ends at 9, and
    the cursor is put at 8, in the paragraph behind the gallery.
    With the cursor at the end of the paragraph [ab] the step
    replaces the range from 2 to 4, and the letter [b] is gone. *)
Lemma insert_replaces_around_selection :
  let ranges (tr : Transaction) :=
    (λ s, match s with
          | ReplaceStep f t sl => Some (f, t, f + sliceSize sl)
          | ReplaceAroundStep _ _ _ => None
          end) <$> steps tr in
  (let st := stateOf (document [paragraph ""]) (TextSelection 1 1) in
   let o := setAttachment [descriptor "c" "c.png"] st (state_tr st) true in
   (from (selection st), to (selection st), ranges (transaction o),
    selectionSet (transaction o)))
  = (1, 1, [Some (0, 2, 9)], Some (TextSelection 8 8))
  ∧ (let st := stateOf (document [paragraph "ab"]) (TextSelection 3 3) in
     let o := setAttachment [descriptor "c" "c.png"] st (state_tr st) true in
     (outline (doc (transaction o)), ranges (transaction o)))
    = ("doc(paragraph(a) paragraph() attachment-gallery(attachment-figure[c.png](c)) "
       +:+ "paragraph())",
       [Some (2, 4, 12)]).
Proof. split; vm_compute; reflexivity. Qed.

(** ** What the command returns *)
















(** * Further properties of the code *)

(** ** File extensions and content types *)

Lemma append_cons c s t : String c s +:+ t = String c (s +:+ t).
Proof. reflexivity. Qed.

Lemma all_word_dot s t : all_word (s +:+ String "."%char t) = false.
Proof.
  induction s as [| c r IH].
  - reflexivity.
  - rewrite append_cons. cbn [all_word]. rewrite IH. apply andb_false_r.
Qed.

Lemma matchExtension_suffix s ext :
  ext ≠ "" -> all_word ext = true ->
  matchExtension (s +:+ String "."%char ext) = Some ext.
Proof.
  intros Hne Hw. induction s as [| c r IH].
  - change ("" +:+ String "."%char ext) with (String "."%char ext).
    cbn [matchExtension]. rewrite Hw, (bool_decide_eq_false_2 _ Hne). reflexivity.
  - rewrite append_cons. cbn [matchExtension]. rewrite all_word_dot, andb_false_r. exact IH.
Qed.

(** X1.  A file name that ends in a dot and word characters gets the class
    of that last extension, in lower case, whatever precedes it. *)
Theorem toExtension_last_extension (s ext : string) :
  ext ≠ "" -> all_word ext = true ->
  toExtension (Some (VStr (s +:+ "." +:+ ext)))
  = Ok ("attachment--" +:+ toLowerCase ext).
Proof.
  intros Hne Hw. unfold toExtension. cbn [truthy].
  rewrite bool_decide_eq_false_2.
  - cbn [negb]. change ("." +:+ ext) with (String "."%char ext).
    rewrite (matchExtension_suffix s ext Hne Hw). reflexivity.
  - destruct s; discriminate.
Qed.

Lemma toExtension_last_extension_witness :
  toExtension (Some (VStr "photo.final.PNG")) = Ok "attachment--png".
Proof.
  exact (toExtension_last_extension "photo.final" "PNG" ltac:(discriminate) eq_refl).
Defined.

Lemma dropPrefix_spec p s r : dropPrefix p s = Some r <-> s = p +:+ r.
Proof.
  revert s. induction p as [| a p IH]; intros s.
  - cbn [dropPrefix]. change ("" +:+ r) with r. split; [now intros [= ->] | now intros ->].
  - rewrite append_cons. destruct s as [| b s]; cbn [dropPrefix]; [split; discriminate |].
    destruct (Ascii.eqb_spec a b) as [-> | Hne].
    + rewrite IH. split; [now intros -> | now intros [= ->]].
    + split; [discriminate | intros [= -> ->]; congruence].
Qed.

Lemma dropPrefix_is_Some p s : is_Some (dropPrefix p s) <-> ∃ r, s = p +:+ r.
Proof.
  split.
  - intros [r Hr]. exists r. now apply dropPrefix_spec.
  - intros [r Hr]. exists r. now apply dropPrefix_spec.
Qed.

(** X2.  The content types that count as previewable: [image] itself and
    whatever starts with [image/gif], [image/png], [image/jpg] or
    [image/jpeg] -- the pattern is not anchored after the subtype. *)
Theorem isPreviewable_spec (s : string) :
  isPreviewable s = true
  <-> s = "image"
      ∨ ∃ r, s = "image/gif" +:+ r ∨ s = "image/png" +:+ r
             ∨ s = "image/jpg" +:+ r ∨ s = "image/jpeg" +:+ r.
Proof.
  unfold isPreviewable.
  destruct (dropPrefix "image" s) as [t |] eqn:E.
  - apply dropPrefix_spec in E. subst s.
    rewrite !orb_true_iff, !bool_decide_eq_true, !dropPrefix_is_Some.
    split.
    + intros [[[[-> | [r ->]] | [r ->]] | [r ->]] | [r ->]]; eauto 10.
    + intros [H | (r & [H | [H | [H | H]]])].
      * left. left. left. left.
        change "image" with ("image" +:+ "") in H at 2.
        apply (f_equal (dropPrefix "image")) in H.
        rewrite (proj2 (dropPrefix_spec "image" _ t) eq_refl) in H.
        rewrite (proj2 (dropPrefix_spec "image" _ "") eq_refl) in H. congruence.
      * left. left. left. right. exists r.
        apply (f_equal (dropPrefix "image")) in H.
        rewrite (proj2 (dropPrefix_spec "image" _ t) eq_refl) in H.
        change ("image/gif" +:+ r) with ("image" +:+ ("/gif" +:+ r)) in H.
        rewrite (proj2 (dropPrefix_spec "image" _ _) eq_refl) in H. congruence.
      * left. left. right. exists r.
        apply (f_equal (dropPrefix "image")) in H.
        rewrite (proj2 (dropPrefix_spec "image" _ t) eq_refl) in H.
        change ("image/png" +:+ r) with ("image" +:+ ("/png" +:+ r)) in H.
        rewrite (proj2 (dropPrefix_spec "image" _ _) eq_refl) in H. congruence.
      * left. right. exists r.
        apply (f_equal (dropPrefix "image")) in H.
        rewrite (proj2 (dropPrefix_spec "image" _ t) eq_refl) in H.
        change ("image/jpg" +:+ r) with ("image" +:+ ("/jpg" +:+ r)) in H.
        rewrite (proj2 (dropPrefix_spec "image" _ _) eq_refl) in H. congruence.
      * right. exists r.
        apply (f_equal (dropPrefix "image")) in H.
        rewrite (proj2 (dropPrefix_spec "image" _ t) eq_refl) in H.
        change ("image/jpeg" +:+ r) with ("image" +:+ ("/jpeg" +:+ r)) in H.
        rewrite (proj2 (dropPrefix_spec "image" _ _) eq_refl) in H. congruence.
  - split; [discriminate |].
    intros [-> | (r & [-> | [-> | [-> | ->]]])]; discriminate.
Qed.

(** ** The rendered figure *)

Section Rendering.

Variable JSON_stringify : object -> string.
Variable serializeFragment : list Node -> string.

Lemma mergeAttributes_empty (b : object) : mergeAttributes ∅ b = b.
Proof.
  unfold mergeAttributes. rewrite lookup_empty.
  apply map_eq. intros k. rewrite lookup_union, lookup_empty.
  destruct (b !! k); reflexivity.
Qed.

(** X3.  The classes of the rendered figure: the class of the options,
    the class of the mode -- content before preview before file --
    and the classes of the extension, and no other. *)
Theorem rendered_class t a cs rendered :
  serializeNode JSON_stringify serializeFragment (Elem t a cs) = Ok rendered ->
  ∃ pv ext cls,
    canPreview (a !! "previewable") (a !! "contentType") = Ok pv
    ∧ toExtension (a !! "fileName") = Ok ext
    ∧ getAttribute rendered "class" = Some cls
    ∧ ∀ c, c ∈ classList cls
           <-> c = "attachment"
               ∨ c = (if truthy (a !! "content") then "attachment--content"
                      else if pv then "attachment--preview" else "attachment--file")
               ∨ c ∈ classList ext.
Proof.
  unfold serializeNode, renderHTML, figureClass. cbn [nodeAttrs nodeContent].
  destruct (canPreview _ _) as [pv |]; [| discriminate]. cbn [rbind].
  destruct (toExtension _) as [ext |]; [| discriminate]. cbn [rbind].
  intros H. exists pv, ext. eexists. split; [reflexivity |]. split; [reflexivity |].
  set (cls := optionsClass +:+ _) in H.
  set (b := objectOf _) in H.
  assert (Hb : b !! "class" = Some (VStr cls)) by (unfold b; now rewrite lookup_objectOf).
  assert (Hm : mergeAttributes (optionsHTMLAttributes JSON_stringify) b !! "class"
               = Some (VStr ("attachment" +:+ " " +:+ cls))).
  { unfold mergeAttributes, optionsHTMLAttributes. rewrite lookup_insert_eq, Hb.
    cbn [truthy]. rewrite bool_decide_eq_false_2 by discriminate. cbn [negb].
    now rewrite lookup_insert_eq. }
  split.
  - destruct (negb (truthy (a !! "content"))); injection H as <-;
      cbn [renderSpec getAttribute]; rewrite lookup_omap, Hm; reflexivity.
  - intros c. subst cls. unfold toType.
    destruct (truthy (a !! "content")); [| destruct pv];
      match goal with
      | |- context [classList ?s] =>
          match s with
          | context [ext] =>
              match goal with
              | |- context [?m = _ ∨ _ = ?mode ∨ _] =>
                  change (classList s)
                    with ("attachment" :: "attachment" :: mode :: classList ext)
              end
          end
      end;
      rewrite !elem_of_cons; tauto.
Qed.

(** X4.  The children of the rendered figure: the caption element, holding
    the markup of the node's content, preceded by an image exactly
    when the [content] attribute is falsy -- whether or not the
    attachment is previewable; the image shows [url], else [src]. *)
Theorem rendered_children t a cs rendered :
  serializeNode JSON_stringify serializeFragment (Elem t a cs) = Ok rendered ->
  ∃ fc,
    tagOf fc = Some "figcaption"
    ∧ getAttribute fc "class" = Some "attachment__caption attachment__caption--edited"
    ∧ childrenOf fc = [DContent (serializeFragment cs)]
    ∧ if truthy (a !! "content") then childrenOf rendered = [fc]
      else ∃ img,
          childrenOf rendered = [img; fc]
          ∧ tagOf img = Some "img"
          ∧ childrenOf img = []
          ∧ getAttribute img "src" = or_else (a !! "url") (a !! "src") ≫= attrString
          ∧ getAttribute img "contenteditable" = Some "false"
          ∧ getAttribute img "width" = a !! "width" ≫= attrString
          ∧ getAttribute img "height" = a !! "height" ≫= attrString.
Proof.
  unfold serializeNode, renderHTML. cbn [nodeAttrs nodeContent].
  destruct (figureClass optionsClass a) as [cls |]; [| discriminate]. cbn [rbind].
  rewrite !mergeAttributes_empty.
  intros H. eexists. split; [| split; [| split]]; cycle 3.
  - destruct (truthy (a !! "content")); cbn [negb] in H; injection H as <-;
      cbn [renderSpec childrenOf map].
    + reflexivity.
    + eexists. split; [reflexivity |].
      cbn [renderSpec tagOf childrenOf getAttribute map].
      rewrite !lookup_omap, !lookup_objectOf. cbn [lookupEntries String.eqb Ascii.eqb Bool.eqb].
      repeat split; try reflexivity.
      * destruct (or_else _ _); reflexivity.
      * destruct (a !! "width"); reflexivity.
      * destruct (a !! "height"); reflexivity.
  - reflexivity.
  - cbn [renderSpec getAttribute]. rewrite lookup_omap, lookup_singleton_eq. reflexivity.
  - reflexivity.
Qed.

End Rendering.

Lemma rendered_class_witness :
  let f := Elem AttachmentFigure
             (<["contentType" := VStr "image/png"]> (figureAttrs "cap" "Photo.PNG"))
             [Text "cap"] in
  serializeNode stringify textMarkup f = Ok (rendering f)
  ∧ ∃ cls, getAttribute (rendering f) "class" = Some cls
           ∧ ∀ c, c ∈ classList cls
                  <-> c = "attachment" ∨ c = "attachment--preview" ∨ c = "attachment--png".
Proof.
  intros f.
  assert (H : serializeNode stringify textMarkup f = Ok (rendering f)) by reflexivity.
  split; [exact H |].
  destruct (rendered_class stringify textMarkup _ _ _ _ H)
    as (pv & ext & cls & Hpv & Hext & Hc & Hall).
  vm_compute in Hpv. vm_compute in Hext.
  injection Hpv as <-. injection Hext as <-.
  exists cls. split; [exact Hc |]. intros c. rewrite Hall.
  change (classList "attachment--png") with ["attachment--png"].
  rewrite list_elem_of_singleton. reflexivity.
Defined.

Lemma rendered_children_witness :
  let f := figure "cap" "a.png" "cap" in
  serializeNode stringify textMarkup f = Ok (rendering f)
  ∧ ∃ img fc, childrenOf (rendering f) = [img; fc]
              ∧ tagOf img = Some "img"
              ∧ tagOf fc = Some "figcaption"
              ∧ childrenOf fc = [DContent "cap"].
Proof.
  intros f.
  assert (H : serializeNode stringify textMarkup f = Ok (rendering f)) by reflexivity.
  split; [exact H |].
  destruct (rendered_children stringify textMarkup _ _ _ _ H) as (fc & Ht & _ & Hcs & Hr).
  change (truthy (figureAttrs "cap" "a.png" !! "content")) with false in Hr.
  destruct Hr as (img & Hr & Hi & _).
  exists img, fc. auto.
Defined.

(** ** Parsing elements *)

Lemma computeAttrs_lookup (specs : gmap string (option value)) (values : object) :
  map_Forall (λ _ d, is_Some d) specs ->
  ∃ D, computeAttrs specs values = Ok D
       ∧ ∀ k, D !! k = match specs !! k with
                       | Some d => match values !! k with Some v => Some v | None => d end
                       | None => None
                       end.
Proof.
  intros Hall. unfold computeAttrs. rewrite bool_decide_eq_true_2.
  - eexists. split; [reflexivity |]. intros k. rewrite lookup_merge.
    destruct (specs !! k), (values !! k); reflexivity.
  - intros k d Hk. left. exact (Hall k d Hk).
Qed.

Section Parsing.

Variable JSON_stringify : object -> string.
Variable JSON_parse : string -> result (option object).
Variable outerHTML : Dom -> string.
Variable fromString : string -> value.

Local Abbreviation wrapper := (hasTag "action-text-attachment").
Local Abbreviation payloadFigure := (hasTagWithAttr "figure" "data-trix-attachment").

Lemma findAttribute_legacy e p k :
  isLegacy e p ->
  findAttribute JSON_parse e k
  = let? o := parsedObject JSON_parse p in Ok (o !! k).
Proof.
  intros (Htag & Hpay & Hne & Hanc).
  assert (Hw : closest wrapper e = None).
  { apply closest_none; [| exact Hanc]. unfold hasTag. now rewrite Htag. }
  assert (Hf : closest payloadFigure e = Some (self e)).
  { unfold closest. cbn [find]. unfold hasTagWithAttr, hasTag. now rewrite Htag, Hpay. }
  unfold findAttribute. rewrite Hw, Hf.
  cbn [mbind option_bind fmap option_fmap option_map truthy].
  rewrite Hpay. cbn [fmap option_fmap option_map truthy default].
  rewrite (bool_decide_eq_false_2 _ Hne). cbn [negb]. unfold id.
  reflexivity.
Qed.

Lemma getAttrs_throws ps1 nm parse ps2 (e : Element) err :
  Forall (λ p, (∃ v, p.2 e = Ok v) ∨ p.2 e = Throw err) ps1 ->
  parse e = Throw err ->
  ∀ items, getAttrs (ps1 ++ (nm, parse) :: ps2) e items = Throw err.
Proof.
  intros H Hp. induction H as [| [n f] r Hf _ IH]; intros items; cbn [app getAttrs].
  - now rewrite Hp.
  - cbn [snd] in Hf. destruct Hf as [[v ->] | ->]; [| reflexivity].
    cbn [rbind]. destruct v as [[| | |] |]; apply IH.
Qed.

(** A payload that cannot be read as an object makes the parse of the
    figure raise at the first parser that reads it. *)
Lemma parseFigure_raises (e : Element) (p : string) (err : error) :
  isLegacy e p ->
  parsedObject JSON_parse p = Throw err ->
  parseFigure JSON_parse outerHTML fromString e = Throw err.
Proof.
  intros Hl Hp.
  pose proof (λ k, findAttribute_legacy e p k Hl) as Hfind.
  unfold parseFigure.
  change (attributeParsers JSON_parse outerHTML fromString)
    with ([("attachmentId", parse_default fromString "attachmentId");
           ("caption", parse_caption JSON_parse outerHTML);
           ("progress", parse_default fromString "progress")]
            ++ ("sgid", λ e, findAttribute JSON_parse e "sgid")
            :: [("src", λ e, findAttribute JSON_parse e "src");
                ("height", λ e, findAttribute JSON_parse e "height");
                ("width", λ e, findAttribute JSON_parse e "width");
                ("contentType", parse_contentType JSON_parse);
                ("fileName", λ e, findAttribute JSON_parse e "filename");
                ("fileSize", λ e, findAttribute JSON_parse e "filesize");
                ("content", parse_content JSON_parse outerHTML);
                ("url", λ e, findAttribute JSON_parse e "url");
                ("previewable", parse_previewable JSON_parse)]).
  rewrite (getAttrs_throws _ _ _ _ e err); [reflexivity | |].
  - repeat (apply Forall_cons; split); [| | | apply Forall_nil_2]; cbn [snd].
    + left. unfold parse_default. eauto.
    + unfold parse_caption. destruct (truthy _); [left; eauto |].
      right. now rewrite Hfind, Hp.
    + left. unfold parse_default. eauto.
  - now rewrite Hfind, Hp.
Qed.

(** X5.  A payload that is the text of [null] makes the parse of the
    figure raise a [TypeError]: the parsers read a property of what
    [JSON.parse] returns, and no attribute falls back to its
    default. *)
Theorem parseFigure_null_payload (e : Element) (p : string) :
  isLegacy e p ->
  JSON_parse p = Ok None ->
  parseFigure JSON_parse outerHTML fromString e = Throw TypeError.
Proof.
  intros Hl Hp. apply (parseFigure_raises e p TypeError Hl).
  unfold parsedObject. now rewrite Hp.
Qed.

(** X6.  A payload that is not JSON makes the parse of the figure raise:
    no attribute falls back to its default. *)
Theorem parseFigure_malformed_payload (e : Element) (p : string) (err : error) :
  isLegacy e p ->
  JSON_parse p = Throw err ->
  parseFigure JSON_parse outerHTML fromString e = Throw err.
Proof.
  intros Hl Hp. apply (parseFigure_raises e p err Hl).
  unfold parsedObject. now rewrite Hp.
Qed.

Lemma parsers_legacy (e : Element) (p : string) (o : object) :
  isLegacy e p ->
  parsedObject JSON_parse p = Ok o ->
  Forall2 (λ q r, q.1 = r.1 ∧ q.2 e = Ok r.2)
    (attributeParsers JSON_parse outerHTML fromString)
    (parsedLegacy outerHTML fromString o (self e)).
Proof.
  intros Hl Hp.
  assert (Hfind : ∀ k, findAttribute JSON_parse e k = Ok (o !! k))
    by (intros k; now rewrite (findAttribute_legacy e p k Hl), Hp).
  destruct Hl as (Htag & Hpay & Hne & Hanc).
  assert (Hw : closest wrapper e = None).
  { apply closest_none; [| exact Hanc]. unfold hasTag. now rewrite Htag. }
  unfold attributeParsers, parsedLegacy.
  repeat (apply Forall2_cons; split); try (now apply Forall2_nil);
    (split; [reflexivity |]); cbn [snd fst]; rewrite ?Hfind; try reflexivity.
  - unfold parse_caption, or_else. destruct (truthy _); [reflexivity | apply Hfind].
  - unfold parse_contentType. rewrite Hfind. cbn [rbind].
    rewrite Hpay. cbn [fmap option_fmap option_map]. unfold or_else.
    cbn [truthy]. rewrite (bool_decide_eq_false_2 _ Hne). cbn [negb].
    rewrite Hp. cbn [rbind]. destruct (truthy (o !! "content-type")); reflexivity.
  - unfold parse_content. rewrite Hfind, Hw. reflexivity.
  - unfold parse_previewable. rewrite Hpay.
    cbn [fmap option_fmap option_map truthy].
    rewrite (bool_decide_eq_false_2 _ Hne). cbn [negb default]. unfold id.
    now rewrite Hp.
Qed.

(** X7.  Parsing a [figure] whose payload parses to the object [o]: the
    content type is [application/octet-stream] when the payload names
    none; [progress] is 100 unless the element has the attribute;
    [previewable] is [false] when the payload does not say; and the
    file name is the payload's [filename]. *)
Theorem parseFigure_legacy_defaults (e : Element) (p : string) (o : object) :
  isLegacy e p ->
  JSON_parse p = Ok (Some o) ->
  ∃ D, parseFigure JSON_parse outerHTML fromString e = Ok D
       ∧ (truthy (o !! "content-type") = false -> truthy (o !! "contentType") = false ->
          D !! "contentType" = Some (VStr "application/octet-stream"))
       ∧ (getAttribute (self e) "progress" = None -> D !! "progress" = Some (VNum 100))
       ∧ (present (o !! "previewable") = None -> D !! "previewable" = Some (VBool false))
       ∧ (∀ v, present (o !! "filename") = Some v -> D !! "fileName" = Some v).
Proof.
  intros Hl Hp.
  assert (Hpo : parsedObject JSON_parse p = Ok o) by (unfold parsedObject; now rewrite Hp).
  unfold parseFigure.
  rewrite (getAttrs_collect _ _ _ (parsers_legacy e p o Hl Hpo)). cbn [rbind].
  destruct (computeAttrs_figure (collect ∅ (parsedLegacy outerHTML fromString o (self e))))
    as (D & HD & Hlook).
  exists D. split; [exact HD |].
  assert (Hk : ∀ k, D !! k
                    = match attrSpecs AttachmentFigure !! k with
                      | Some d =>
                          match entry k (parsedLegacy outerHTML fromString o (self e))
                                ≫= present with
                          | Some x => Some x
                          | None => d
                          end
                      | None => None
                      end).
  { intros k. rewrite Hlook, lookup_collect.
    - rewrite lookup_empty.
      destruct (entry k _) as [v |]; cbn; [destruct (present v) |]; reflexivity.
    - cbn. refine (bool_decide_unpack _ _). vm_compute. exact I. }
  repeat split.
  - intros H1 H2. rewrite Hk.
    replace (attrSpecs AttachmentFigure !! "contentType") with (Some (Some (VStr "")))
      by (vm_compute; reflexivity).
    cbn [entry parsedLegacy String.eqb Ascii.eqb Bool.eqb mbind option_bind].
    unfold or_else. rewrite H1, H2. reflexivity.
  - intros H1. rewrite Hk.
    replace (attrSpecs AttachmentFigure !! "progress") with (Some (Some (VNum 100)))
      by (vm_compute; reflexivity).
    cbn [entry parsedLegacy String.eqb Ascii.eqb Bool.eqb mbind option_bind].
    rewrite H1. reflexivity.
  - intros H1. rewrite Hk.
    replace (attrSpecs AttachmentFigure !! "previewable") with (Some (Some (VBool false)))
      by (vm_compute; reflexivity).
    cbn [entry parsedLegacy String.eqb Ascii.eqb Bool.eqb mbind option_bind].
    rewrite H1. reflexivity.
  - intros v H1. rewrite Hk.
    replace (attrSpecs AttachmentFigure !! "fileName") with (Some (Some (VStr "")))
      by (vm_compute; reflexivity).
    cbn [entry parsedLegacy String.eqb Ascii.eqb Bool.eqb mbind option_bind].
    rewrite H1. reflexivity.
Qed.

Lemma image_specs_default :
  map_Forall (λ (_ : string) (d : option value), is_Some d) (attrSpecs AttachmentImage).
Proof. refine (bool_decide_unpack _ _). vm_compute. exact I. Qed.

(** X8.  An [img] element outside any [action-text-attachment] element and
    any [figure] with a payload parses to an image node without a
    source: [src], [height] and [width] are read from the attachment
    only, never from the element's own attributes. *)
Theorem parseImage_standalone (e : Element) :
  closest wrapper e = None ->
  closest payloadFigure e = None ->
  ∃ D, parseImage JSON_parse fromString e = Ok D
       ∧ D !! "src" = Some (VStr "")
       ∧ D !! "height" = Some (VStr "")
       ∧ D !! "width" = Some (VStr "").
Proof.
  intros Hw Hf.
  assert (Hfind : ∀ k, findAttribute JSON_parse e k = Ok (Some VNull))
    by (intros k; unfold findAttribute; rewrite Hw, Hf; reflexivity).
  unfold parseImage.
  rewrite (getAttrs_collect _ _
             [("src", Some VNull); ("height", Some VNull); ("width", Some VNull);
              ("attachmentId", fromString <$> getAttribute (self e) "attachmentId")]).
  2: { unfold imageParsers.
       repeat (apply Forall2_cons; split); try (now apply Forall2_nil);
         (split; [reflexivity |]); cbn [snd fst]; rewrite ?Hfind; reflexivity. }
  cbn [rbind].
  destruct (computeAttrs_lookup (attrSpecs AttachmentImage)
              (collect ∅ [("src", Some VNull); ("height", Some VNull); ("width", Some VNull);
                          ("attachmentId",
                            fromString <$> getAttribute (self e) "attachmentId")])
              image_specs_default) as (D & HD & Hlook).
  exists D. split; [exact HD |].
  assert (Hc : ∀ k, k ≠ "attachmentId" ->
               collect ∅ [("src", Some VNull); ("height", Some VNull); ("width", Some VNull);
                          ("attachmentId",
                            fromString <$> getAttribute (self e) "attachmentId")] !! k
               = None).
  { intros k Hk. unfold collect. cbn [fold_left snd fst].
    destruct (fromString <$> _) as [[| | |] |];
      rewrite ?lookup_insert_ne by congruence; apply lookup_empty. }
  repeat split; rewrite Hlook, Hc by discriminate; vm_compute; reflexivity.
Qed.

(** X9.  Inside a [figure] whose payload parses to [o], the source of the
    image is the [url] of the payload. *)
Theorem parseImage_in_figure (e : Element) (d : Dom) (p : string) (o : object) (u : value) :
  closest wrapper e = None ->
  closest payloadFigure e = Some d ->
  getAttribute d "data-trix-attachment" = Some p -> p ≠ "" ->
  JSON_parse p = Ok (Some o) ->
  o !! "url" = Some u -> u ≠ VNull ->
  ∃ D, parseImage JSON_parse fromString e = Ok D ∧ D !! "src" = Some u.
Proof.
  intros Hw Hf Hpay Hne Hp Hu Hnull.
  assert (Hfind : ∀ k, findAttribute JSON_parse e k = Ok (o !! k)).
  { intros k. unfold findAttribute. rewrite Hw, Hf.
    cbn [mbind option_bind fmap option_fmap option_map truthy]. rewrite Hpay.
    cbn [fmap option_fmap option_map truthy default].
    rewrite (bool_decide_eq_false_2 _ Hne). cbn [negb]. unfold id.
    unfold parsedObject. now rewrite Hp. }
  unfold parseImage.
  rewrite (getAttrs_collect _ _
             [("src", o !! "url"); ("height", o !! "height"); ("width", o !! "width");
              ("attachmentId", fromString <$> getAttribute (self e) "attachmentId")]).
  2: { unfold imageParsers.
       repeat (apply Forall2_cons; split); try (now apply Forall2_nil);
         (split; [reflexivity |]); cbn [snd fst]; rewrite ?Hfind; reflexivity. }
  cbn [rbind].
  edestruct (computeAttrs_lookup (attrSpecs AttachmentImage)) as (D & HD & Hlook);
    [exact image_specs_default |].
  exists D. split; [exact HD |].
  rewrite Hlook, lookup_collect.
  - cbn [entry String.eqb Ascii.eqb Bool.eqb]. rewrite Hu.
    replace (attrSpecs AttachmentImage !! "src") with (Some (Some (VStr "")))
      by (vm_compute; reflexivity).
    destruct u; cbn [present]; congruence.
  - cbn. refine (bool_decide_unpack _ _). vm_compute. exact I.
Qed.

End Parsing.

Lemma parseFigure_null_payload_witness :
  parseFigure parse noMarkup VStr
    {| self := DElem "figure" {[ "data-trix-attachment" := "null" ]} [];
       ancestors := [] |}
  = Throw TypeError.
Proof.
  apply (parseFigure_null_payload parse noMarkup VStr _ "null").
  - repeat split; [discriminate | constructor].
  - reflexivity.
Defined.

Lemma parseFigure_malformed_payload_witness :
  parseFigure parse noMarkup VStr
    {| self := DElem "figure" {[ "data-trix-attachment" := "oops" ]} [];
       ancestors := [] |}
  = Throw SyntaxError.
Proof.
  apply (parseFigure_malformed_payload parse noMarkup VStr _ "oops").
  - repeat split; [discriminate | constructor].
  - reflexivity.
Defined.

Lemma parseFigure_legacy_defaults_witness :
  let o : object := {[ "filename" := VStr "a.pdf" ]} in
  ∃ D, parseFigure parse noMarkup VStr
         {| self := DElem "figure" {[ "data-trix-attachment" := stringify o ]} [];
            ancestors := [] |} = Ok D
       ∧ D !! "contentType" = Some (VStr "application/octet-stream")
       ∧ D !! "progress" = Some (VNum 100)
       ∧ D !! "previewable" = Some (VBool false)
       ∧ D !! "fileName" = Some (VStr "a.pdf").
Proof.
  intros o.
  destruct (parseFigure_legacy_defaults parse noMarkup VStr
              {| self := DElem "figure" {[ "data-trix-attachment" := stringify o ]} [];
                 ancestors := [] |} (stringify o) o)
    as (D & HD & H1 & H2 & H3 & H4).
  - repeat split; [discriminate | constructor].
  - apply parse_stringify.
  - exists D. split; [exact HD |].
    split; [apply H1; reflexivity |].
    split; [apply H2; reflexivity |].
    split; [apply H3; reflexivity |].
    apply H4. reflexivity.
Defined.

Lemma parseImage_standalone_witness :
  ∃ D, parseImage parse VStr
         {| self := DElem "img" {[ "src" := "x.png" ]} []; ancestors := [] |} = Ok D
       ∧ D !! "src" = Some (VStr "")
       ∧ D !! "height" = Some (VStr "")
       ∧ D !! "width" = Some (VStr "").
Proof.
  apply (parseImage_standalone parse VStr); reflexivity.
Defined.

Lemma parseImage_in_figure_witness :
  let o : object := {[ "url" := VStr "/x.png" ]} in
  ∃ D, parseImage parse VStr
         {| self := DElem "img" {[ "src" := "x.png" ]} [];
            ancestors := [DElem "figure" {[ "data-trix-attachment" := stringify o ]} []] |}
       = Ok D
       ∧ D !! "src" = Some (VStr "/x.png").
Proof.
  intros o.
  apply (parseImage_in_figure parse VStr _
           (DElem "figure" {[ "data-trix-attachment" := stringify o ]} [])
           (stringify o) o (VStr "/x.png")).
  - reflexivity.
  - reflexivity.
  - reflexivity.
  - discriminate.
  - apply parse_stringify.
  - reflexivity.
  - discriminate.
Defined.

(** ** The reconciliation pass as a whole *)

Section PassFacts.

Variable JSON_stringify : object -> string.
Variable serializeFragment : list Node -> string.
Variable outerHTML : Dom -> string.

Local Abbreviation pass := (appendTransaction JSON_stringify serializeFragment outerHTML).
Local Abbreviation R s := (reconcile serializeFragment (paragraphOf s)).

(** X10.  The pass emits a transaction exactly when the document holds an
    empty gallery or a figure whose caption attribute is not the
    markup of its content.  The steps of that transaction are, in
    document order, one replacement for each such gallery and one
    change of markup for each such figure, and its selection is not
    set. *)
Theorem pass_emits_when_dirty (st : EditorState) :
  wfSchema (schema st) = true ->
  wfDoc (schema st) (state_doc st) = true ->
  ∃ r, pass st = Ok r
       ∧ (is_Some r <-> dirty serializeFragment (state_doc st) = true)
       ∧ ∀ tr, r = Some tr ->
               steps tr = stepsOf serializeFragment (paragraphOf (schema st))
                            (nodeContent (state_doc st)) 0
               ∧ selectionSet tr = None.
Proof.
  intros Hs Hd.
  rewrite (appendTransaction_spec JSON_stringify serializeFragment outerHTML st Hs Hd).
  eexists. split; [reflexivity |].
  destruct (dirty serializeFragment (state_doc st)).
  - split; [split; eauto |]. intros tr [= <-]. split; reflexivity.
  - split; [split; [intros [? ?] |]; discriminate |]. discriminate.
Qed.

(** X11.  The document that the pass commits is again a well-formed
    document of the same size, so that every position of the old
    document is one of the new. *)
Theorem pass_keeps_shape (st : EditorState) (tr : Transaction) :
  wfSchema (schema st) = true ->
  wfDoc (schema st) (state_doc st) = true ->
  pass st = Ok (Some tr) ->
  wfDoc (schema st) (doc tr) = true
  ∧ nodeSize (doc tr) = nodeSize (state_doc st).
Proof.
  intros Hs Hd.
  rewrite (appendTransaction_spec JSON_stringify serializeFragment outerHTML st Hs Hd).
  destruct (dirty _ _); [| discriminate]. intros [= <-]. cbn [doc].
  split; [| apply reconcile_size; exact Hs].
  destruct (wfDoc_parts st _ Hd) as (t & a & cs & Hdoc & Hw & Hl & Hg & Hf).
  pose proof (reconcile_wf serializeFragment st Hs _ Hw) as Hw'.
  destruct (reconcile_root serializeFragment st _ Hg Hf) as [Hr _].
  rewrite Hdoc in Hr. unfold wfDoc. rewrite Hw'. rewrite Hdoc, Hr.
  rewrite Hdoc in Hg, Hf. cbn [isLeaf]. rewrite Hl.
  unfold isGallery, isFigure in *. cbn [typeName] in *. rewrite Hg, Hf. reflexivity.
Qed.

(** X12.  After the pass every figure of the document has, as its caption
    attribute, the markup of its content. *)
Theorem pass_syncs_all_captions (st : EditorState) (r : option Transaction)
  (pos : Z) (f : Node) :
  wfSchema (schema st) = true ->
  wfDoc (schema st) (state_doc st) = true ->
  pass st = Ok r ->
  nodeAt (from_option doc (state_doc st) r) pos = Ok (Some f) ->
  isFigure f = true ->
  nodeAttrs f !! "caption" = Some (VStr (serializeFragment (nodeContent f))).
Proof.
  intros Hs Hd.
  rewrite (appendTransaction_spec JSON_stringify serializeFragment outerHTML st Hs Hd).
  destruct (wfDoc_parts st _ Hd) as (t & a & cs & Hdoc & Hw & Hl & Hg & Hf).
  intros Hr Hn Hfig.
  assert (Hclean : dirty serializeFragment (from_option doc (state_doc st) r) = false).
  { destruct (dirty serializeFragment (state_doc st)) eqn:E; injection Hr as <-;
      cbn [from_option doc]; [now apply reconcile_clean | exact E]. }
  assert (Hroot : isGallery (from_option doc (state_doc st) r) = false
                  ∧ isFigure (from_option doc (state_doc st) r) = false).
  { destruct (dirty serializeFragment (state_doc st)); injection Hr as <-;
      cbn [from_option doc]; [| now split].
    destruct (reconcile_root serializeFragment st _ Hg Hf) as [-> _].
    rewrite Hdoc in *. now split. }
  destruct Hroot as [Hg' Hf'].
  destruct (staleCaption serializeFragment f) eqn:Est.
  - exfalso.
    assert (Hdf : dirty serializeFragment f = true)
      by (destruct f; cbn [dirty]; rewrite Est; apply orb_true_iff; left; apply orb_true_r).
    pose proof (nodeAt_dirty serializeFragment _ _ _ Hn Hdf) as Hex.
    destruct (reconcile_root serializeFragment st _ Hg' Hf') as [_ Hdd].
    congruence.
  - unfold staleCaption in Est. rewrite Hfig in Est. cbn [andb] in Est.
    unfold strict_ne in Est. apply negb_false_iff, bool_decide_eq_true_1 in Est.
    exact Est.
Qed.

(** X13.  A figure whose file name is a number other than zero makes the
    caption check, and with it the pass, raise: [toExtension] calls
    [match] on it. *)
Theorem handleCaptions_raises_on_numeric_file_name
  (st : EditorState) (f : Node) (pos : Z) (n : Z) (pv : bool)
  (s : Transaction * bool) :
  isFigure f = true ->
  nodeAttrs f !! "fileName" = Some (VNum n) -> n ≠ 0 ->
  canPreview (nodeAttrs f !! "previewable") (nodeAttrs f !! "contentType") = Ok pv ->
  handleCaptions JSON_stringify serializeFragment outerHTML f st pos s.1 = Throw TypeError
  ∧ visit JSON_stringify serializeFragment outerHTML st f pos s = Throw TypeError.
Proof.
  intros Hf Hn Hne Hpv.
  assert (Hh : ∀ tr, handleCaptions JSON_stringify serializeFragment outerHTML f st pos tr
                     = Throw TypeError).
  { intros tr. unfold handleCaptions. unfold isFigure in Hf. rewrite Hf. cbn [negb].
    unfold bind, lift, serializeNode, renderHTML, figureClass.
    rewrite Hpv, Hn. cbn [rbind]. unfold toExtension. cbn [truthy].
    apply Z.eqb_neq in Hne. rewrite Hne. reflexivity. }
  split; [apply Hh |].
  assert (Hg : ∀ tr, handleGallery f st pos tr = Ok (false, tr)).
  { intros tr. unfold handleGallery.
    replace (bool_decide (typeName f = "attachment-gallery")) with false; [reflexivity |].
    apply bool_decide_eq_true_1 in Hf. rewrite Hf. reflexivity. }
  unfold visit, bind, onTransaction. rewrite Hg. cbn [fst snd]. rewrite Hh. reflexivity.
Qed.

End PassFacts.

Lemma pass_emits_when_dirty_witness :
  let st := stateOf untidy (TextSelection 0 0) in
  ∃ r, appendTransaction stringify textMarkup noMarkup st = Ok r
       ∧ (is_Some r <-> dirty textMarkup untidy = true)
       ∧ ∀ tr, r = Some tr ->
               steps tr = stepsOf textMarkup (paragraphOf editorSchema) (nodeContent untidy) 0
               ∧ selectionSet tr = None.
Proof.
  exact (pass_emits_when_dirty stringify textMarkup noMarkup
           (stateOf untidy (TextSelection 0 0)) eq_refl eq_refl).
Defined.

Lemma pass_keeps_shape_witness :
  let st := stateOf untidy (TextSelection 0 0) in
  let tr := default (state_tr st) (reconciled untidy) in
  appendTransaction stringify textMarkup noMarkup st = Ok (Some tr)
  ∧ wfDoc editorSchema (doc tr) = true
  ∧ nodeSize (doc tr) = nodeSize untidy.
Proof.
  intros st tr.
  assert (H : appendTransaction stringify textMarkup noMarkup st = Ok (Some tr))
    by reflexivity.
  split; [exact H |].
  exact (pass_keeps_shape stringify textMarkup noMarkup st tr eq_refl eq_refl H).
Defined.

Lemma pass_syncs_all_captions_witness :
  let f := figure "cap" "a.png" "cap" in
  nodeAt (from_option doc untidy (reconciled untidy)) 6 = Ok (Some f)
  ∧ nodeAttrs f !! "caption" = Some (VStr "cap").
Proof.
  intros f.
  assert (H : nodeAt (from_option doc untidy (reconciled untidy)) 6 = Ok (Some f))
    by reflexivity.
  split; [exact H |].
  exact (pass_syncs_all_captions stringify textMarkup noMarkup
           (stateOf untidy (TextSelection 0 0)) (reconciled untidy) 6 f
           eq_refl eq_refl eq_refl H eq_refl).
Defined.

Lemma handleCaptions_raises_on_numeric_file_name_witness :
  let f := Elem AttachmentFigure (<["fileName" := VNum 5]> (figureAttrs "" "x")) [] in
  let st := stateOf (document [gallery [f]]) (TextSelection 0 0) in
  handleCaptions stringify textMarkup noMarkup f st 1 (state_tr st) = Throw TypeError
  ∧ visit stringify textMarkup noMarkup st f 1 (state_tr st, false) = Throw TypeError.
Proof.
  intros f st.
  apply (handleCaptions_raises_on_numeric_file_name stringify textMarkup noMarkup
           st f 1 5 false (state_tr st, false)).
  - reflexivity.
  - reflexivity.
  - discriminate.
  - reflexivity.
Defined.

(** ** More on the insertion command *)

(** X14.  With the anchor in a gallery of the document, between its
    figures, before the first or after the last, the new figures are
    appended to the gallery, in one step; the selection is not set. *)
Theorem merge_appends_when_anchor_in_gallery
  (attachments : list AttachmentManager) (st : EditorState) (tr : Transaction)
  (dt : NodeType) (da : object) (pre post : list Node)
  (ga : object) (fs1 fs2 : list Node) (figs : list Node) :
  state_doc st = Elem dt da (pre ++ Elem AttachmentGallery ga (fs1 ++ fs2) :: post) ->
  doc tr = state_doc st ->
  isLeafType dt = false ->
  allPositive pre -> allPositive fs1 -> allPositive fs2 ->
  anchor (selection st) = fragmentSize pre + 1 + fragmentSize fs1 ->
  nodes (schema st) !! "attachment-figure" = Some AttachmentFigure ->
  mapResult (attachmentNode (schema st)) attachments = Ok figs ->
  figs ≠ [] ->
  let p := fragmentSize pre + 1 + fragmentSize (fs1 ++ fs2) in
  setAttachmentBody attachments st tr
  = (Ok tt, {| doc := Elem dt da
                        (pre ++ Elem AttachmentGallery ga ((fs1 ++ fs2) ++ figs) :: post);
               steps := steps tr ++ [ReplaceStep p p (mkSlice figs 0 0)];
               selectionSet := selectionSet tr |}).
Proof. exact (merge_in_gallery attachments st tr dt da pre post ga fs1 fs2 figs). Qed.

(** X15.  With the cursor in an empty block that directly follows a gallery
    of the document, the new figures are appended to that gallery, and
    the empty block stays where it is. *)
Theorem merge_appends_to_preceding_gallery
  (attachments : list AttachmentManager) (st : EditorState) (tr : Transaction)
  (dt : NodeType) (da : object) (pre post : list Node)
  (ga : object) (fs : list Node) (et : NodeType) (ea : object) (figs : list Node) :
  let G := Elem AttachmentGallery ga fs in
  let E := Elem et ea [] in
  state_doc st = Elem dt da (pre ++ G :: E :: post) ->
  doc tr = state_doc st ->
  isLeafType dt = false -> isLeafType et = false ->
  name et ≠ "attachment-gallery" ->
  allPositive pre -> allPositive fs ->
  anchor (selection st) = fragmentSize pre + nodeSize G + 1 ->
  nodes (schema st) !! "attachment-figure" = Some AttachmentFigure ->
  mapResult (attachmentNode (schema st)) attachments = Ok figs ->
  figs ≠ [] ->
  let p := anchor (selection st) - 2 in
  setAttachmentBody attachments st tr
  = (Ok tt, {| doc := Elem dt da
                        (pre ++ Elem AttachmentGallery ga (fs ++ figs) :: E :: post);
               steps := steps tr ++ [ReplaceStep p p (mkSlice figs 0 0)];
               selectionSet := selectionSet tr |}).
Proof. exact (merge_after_gallery attachments st tr dt da pre post ga fs et ea figs). Qed.

(** X16.  With no descriptor and the cursor in or behind a gallery, the
    command changes nothing, returns [true] all the same, and hands
    the unchanged transaction to [dispatch]. *)
Theorem merge_of_nothing (st : EditorState) (tr : Transaction) (dispatch : bool)
  (cur : ResolvedPos) (inCurrent inAfter : bool) (e : Z) :
  galleryContext st = Ok (cur, inCurrent, inAfter) ->
  inCurrent || inAfter = true ->
  end_ cur = Some e ->
  setAttachment [] st tr dispatch
  = {| returned := Ok true;
       transaction := tr;
       dispatched := if dispatch then Some tr else None |}.
Proof.
  intros Hctx Hin He. unfold setAttachment, setAttachmentBody.
  rewrite (kbind_pure _ _ _ _ Hctx).
  cbn [fst snd mapResult]. rewrite (kbind_pure _ _ _ [] eq_refl).
  rewrite Hin, He. cbn [from_option]. rewrite (kbind_pure _ _ _ e eq_refl).
  unfold call, insert, replaceWith.
  rewrite Z.eqb_refl. reflexivity.
Qed.

Lemma merge_appends_when_anchor_in_gallery_witness :
  let st := stateOf twoFigures (NodeSelection 1 3) in
  setAttachmentBody [descriptor "c" "c.png"] st (state_tr st)
  = (Ok tt, {| doc := document [gallery [figure "a" "a.png" "a";
                                         figure "b" "b.png" "b";
                                         figure "c" "c.png" "c"]];
               steps := [ReplaceStep 7 7 (mkSlice [figure "c" "c.png" "c"] 0 0)];
               selectionSet := None |}).
Proof.
  intros st.
  apply (merge_appends_when_anchor_in_gallery [descriptor "c" "c.png"] st (state_tr st)
           docType ∅ [] [] ∅ [] [figure "a" "a.png" "a"; figure "b" "b.png" "b"]
           [figure "c" "c.png" "c"]).
  - reflexivity.
  - reflexivity.
  - reflexivity.
  - constructor.
  - constructor.
  - repeat constructor.
  - reflexivity.
  - reflexivity.
  - reflexivity.
  - discriminate.
Defined.

Lemma merge_appends_to_preceding_gallery_witness :
  let st := stateOf (galleryThen "") (TextSelection 6 6) in
  setAttachmentBody [descriptor "c" "c.png"] st (state_tr st)
  = (Ok tt, {| doc := document [gallery [figure "a" "a.png" "a"; figure "c" "c.png" "c"];
                                paragraph ""];
               steps := [ReplaceStep 4 4 (mkSlice [figure "c" "c.png" "c"] 0 0)];
               selectionSet := None |}).
Proof.
  intros st.
  apply (merge_appends_to_preceding_gallery [descriptor "c" "c.png"] st (state_tr st)
           docType ∅ [] [] ∅ [figure "a" "a.png" "a"] paragraphType ∅
           [figure "c" "c.png" "c"]).
  - reflexivity.
  - reflexivity.
  - reflexivity.
  - reflexivity.
  - discriminate.
  - constructor.
  - repeat constructor.
  - reflexivity.
  - reflexivity.
  - reflexivity.
  - discriminate.
Defined.

Lemma merge_of_nothing_witness :
  let st := stateOf twoFigures (TextSelection 2 2) in
  setAttachment [] st (state_tr st) true
  = {| returned := Ok true;
       transaction := state_tr st;
       dispatched := Some (state_tr st) |}.
Proof.
  intros st.
  eapply (merge_of_nothing st (state_tr st) true _ true false 3).
  - reflexivity.
  - reflexivity.
  - reflexivity.
Defined.

(** X17.  The figure that the command builds from a descriptor, whose
    caption is a string or missing: the attributes are the declared ones,
    each with the value of the descriptor if it gives one and its
    default otherwise -- what else the descriptor holds is dropped --
    and the content is the caption as text, if there is any. *)
Theorem attachmentNode_figure (s : Schema) (attachment : AttachmentManager) :
  nodes s !! "attachment-figure" = Some AttachmentFigure ->
  ∃ a, attachmentNode s attachment
       = Ok (Elem AttachmentFigure a
               match properties attachment !! "caption" with
               | Some (VStr c) => if bool_decide (c = "") then [] else [Text c]
               | _ => []
               end)
       ∧ dom a = dom (attrSpecs AttachmentFigure)
       ∧ (∀ k v, properties attachment !! k = Some v ->
                 k ∈ dom (attrSpecs AttachmentFigure) ->
                 a !! k = Some v)
       ∧ (∀ k d, properties attachment !! k = None ->
                 attrSpecs AttachmentFigure !! k = Some d ->
                 a !! k = d).
Proof.
  intros Hfig. pose proof (caption_typed attachment) as Hcap.
  destruct (computeAttrs_figure (properties attachment)) as (a & Ha & Hlook).
  exists a. split; [| split; [| split]].
  - unfold attachmentNode, nodeTypeOf. rewrite Hfig. cbn [rbind].
    unfold create. rewrite Ha.
    destruct (properties attachment !! "caption") as [[| b | n | c] |];
      cbn [stringish] in Hcap; try discriminate Hcap; cbn [truthy rbind].
    + reflexivity.
    + unfold schema_text. destruct (bool_decide (c = "")); reflexivity.
    + reflexivity.
  - apply set_eq. intros k. rewrite !elem_of_dom, Hlook.
    destruct (attrSpecs AttachmentFigure !! k) as [d |] eqn:Es.
    + destruct (figure_specs_default k d Es) as [v ->].
      destruct (properties attachment !! k); split; eauto.
    + split; intros [? ?]; discriminate.
  - intros k v Hk Hin. apply elem_of_dom in Hin as [d Hd].
    rewrite Hlook, Hd, Hk. reflexivity.
  - intros k d Hk Hd. rewrite Hlook, Hd, Hk. reflexivity.
Qed.

Lemma attachmentNode_figure_witness :
  let d : AttachmentManager :=
    {| properties := {[ "caption" := VStr "c"; "fileName" := VStr "c.png";
                        "extra" := VNum 1 ]};
       caption_typed := eq_refl |} in
  ∃ a, attachmentNode editorSchema d = Ok (Elem AttachmentFigure a [Text "c"])
       ∧ a !! "fileName" = Some (VStr "c.png")
       ∧ a !! "progress" = Some (VNum 100)
       ∧ a !! "extra" = None.
Proof.
  intros d.
  destruct (attachmentNode_figure editorSchema d eq_refl)
    as (a & Ha & Hd & Hv & Hdef).
  exists a. split; [exact Ha |].
  split; [apply Hv; [reflexivity | apply elem_of_dom; vm_compute; eauto] |].
  split; [apply (Hdef "progress"); reflexivity |].
  apply not_elem_of_dom. rewrite Hd. apply not_elem_of_dom. reflexivity.
Defined.

(** ** The caret workaround *)

Lemma drain_more fuel s r : drain fuel s = Some r -> drain (S fuel) s = Some r.
Proof.
  revert s. induction fuel as [| k IH]; intros s.
  - cbn [drain]. destruct (pending s); [trivial | discriminate].
  - intros H. cbn [drain] in *. destruct (pending s) eqn:E; [exact H |].
    destruct (runTimeout s) as [s' |]; [| discriminate].
    cbn [mbind option_bind] in *. now apply IH.
Qed.

(** X18.  The workaround cannot keep the editor blurring and focusing: from
    any state, the scheduled timeouts die out after at most twice as
    many runs as there are pending, and if there was any the flag
    ends cleared.  The handler itself always returns [false]. *)
Theorem caret_fix_settles (s : CaretFix) :
  drain (2 * pending s) s
  = Some {| focusing := match pending s with O => focusing s | S _ => false end;
            pending := 0 |}
  ∧ (onFocus s).2 = false.
Proof.
  split; [| unfold onFocus; destruct (focusing s); reflexivity].
  destruct s as [f n]. cbn [pending focusing]. revert f.
  induction n as [| m IH]; intros f; [reflexivity |].
  replace (2 * S m)%nat with (S (S (2 * m))) by lia.
  assert (Hm : drain (2 * m) {| focusing := false; pending := m |}
               = Some {| focusing := false; pending := 0 |})
    by (rewrite IH; destruct m; reflexivity).
  destruct f.
  - apply drain_more. cbn [drain pending runTimeout focusing onFocus fst mbind option_bind].
    exact Hm.
  - cbn [drain pending runTimeout focusing onFocus fst mbind option_bind].
    exact Hm.
Qed.

(** ** Nodes that need no correction *)

Section CleanNodes.

Variable JSON_stringify : object -> string.
Variable serializeFragment : list Node -> string.
Variable outerHTML : Dom -> string.
Variable st : EditorState.
Hypothesis Hs : wfSchema (schema st) = true.

Local Abbreviation P := (paragraphOf (schema st)).

(** A step of the pass is at the position of an empty gallery or of a
    figure whose caption attribute is stale. *)
Lemma stepsOfNode_dirty n :
  ∀ fs t a l1 l2 s,
    wfNode (schema st) n = true -> framesOk fs -> isLeafType t = false ->
    allPositive l1 ->
    s ∈ stepsOfNode serializeFragment P n (plugStart fs + fragmentSize l1) ->
    ∃ g, nodeAt (plug fs (Elem t a (l1 ++ n :: l2))) (stepPos s) = Ok (Some g)
         ∧ (emptyGallery g = true ∨ staleCaption serializeFragment g = true).
Proof.
  induction n as [x | tn an cs IH] using Node_ind2; intros fs t a l1 l2 s Hw Hfs Hl Hp1.
  - cbn. intros H. now apply elem_of_nil in H.
  - pose proof (fragmentSize_nonneg l1). pose proof (fragmentSize_nonneg (Elem tn an cs :: l2)).
    assert (Hhere : nodeAt (plug fs (Elem t a (l1 ++ Elem tn an cs :: l2)))
                      (plugStart fs + fragmentSize l1) = Ok (Some (Elem tn an cs))).
    { rewrite nodeAt_plug; [now apply nodeAt_child | assumption | exact Hl |].
      rewrite contentSize_Elem, fragmentSize_app. lia. }
    cbn [stepsOfNode]. unfold ownSteps. intros Hin.
    apply elem_of_app in Hin as [Hin | Hin].
    + apply elem_of_app in Hin as [Hin | Hin].
      * destruct (emptyGallery (Elem tn an cs)) eqn:Eg; [| now apply elem_of_nil in Hin].
        apply list_elem_of_singleton in Hin. subst s. cbn [stepPos].
        eexists. split; [exact Hhere |]. now left.
      * destruct (staleCaption serializeFragment (Elem tn an cs)) eqn:Est;
          [| now apply elem_of_nil in Hin].
        apply list_elem_of_singleton in Hin. subst s. cbn [stepPos].
        eexists. split; [exact Hhere |]. now right.
    + apply stepsIn_elem in Hin as (d1 & c & d2 & -> & Hin).
      destruct (isLeafType tn) eqn:Eleaf.
      { pose proof (wf_leaf_childless st _ _ _ Hw Eleaf) as E.
        now destruct d1. }
      pose proof (wfNode_Elem _ _ _ _ Hw) as (_ & _ & _ & _ & Hwc).
      apply Forall_app in Hwc as [Hwd1 Hwc]. apply Forall_cons in Hwc as [Hwcc _].
      apply Forall_app in IH as [_ IH]. apply Forall_cons in IH as [IHc _].
      pose (fr := {| ftype := t; fattrs := a; fpre := l1; fpost := l2 |}).
      destruct (IHc (fs ++ [fr]) tn an d1 d2 s Hwcc) as (g & Hg & Hk).
      * apply framesOk_app; assumption.
      * assumption.
      * exact (wf_children_allPositive _ _ Hwd1).
      * rewrite plugStart_app. cbn [fpre fr]. exact Hin.
      * exists g. rewrite plug_app in Hg. cbn [ftype fattrs fpre fpost fr] in Hg. auto.
Qed.

(** X19.  A node that is neither an empty gallery nor a figure with a stale
    caption is not the target of any step of the pass, and after the
    pass the node at its position has its type, its attributes and as
    many children as before. *)
Theorem pass_leaves_clean_nodes (tr : Transaction) (pos : Z) (n : Node) :
  wfDoc (schema st) (state_doc st) = true ->
  appendTransaction JSON_stringify serializeFragment outerHTML st = Ok (Some tr) ->
  nodeAt (state_doc st) pos = Ok (Some n) ->
  emptyGallery n = false ->
  staleCaption serializeFragment n = false ->
  Forall (λ s, stepPos s ≠ pos) (steps tr)
  ∧ ∃ n', nodeAt (doc tr) pos = Ok (Some n')
          ∧ typeName n' = typeName n
          ∧ nodeAttrs n' = nodeAttrs n
          ∧ length (nodeContent n') = length (nodeContent n).
Proof.
  intros Hd Hpass Hat Hg Hc.
  rewrite (appendTransaction_spec JSON_stringify serializeFragment outerHTML st Hs Hd) in Hpass.
  destruct (dirty _ _); [| discriminate]. injection Hpass as <-. cbn [doc steps].
  destruct (wfDoc_parts st _ Hd) as (t & a & cs & E & Hw & Hl & Hg0 & Hf0).
  split.
  - apply Forall_forall. intros s Hin Heq. rewrite E in Hin. cbn [nodeContent] in Hin.
    apply stepsIn_elem in Hin as (d1 & c & d2 & -> & Hin).
    pose proof Hw as Hw'. rewrite E in Hw'.
    pose proof (wfNode_Elem _ _ _ _ Hw') as (_ & _ & _ & _ & Hwc).
    apply Forall_app in Hwc as [Hwd1 Hwc]. apply Forall_cons in Hwc as [Hwcc _].
    destruct (stepsOfNode_dirty c [] t a d1 d2 s Hwcc) as (g & Hg' & Hk).
    + constructor.
    + exact Hl.
    + exact (wf_children_allPositive _ _ Hwd1).
    + exact Hin.
    + cbn [plug] in Hg'. rewrite Heq, <- E, Hat in Hg'. injection Hg' as <-.
      destruct Hk; congruence.
  - rewrite (nodeAt_reconcile serializeFragment st Hs _ Hw), Hat.
    cbn [fmap option_fmap option_map].
    eexists. split; [reflexivity |].
    destruct n as [x | tn an csn]; [repeat split; reflexivity |].
    rewrite reconcile_Elem, Hg, Hc. cbn [typeName nodeAttrs nodeContent].
    repeat split. now rewrite length_map.
Qed.

End CleanNodes.

Lemma pass_leaves_clean_nodes_witness :
  let st := stateOf untidy (TextSelection 0 0) in
  let tr := default (state_tr st) (reconciled untidy) in
  Forall (λ s, stepPos s ≠ 5) (steps tr)
  ∧ ∃ n', nodeAt (doc tr) 5 = Ok (Some n')
          ∧ typeName n' = "attachment-gallery"
          ∧ nodeAttrs n' = ∅
          ∧ length (nodeContent n') = 1%nat.
Proof.
  intros st tr.
  exact (pass_leaves_clean_nodes stringify textMarkup noMarkup st eq_refl tr 5
           (gallery [figure "" "a.png" "cap"]) eq_refl eq_refl eq_refl eq_refl eq_refl).
Defined.

(** ** When rendering succeeds *)

(** X20.  Rendering a figure raises in two cases only: the content type is
    a number or a boolean while [previewable] is falsy, or the file
    name is truthy and not a string. *)
Theorem serializeNode_defined (JSON_stringify : object -> string)
  (serializeFragment : list Node -> string) (t : NodeType) (a : object) (cs : list Node) :
  (∃ rendered, serializeNode JSON_stringify serializeFragment (Elem t a cs) = Ok rendered)
  <-> (truthy (a !! "previewable") = true ∨ stringish (a !! "contentType") = true)
      ∧ (truthy (a !! "fileName") = false ∨ stringish (a !! "fileName") = true).
Proof.
  unfold serializeNode, renderHTML, figureClass, canPreview, toExtension.
  cbn [nodeAttrs nodeContent].
  destruct (truthy (a !! "previewable")).
  - destruct (a !! "fileName") as [[| b | n | s] |]; cbn [truthy stringish negb rbind].
    + split; [intros _; auto |]. intros _. destruct (negb _); eauto.
    + destruct b; cbn [negb rbind].
      * split; [intros [? ?]; discriminate | intros [_ [? | ?]]; discriminate].
      * split; [intros _; auto |]. intros _. destruct (negb _); eauto.
    + destruct (n =? 0); cbn [negb rbind].
      * split; [intros _; auto |]. intros _. destruct (negb _); eauto.
      * split; [intros [? ?]; discriminate | intros [_ [? | ?]]; discriminate].
    + split; [intros _; auto |]. intros _.
      destruct (negb (negb _)); cbn [rbind]; destruct (negb _); eauto.
    + split; [intros _; auto |]. intros _. destruct (negb _); eauto.
  - destruct (a !! "contentType") as [[| b0 | n0 | s0] |]; cbn [stringish rbind];
      try (split; [intros [? ?]; discriminate | intros [[? | ?] _]; discriminate]);
      (destruct (a !! "fileName") as [[| b | n | s] |]; cbn [truthy stringish negb rbind];
       [ split; [intros _; auto |]; intros _; destruct (negb _); eauto
       | destruct b; cbn [negb rbind];
         [ split; [intros [? ?]; discriminate | intros [_ [? | ?]]; discriminate]
         | split; [intros _; auto |]; intros _; destruct (negb _); eauto ]
       | destruct (n =? 0); cbn [negb rbind];
         [ split; [intros _; auto |]; intros _; destruct (negb _); eauto
         | split; [intros [? ?]; discriminate | intros [_ [? | ?]]; discriminate] ]
       | split; [intros _; auto |]; intros _;
         destruct (negb (negb _)); cbn [rbind]; destruct (negb _); eauto
       | split; [intros _; auto |]; intros _; destruct (negb _); eauto ]).
Qed.

Lemma classList_attachment rest :
  classList ("attachment " +:+ rest) = "attachment" :: classList rest.
Proof. reflexivity. Qed.

(** X21.  What [renderHTML] makes of a figure is recognised by both rules
    of [parseHTML]. *)
Theorem rendered_figure_matches_rules (JSON_stringify : object -> string)
  (serializeFragment : list Node -> string) (t : NodeType) (a : object) (cs : list Node)
  (rendered : Dom) :
  serializeNode JSON_stringify serializeFragment (Elem t a cs) = Ok rendered ->
  Forall (λ rule, rule rendered = true) figureRules.
Proof.
  unfold serializeNode, renderHTML. cbn [nodeAttrs nodeContent].
  destruct (figureClass optionsClass a) as [cls |]; [| discriminate]. cbn [rbind].
  intros H.
  set (b := objectOf _) in H.
  assert (Hb1 : b !! "class" = Some (VStr cls)) by (unfold b; now rewrite lookup_objectOf).
  assert (Hb2 : b !! "data-trix-attachment"
                = Some (VStr (JSON_stringify (attachmentAttrs a))))
    by (unfold b; now rewrite lookup_objectOf).
  assert (Hm1 : mergeAttributes (optionsHTMLAttributes JSON_stringify) b !! "class"
                = Some (VStr ("attachment" +:+ " " +:+ cls))).
  { unfold mergeAttributes, optionsHTMLAttributes. rewrite lookup_insert_eq, Hb1.
    cbn [truthy]. rewrite bool_decide_eq_false_2 by discriminate. cbn [negb].
    now rewrite lookup_insert_eq. }
  assert (Hm2 : mergeAttributes (optionsHTMLAttributes JSON_stringify) b
                  !! "data-trix-attachment"
                = Some (VStr (JSON_stringify (attachmentAttrs a)))).
  { unfold mergeAttributes, optionsHTMLAttributes. rewrite lookup_insert_eq, Hb1.
    cbn [truthy]. rewrite bool_decide_eq_false_2 by discriminate. cbn [negb].
    rewrite lookup_insert_ne by discriminate. rewrite lookup_union, Hb2.
    destruct (_ !! _); reflexivity. }
  assert (Hattrs : tagOf rendered = Some "figure"
                   ∧ getAttribute rendered "class" = Some ("attachment " +:+ cls)
                   ∧ is_Some (getAttribute rendered "data-trix-attachment")).
  { destruct (negb (truthy (a !! "content"))); injection H as <-;
      cbn [renderSpec getAttribute tagOf]; rewrite !lookup_omap, Hm1, Hm2;
      repeat split; eauto. }
  destruct Hattrs as (Htag & Hclass & Hpay).
  unfold figureRules. repeat (apply Forall_cons; split); [| | apply Forall_nil_2].
  - unfold hasTagWithAttr, hasTag. rewrite Htag. cbn [andb bool_decide decide_rel].
    rewrite !bool_decide_eq_true_2; auto.
  - unfold hasTag. rewrite Htag, Hclass. cbn [default]. unfold id.
    rewrite classList_attachment.
    rewrite !bool_decide_eq_true_2; [reflexivity | apply list_elem_of_here | reflexivity].
Qed.

Lemma rendered_figure_matches_rules_witness :
  let f := figure "cap" "a.png" "cap" in
  Forall (λ rule, rule (rendering f) = true) figureRules.
Proof.
  intros f.
  exact (rendered_figure_matches_rules stringify textMarkup AttachmentFigure
           (figureAttrs "cap" "a.png") [Text "cap"] (rendering f) eq_refl).
Defined.

(** X22.  A document without galleries and figures gets no corrective
    transaction. *)
Theorem pass_silent_without_attachments (JSON_stringify : object -> string)
  (serializeFragment : list Node -> string) (outerHTML : Dom -> string) (st : EditorState) :
  wfSchema (schema st) = true ->
  wfDoc (schema st) (state_doc st) = true ->
  noAttachments (state_doc st) = true ->
  appendTransaction JSON_stringify serializeFragment outerHTML st = Ok None.
Proof.
  intros Hs Hd Hn.
  rewrite (appendTransaction_spec JSON_stringify serializeFragment outerHTML st Hs Hd).
  now rewrite (noAttachments_clean serializeFragment _ Hn).
Qed.

Lemma pass_silent_without_attachments_witness :
  appendTransaction stringify textMarkup noMarkup
    (stateOf (document [paragraph "a"; paragraph ""]) (TextSelection 1 1)) = Ok None.
Proof.
  exact (pass_silent_without_attachments stringify textMarkup noMarkup
           (stateOf (document [paragraph "a"; paragraph ""]) (TextSelection 1 1))
           eq_refl eq_refl eq_refl).
Defined.

(** ** The payload of the node view *)

(** X23.  The payload that the node view writes agrees with the one that
    [renderHTML] writes on every field but [src], which it lacks. *)
Theorem nodeView_payload_lacks_src (a : object) :
  nodeViewAttachmentAttrs a = delete "src" (attachmentAttrs a).
Proof.
  apply map_eq. intros k. unfold nodeViewAttachmentAttrs, attachmentAttrs.
  destruct (decide (k = "src")) as [-> | Hk].
  - rewrite lookup_delete_eq, lookup_objectOf. reflexivity.
  - rewrite lookup_delete_ne by congruence. rewrite !lookup_objectOf.
    assert (Hsrc : String.eqb k "src" = false) by (now apply String.eqb_neq).
    destruct (String.eqb k "caption") eqn:E1;
      [apply String.eqb_eq in E1; subst k; cbn; now destruct (a !! "caption") |].
    destruct (String.eqb k "contentType") eqn:E2;
      [apply String.eqb_eq in E2; subst k; cbn; now destruct (a !! "contentType") |].
    destruct (String.eqb k "content") eqn:E3;
      [apply String.eqb_eq in E3; subst k; cbn; now destruct (a !! "content") |].
    destruct (String.eqb k "filename") eqn:E4;
      [apply String.eqb_eq in E4; subst k; cbn; now destruct (a !! "fileName") |].
    destruct (String.eqb k "filesize") eqn:E5;
      [apply String.eqb_eq in E5; subst k; cbn; now destruct (a !! "fileSize") |].
    destruct (String.eqb k "height") eqn:E6;
      [apply String.eqb_eq in E6; subst k; cbn; now destruct (a !! "height") |].
    destruct (String.eqb k "width") eqn:E7;
      [apply String.eqb_eq in E7; subst k; cbn; now destruct (a !! "width") |].
    destruct (String.eqb k "sgid") eqn:E8;
      [apply String.eqb_eq in E8; subst k; cbn; now destruct (a !! "sgid") |].
    destruct (String.eqb k "url") eqn:E9;
      [apply String.eqb_eq in E9; subst k; cbn; now destruct (a !! "url") |].
    cbn [lookupEntries]. now rewrite E1, E2, E3, E4, E5, E6, E7, E8, E9, Hsrc.
Qed.
